(** * Sequence models of the CM tutorial notebook: codec, statistics,
      independent-site model, Gaussian pairwise model and Metropolis sampler.

    The notebook [tuto_exercise.ipynb] is embedded function by function.

    Conventions of the embedding.
    - A Python call either returns a value or raises: [res A].
    - numpy integer arrays are lists of [Z]; arithmetic on them wraps to the
      width of their dtype ([wrap]).
    - numpy float64 arrays are lists of real numbers: rounding and overflow
      are not modelled.  Where numpy's handling of a division by zero or of
      the logarithm of zero matters ([indip_model_fields],
      [conservation_1hot]) the special values are kept, in the type [float].
    - Where a float64 sum decides which way the code goes
      ([conservation_1hot], whose implicit frequency [1 - sum] may come out
      negative, and the NaN test of [metropolis]), the array holds binary64
      numbers, [f64], and the sum is computed in binary64 in numpy's order
      of summation; logarithms are taken of the exact values.
    - Sizes (alphabet size [q], lengths, loop bounds) are natural numbers;
      every statement below is about an alphabet size [q >= 1], where the
      natural-number [q - 1] is Python's.
    - numpy's global random generator is an explicit stream, [rng], threaded
      through the samplers. *)

From Stdlib Require Import String Ascii Reals Lra Lia ZArith Bool Arith List.
From Stdlib Require Floats.
Import ListNotations.

(* ===================================================================== *)
(** ** Python outcomes *)
(* ===================================================================== *)

Inductive exn : Type :=
  | TypeError | ValueError | KeyError | IndexError | ZeroDivisionError.

Inductive res (A : Type) : Type :=
  | Ok (a : A)
  | Raise (e : exn).

Arguments Ok {A} a.
Arguments Raise {A} e.

Definition bind {A B : Type} (m : res A) (k : A -> res B) : res B :=
  match m with
  | Ok a => k a
  | Raise e => Raise e
  end.

Notation "x <- m ;; k" := (bind m (fun x => k))
  (at level 61, m at next level, right associativity).
Notation "' pat <- m ;; k" := (bind m (fun x => match x with pat => k end))
  (at level 61, pat pattern, m at next level, right associativity).

(** A list comprehension whose body may raise: the first exception wins. *)
Fixpoint mapM {A B : Type} (f : A -> res B) (l : list A) : res (list B) :=
  match l with
  | [] => Ok []
  | x :: l' => y <- f x ;; ys <- mapM f l' ;; Ok (y :: ys)
  end.

(** [l[x]] on a Python list: negative indices count from the end. *)
Definition list_getitem {A : Type} (l : list A) (x : Z) : res A :=
  let n := Z.of_nat (length l) in
  let k := if (x <? 0)%Z then (x + n)%Z else x in
  if ((0 <=? k) && (k <? n))%Z
  then match nth_error l (Z.to_nat k) with
       | Some a => Ok a
       | None => Raise IndexError
       end
  else Raise IndexError.

(** [l[a:b]] for [0 <= a], [0 <= b]: slices clip to the length. *)
Definition slice {A : Type} (l : list A) (a b : nat) : list A :=
  firstn (b - a) (skipn a l).

(** [l[j] = x] where [j] is known to be in range. *)
Fixpoint set_nth {A : Type} (j : nat) (x : A) (l : list A) {struct l} : list A :=
  match l, j with
  | [], _ => []
  | _ :: l', O => x :: l'
  | y :: l', S j' => y :: set_nth j' x l'
  end.

(* ===================================================================== *)
(** ** Alphabet codec: [seq2num], [num2seq], [seq2occurrence] *)
(* ===================================================================== *)

Definition AAs : list ascii := list_ascii_of_string "-ACDEFGHIKLMNPQRSTVWY".

(** A Python [dict] from symbols to indices; a later binding of a key
    replaces the earlier one. *)
Fixpoint dict_set (d : list (ascii * Z)) (k : ascii) (v : Z) : list (ascii * Z) :=
  match d with
  | [] => [(k, v)]
  | (k', v') :: d' => if Ascii.eqb k' k then (k, v) :: d' else (k', v') :: dict_set d' k v
  end.

Fixpoint dict_get (d : list (ascii * Z)) (k : ascii) : res Z :=
  match d with
  | [] => Raise KeyError
  | (k', v) :: d' => if Ascii.eqb k' k then Ok v else dict_get d' k
  end.

(** [ntdict = {AAs[k]:k for k in range(len(AAs))}] *)
Definition ntdict : list (ascii * Z) :=
  fold_left (fun d k => dict_set d (nth k AAs "-"%char) (Z.of_nat k))
            (seq 0 (length AAs)) [].

(** Integer numpy arrays of one and of two dimensions.  [Arr2 rows] has shape
    [(length rows, n)] with [n] the common length of the rows. *)
Inductive ndarray : Type :=
  | Arr1 (v : list Z)
  | Arr2 (rows : list (list Z)).

(** The two argument types [seq2num] dispatches on. *)
Inductive seq_arg : Type :=
  | PyStr (s : string)
  | PyList (l : list string).

(** [np.array(rows, dtype=np.int16)] on a list of lists: ragged input is
    refused, the empty list gives the one-dimensional empty array. *)
Definition np_array (rows : list (list Z)) : res ndarray :=
  match rows with
  | [] => Ok (Arr1 [])
  | r :: rs =>
      if forallb (fun r' => length r' =? length r) rs
      then Ok (Arr2 rows) else Raise ValueError
  end.

Definition encode_str (s : string) : res (list Z) :=
  mapM (dict_get ntdict) (list_ascii_of_string s).

Definition seq2num (seq : seq_arg) : res ndarray :=
  match seq with
  | PyStr s => row <- encode_str s ;; Ok (Arr2 [row])   (* [np.newaxis,:] *)
  | PyList l => rows <- mapM encode_str l ;; np_array rows
  end.

(** What [num2seq] may be handed: a Python list of integers, or an array. *)
Inductive num_arg : Type :=
  | NumList (l : list Z)
  | NumArr (a : ndarray).

(** [''.join([AAs[x] for x in num])].  Iterating a two-dimensional array
    yields its rows, and a Python list cannot be indexed by an array. *)
Definition num2seq (num : num_arg) : res string :=
  match num with
  | NumList l | NumArr (Arr1 l) =>
      cs <- mapM (list_getitem AAs) l ;; Ok (string_of_list_ascii cs)
  | NumArr (Arr2 []) => Ok EmptyString
  | NumArr (Arr2 (_ :: _)) => Raise TypeError
  end.

(** [M[:, i]] *)
Definition column (M : list (list Z)) (i : nat) : list Z :=
  map (fun r => nth i r 0%Z) M.

(** [M[:, j] = col] *)
Definition set_col (M : list (list Z)) (j : nat) (col : list Z) : list (list Z) :=
  map (fun rc => set_nth j (snd rc) (fst rc)) (combine M col).

(** [seqs[:, i] == a], stored in an integer array. *)
Definition eq_mask (col : list Z) (a : nat) : list Z :=
  map (fun x => if (x =? Z.of_nat a)%Z then 1%Z else 0%Z) col.

Definition seq2occurrence (seqs_AA : seq_arg) (q_true : nat) : res (list (list Z)) :=
  seqs <- seq2num seqs_AA ;;
  match seqs with
  | Arr1 _ => Raise IndexError                            (* seqs.shape[1] *)
  | Arr2 rows =>
      let B := length rows in
      let N := length (hd [] rows) in
      let q_gauge := q_true - 1 in
      let msa_exp := repeat (repeat 0%Z (N * q_gauge)) B in
      Ok (fold_left
            (fun M i =>
               fold_left
                 (fun M' a => set_col M' (i * q_gauge + a) (eq_mask (column rows i) a))
                 (seq 0 q_gauge) M)
            (seq 0 N) msa_exp)
  end.


(* ===================================================================== *)
(** ** Numbers and arrays *)
(* ===================================================================== *)

(** A float64 result that may be one of the IEEE special values. *)
Inductive float : Type :=
  | Fin (x : R)
  | PInf
  | NInf
  | NaN.

Definition float_add (a b : float) : float :=
  match a, b with
  | NaN, _ | _, NaN => NaN
  | PInf, NInf | NInf, PInf => NaN
  | PInf, _ | _, PInf => PInf
  | NInf, _ | _, NInf => NInf
  | Fin x, Fin y => Fin (x + y)
  end.

Definition is_finite (x : float) : bool :=
  match x with Fin _ => true | _ => false end.

(** [np.sum] of a float64 array that may hold special values. *)
Definition np_sum_float (v : list float) : float :=
  fold_left float_add v (Fin 0).

(** [x / y] on finite float64 operands, numpy's default error state: a zero
    divisor gives [inf], [-inf] or [nan] and a warning, never an exception. *)
Definition np_divide (x y : R) : float :=
  if Req_EM_T y 0
  then if Req_EM_T x 0 then NaN else if Rlt_dec 0 x then PInf else NInf
  else Fin (x / y).

(** [np.log]: [-inf] at zero and [nan] below, again with a warning only. *)
Definition np_log (v : float) : float :=
  match v with
  | Fin x => if Rlt_dec 0 x then Fin (ln x)
             else if Req_EM_T x 0 then NInf else NaN
  | PInf => PInf
  | NInf => NaN
  | NaN => NaN
  end.

(** The logarithm to base 2 of a positive real number. *)
Definition log2 (x : R) : R := ln x / ln 2.

(** [np.log2]: [-inf] at zero and [nan] below, with a warning only. *)
Definition np_log2 (v : float) : float :=
  match v with
  | Fin x => if Rlt_dec 0 x then Fin (log2 x)
             else if Req_EM_T x 0 then NInf else NaN
  | PInf => PInf
  | NInf => NaN
  | NaN => NaN
  end.

(** [x * y] on float64 results: [0 * inf] is [nan]. *)
Definition float_mul (a b : float) : float :=
  match a, b with
  | NaN, _ | _, NaN => NaN
  | Fin x, Fin y => Fin (x * y)
  | Fin x, PInf | PInf, Fin x =>
      if Req_EM_T x 0 then NaN else if Rlt_dec 0 x then PInf else NInf
  | Fin x, NInf | NInf, Fin x =>
      if Req_EM_T x 0 then NaN else if Rlt_dec 0 x then NInf else PInf
  | PInf, PInf | NInf, NInf => PInf
  | PInf, NInf | NInf, PInf => NInf
  end.

(** [np.sum] of a finite float array. *)
Definition np_sum (v : list R) : R := fold_right Rplus 0%R v.

Definition vdot (u v : list R) : R :=
  np_sum (map (fun xy => (fst xy * snd xy)%R) (combine u v)).

(** [np.dot] of two vectors: the lengths must agree. *)
Definition np_dot_vv (u v : list R) : res R :=
  if length u =? length v then Ok (vdot u v) else Raise ValueError.

(** A two-dimensional float array of shape [(length rows, ncols)]. *)
Record matrix : Type := { ncols : nat; rows : list (list R) }.

Definition wf_matrix (M : matrix) : Prop :=
  Forall (fun r => length r = ncols M) (rows M).

(** [M[i, j]] *)
Definition entry (M : matrix) (i j : nat) : R := nth j (nth i (rows M) []) 0%R.

(** [np.dot] of a matrix and a vector. *)
Definition np_dot_mv (M : matrix) (v : list R) : res (list R) :=
  if ncols M =? length v
  then Ok (map (fun r => vdot r v) (rows M))
  else Raise ValueError.

(** [M[a:b]] *)
Definition row_slice (M : matrix) (a b : nat) : matrix :=
  {| ncols := ncols M; rows := slice (rows M) a b |}.

(** [M[a:b, a:b]] *)
Definition block (M : matrix) (a b : nat) : matrix :=
  {| ncols := Nat.min b (ncols M) - Nat.min a (ncols M);
     rows := map (fun r => slice r a b) (slice (rows M) a b) |}.

(** In-place update of the entries [l[a:b]] (with [a <= b], as at every use). *)
Definition slice_update {A : Type} (f : A -> A) (l : list A) (a b : nat) : list A :=
  firstn a l ++ map f (slice l a b) ++ skipn (a + (b - a)) l.

(** [v[a:b] = x] for a scalar [x] *)
Definition slice_fill {A : Type} (v : list A) (a b : nat) (x : A) : list A :=
  slice_update (fun _ => x) v a b.

(** [M[a:b, a:b] = x] for a scalar [x] *)
Definition block_fill (M : matrix) (a b : nat) (x : R) : matrix :=
  {| ncols := ncols M;
     rows := slice_update (fun r => slice_fill r a b x) (rows M) a b |}.

(** [M[r, c] = x]: an index out of range raises. *)
Definition mat_set (M : matrix) (r c : nat) (x : R) : res matrix :=
  if (r <? length (rows M)) && (c <? ncols M)
  then Ok {| ncols := ncols M;
             rows := set_nth r (set_nth c x (nth r (rows M) [])) (rows M) |}
  else Raise IndexError.

(** A [for] loop whose body may raise. *)
Fixpoint foldM {A B : Type} (f : A -> B -> res A) (l : list B) (a : A) : res A :=
  match l with
  | [] => Ok a
  | x :: l' => a' <- f a x ;; foldM f l' a'
  end.

(** Integer dtypes and their wrap-around. *)
Inductive int_dtype : Type := Int16 | Int32 | Int64.

Definition bits (dt : int_dtype) : Z :=
  match dt with Int16 => 16 | Int32 => 32 | Int64 => 64 end.

Definition wrap (dt : int_dtype) (z : Z) : Z :=
  ((z + 2 ^ (bits dt - 1)) mod 2 ^ bits dt - 2 ^ (bits dt - 1))%Z.

(** [np.int_], the dtype of [np.random.randint] and [np.repeat(0, n)]
    (a C long: 64 bits on Linux and macOS). *)
Definition np_int_ : int_dtype := Int64.

(** [s - s_t] on integer arrays of one dtype; the shapes are equal wherever
    it is used ([s_t] is a copy of [s]), other shapes are refused. *)
Definition np_subtract (dt : int_dtype) (s s_t : list Z) : res (list Z) :=
  if length s =? length s_t
  then Ok (map (fun xy => wrap dt (fst xy - snd xy)) (combine s s_t))
  else Raise ValueError.

(** [s[a:b] = t] for an array [t]: the shapes must agree, except that an
    array of one element is broadcast. *)
Definition set_slice (s : list Z) (a b : nat) (t : list Z) : res (list Z) :=
  let m := length (slice s a b) in
  if m =? length t then Ok (firstn a s ++ t ++ skipn (a + m) s)
  else if length t =? 1 then Ok (slice_fill s a b (hd 0%Z t))
  else Raise ValueError.

(* ===================================================================== *)
(** ** The random generator *)
(* ===================================================================== *)

(** The successive raw draws of numpy's global generator: integers, reduced
    to the requested range by [randint] and [choice], and uniform reals. *)
Record rng : Type := { ints : nat -> nat; unifs : nat -> R }.

Definition next_int (g : rng) : nat * rng :=
  (ints g 0, {| ints := fun k => ints g (S k); unifs := unifs g |}).

Definition next_unif (g : rng) : R * rng :=
  (unifs g 0, {| ints := ints g; unifs := fun k => unifs g (S k) |}).

(** [np.random.randint(high)]: a draw from [0, high); [high <= 0] raises. *)
Definition randint (high : nat) (g : rng) : res (nat * rng) :=
  if high =? 0 then Raise ValueError
  else let (r, g') := next_int g in Ok (r mod high, g').

(** [np.random.randint(high, size=n)] *)
Fixpoint randint_size (high n : nat) (g : rng) : res (list nat * rng) :=
  match n with
  | 0 => Ok ([], g)
  | S n' => ' (x, g1) <- randint high g ;;
            ' (xs, g2) <- randint_size high n' g1 ;;
            Ok (x :: xs, g2)
  end.

(** [np.random.choice(q, p=probs)]: [probs] must have [q] entries; they are
    all positive where it is called, so every index can be drawn. *)
Definition choice (q : nat) (probs : list R) (g : rng) : res (nat * rng) :=
  if (q =? 0) || negb (length probs =? q) then Raise ValueError
  else let (r, g') := next_int g in Ok (r mod q, g').

(* ===================================================================== *)
(** ** Statistics: [conservation_1hot] *)
(* ===================================================================== *)

(** A float64 number, with IEEE 754 binary64 arithmetic. *)
Definition f64 : Set := PrimFloat.float.

(** An integer below [2^53] as a float64 number. *)
Definition f64_of_int (z : Z) : f64 := PrimFloat.of_uint63 (Uint63.of_Z z).

(** The exact value [(-1)^s m 2^e] of a finite float64 number, as a
    fraction. *)
Definition sf_ratio (s : bool) (m : positive) (e : Z) : Z * Z :=
  let n := if s then Z.neg m else Z.pos m in
  if (0 <=? e)%Z then ((n * 2 ^ e)%Z, 1%Z) else (n, (2 ^ (- e))%Z).

Definition sf_value (s : bool) (m : positive) (e : Z) : R :=
  let (n, d) := sf_ratio s m e in (IZR n / IZR d)%R.

(** A float64 number as a result value: its exact value, or the special
    value it is. *)
Definition of_f64 (x : f64) : float :=
  match FloatOps.Prim2SF x with
  | SpecFloat.S754_zero _ => Fin 0
  | SpecFloat.S754_infinity s => if s then NInf else PInf
  | SpecFloat.S754_nan => NaN
  | SpecFloat.S754_finite s m e => Fin (sf_value s m e)
  end.

(** [x != 0] *)
Definition f64_nonzero (x : f64) : bool := negb (PrimFloat.eqb x PrimFloat.zero).

(** numpy's pairwise summation of a contiguous run of float64 numbers: a
    plain loop below 8 elements; up to 128 elements eight running sums over
    the chunks of 8, added as a tree, then the remainder one by one; above,
    the two halves (the first a multiple of 8) summed recursively. *)
Definition sum_sequential (res : f64) (l : list f64) : f64 :=
  fold_left PrimFloat.add l res.

Fixpoint add_chunks (r l : list f64) (chunks : nat) : list f64 * list f64 :=
  match chunks with
  | 0 => (r, l)
  | S c => add_chunks (map (fun xy => PrimFloat.add (fst xy) (snd xy))
                           (combine r (firstn 8 l)))
                      (skipn 8 l) c
  end.

Definition sum_unrolled (l : list f64) : f64 :=
  let (r, rest) := add_chunks (firstn 8 l) (skipn 8 l) (length l / 8 - 1) in
  let r_ := fun j => nth j r PrimFloat.zero in
  let res :=
    PrimFloat.add
      (PrimFloat.add (PrimFloat.add (r_ 0) (r_ 1)) (PrimFloat.add (r_ 2) (r_ 3)))
      (PrimFloat.add (PrimFloat.add (r_ 4) (r_ 5)) (PrimFloat.add (r_ 6) (r_ 7))) in
  sum_sequential res rest.

(** [fuel] bounds the depth of the recursion; the length of the run is
    always enough ([pairwise_sum_fuel]). *)
Fixpoint pairwise_sum (fuel : nat) (l : list f64) : f64 :=
  let n := length l in
  if n <? 8 then sum_sequential PrimFloat.zero l
  else if n <=? 128 then sum_unrolled l
  else match fuel with
       | 0 => sum_unrolled l
       | S k => let n2 := n / 2 - (n / 2) mod 8 in
                PrimFloat.add (pairwise_sum k (firstn n2 l))
                              (pairwise_sum k (skipn n2 l))
       end.

(** [np.sum] of a row of a float64 array: the reduction starts from the
    identity [0.0]. *)
Definition np_sum_f64 (l : list f64) : f64 :=
  PrimFloat.add PrimFloat.zero (pairwise_sum (length l) l).

Fixpoint reshape_rows {A : Type} (v : list A) (n w : nat) : list (list A) :=
  match n with
  | 0 => []
  | S n' => firstn w v :: reshape_rows (skipn w v) n' w
  end.

(** [v.reshape(n, w)] *)
Definition np_reshape {A : Type} (v : list A) (n w : nat) : res (list (list A)) :=
  if n * w =? length v then Ok (reshape_rows v n w) else Raise ValueError.

(** [conservation_1hot].  [lastAA_freqs] is computed in float64; [ff] keeps
    the entries that are not zero; the terms [x * np.log2(x)] and their sum
    are taken over the exact values. *)
Definition conservation_1hot (freqs : list f64) (q : nat) : res (list float) :=
  if q - 1 =? 0 then Raise ZeroDivisionError else
  reshaped_freqs <- np_reshape freqs (length freqs / (q - 1)) (q - 1) ;;
  let lastAA_freqs :=
    map (fun f => PrimFloat.sub PrimFloat.one (np_sum_f64 f)) reshaped_freqs in
  Ok (map (fun flf =>
             let f := fst flf in
             let lf := snd flf in
             let ff := filter f64_nonzero f in
             let terms := map (fun x => float_mul (of_f64 x) (np_log2 (of_f64 x))) ff in
             if f64_nonzero lf
             then float_add (float_add (np_log2 (Fin (INR q))) (np_sum_float terms))
                            (float_mul (of_f64 lf) (np_log2 (of_f64 lf)))
             else float_add (np_log2 (Fin (INR q))) (np_sum_float terms))
          (combine reshaped_freqs lastAA_freqs)).

(* ===================================================================== *)
(** ** Independent-site model *)
(* ===================================================================== *)

Definition indip_model_fields (freqs : list R) (alpha : R) (q : nat) : res (list float) :=
  if q - 1 =? 0 then Raise ZeroDivisionError else
  let L := length freqs / (q - 1) in
  let pc_freqs := map (fun f => (f * (1 - alpha) + alpha / INR q)%R) freqs in
  let freq_gauge :=
    fold_left
      (fun fg i =>
         slice_fill fg (i * (q - 1)) ((i + 1) * (q - 1))
                    (1 - np_sum (slice pc_freqs (i * (q - 1)) ((i + 1) * (q - 1))))%R)
      (seq 0 L) (repeat 0%R (length pc_freqs)) in
  Ok (map (fun xy => np_log (np_divide (fst xy) (snd xy))) (combine pc_freqs freq_gauge)).

(** The categorical distribution of one position: [exp(beta * field)] for the
    explicit symbols and 1 for the implicit one, normalised. *)
Definition site_probs (beta : R) (block_fields : list R) : list R :=
  let freqs := map (fun h => exp (beta * h)) block_fields ++ [1%R] in
  map (fun f => (f / np_sum freqs)%R) freqs.

Definition sample_data_indip (fields : list R) (beta : R) (q : nat) (g : rng)
  : res (list R * rng) :=
  if q - 1 =? 0 then Raise ZeroDivisionError else
  let L := length fields / (q - 1) in
  foldM (fun (st : list R * rng) i =>
           let (new_data, g0) := st in
           let freqs := site_probs beta (slice fields (i * (q - 1)) ((i + 1) * (q - 1))) in
           ' (a, g1) <- choice q freqs g0 ;;
           if negb (a =? q - 1)
           then Ok (set_nth (i * (q - 1) + a) 1%R new_data, g1)
           else Ok (new_data, g1))
        (seq 0 L) (repeat 0%R (length fields), g).

(* ===================================================================== *)
(** ** Gaussian pairwise model *)
(* ===================================================================== *)

Definition bm_energy (jcoupling_gauss : matrix) (ave_freqs seq : list R) : res R :=
  h <- np_dot_mv jcoupling_gauss ave_freqs ;;
  d1 <- np_dot_vv h seq ;;
  let ener1 := (- d1)%R in
  js <- np_dot_mv jcoupling_gauss seq ;;
  d2 <- np_dot_vv seq js ;;
  let ener2 := (d2 / 2)%R in
  Ok (- (ener1 + ener2))%R.

Definition add_pseudocounts (corr_mat : matrix) (freqs : list R) (alpha : R) (q_true : nat)
  : res (list R * matrix) :=
  let q_gauge := q_true - 1 in
  if q_gauge =? 0 then Raise ZeroDivisionError else
  let N := length freqs / q_gauge in
  let f_pseudo := map (fun f => ((1 - alpha) * f + alpha / INR q_true)%R) freqs in
  let c_pseudo0 :=
    {| ncols := ncols corr_mat;
       rows := map (map (fun c => ((1 - alpha) * c + alpha / (INR q_true ^ 2))%R))
                   (rows corr_mat) |} in
  c_pseudo <-
    foldM (fun c i =>
             foldM (fun c' a =>
                      mat_set c' (i * q_gauge + a) (i * q_gauge + a)
                              (nth (i * q_gauge + a) f_pseudo 0%R))
                   (seq 0 q_gauge)
                   (block_fill c (i * q_gauge) ((i + 1) * q_gauge) 0%R))
          (seq 0 N) c_pseudo0 ;;
  Ok (f_pseudo, c_pseudo).

(** The energy difference of the Metropolis step, as its loop body computes
    it from the current state [s] and the proposed state [s_t]. *)
Definition energy_diff (jcoupl : matrix) (p : list R) (q_true pos_t : nat)
    (dt : int_dtype) (s s_t : list Z) : res R :=
  let a := pos_t * (q_true - 1) in
  let b := (pos_t + 1) * (q_true - 1) in
  h <- np_dot_mv (row_slice jcoupl a b) p ;;
  diff <- np_subtract dt s s_t ;;
  d1 <- np_dot_vv (map IZR (slice diff a b)) h ;;
  let delta_h := (- d1)%R in
  let jcoupl_diag := block jcoupl a b in
  jcoupl_marginal <- np_dot_mv (row_slice jcoupl a b) (map IZR s) ;;
  let delta_seq := map IZR (slice diff a b) in
  delta_coupl1 <- np_dot_vv delta_seq jcoupl_marginal ;;
  jd <- np_dot_mv jcoupl_diag delta_seq ;;
  d2 <- np_dot_vv delta_seq jd ;;
  let delta_coupl2 := (- (1 / 2) * d2)%R in
  Ok (delta_h + delta_coupl1 + delta_coupl2)%R.

(** The proposed one-hot block for the drawn symbol [t_n]. *)
Definition proposal_block (q_true t_n : nat) : list Z :=
  let t_1hot := repeat 0%Z (q_true - 1) in
  if t_n =? q_true - 1 then t_1hot else set_nth t_n 1%Z t_1hot.

(** One iteration of the loop of [metropolis]. *)
Definition metropolis_step (jcoupl : matrix) (p : list R) (beta : R) (q_true : nat)
    (dt : int_dtype) (st : list Z * rng) : res (list Z * rng) :=
  let (s, g) := st in
  if q_true - 1 =? 0 then Raise ZeroDivisionError else
  ' (pos_t, g1) <- randint (length p / (q_true - 1)) g ;;
  ' (t_n, g2) <- randint q_true g1 ;;
  let t_1hot := proposal_block q_true t_n in
  s_t <- set_slice s (pos_t * (q_true - 1)) ((pos_t + 1) * (q_true - 1)) t_1hot ;;
  e <- energy_diff jcoupl p q_true pos_t dt s s_t ;;
  let prob := Rmin 1 (exp (- beta * e)) in
  let (x, g3) := next_unif g2 in
  Ok (if Rlt_dec x prob then s_t else s, g3).

Fixpoint metropolis_loop (Nsteps : nat) (jcoupl : matrix) (p : list R) (beta : R)
    (q_true : nat) (dt : int_dtype) (st : list Z * rng) : res (list Z * rng) :=
  match Nsteps with
  | 0 => Ok st
  | S k => st' <- metropolis_step jcoupl p beta q_true dt st ;;
           metropolis_loop k jcoupl p beta q_true dt st'
  end.

(** The [start_conf] argument: the default [np.nan], [None], a Python
    [str], a Python list of [str] (a sequence in letter form), an integer
    array or a float array. *)
Inductive start_arg : Type :=
  | StartNaN
  | StartNone
  | StartStr (s : string)
  | StartStrs (l : list string)
  | StartInts (dt : int_dtype) (v : list Z)
  | StartFloats (v : list f64).

(** What [metropolis] returns: the final state, or the integer of its early
    [return 1]. *)
Inductive retval : Type :=
  | RetState (dt : int_dtype) (s : list Z)
  | RetInt (z : Z).

Definition start_message : string :=
  "Please use starting configuration in numeric form or use None for random start.".

(** [np.isnan(np.sum(start_conf))].  Text has no sum that [np.isnan]
    accepts: [np.sum] of a [str] or of a non-empty list of [str] raises
    [TypeError], and [np.sum(None)] is [None], on which [np.isnan] raises
    [TypeError].  The empty list is the empty float array, of sum [0.0].
    The sum of a float array is its float64 sum. *)
Definition start_is_nan (start_conf : start_arg) : res bool :=
  match start_conf with
  | StartNaN => Ok true
  | StartNone => Raise TypeError
  | StartStr _ => Raise TypeError
  | StartStrs [] => Ok false
  | StartStrs (_ :: _) => Raise TypeError
  | StartInts _ _ => Ok false
  | StartFloats v => Ok (PrimFloat.is_nan (np_sum_f64 v))
  end.

(** [type(start_conf[0]) != np.int32]; indexing an empty array raises. *)
Definition first_not_int32 (start_conf : start_arg) : res bool :=
  match start_conf with
  | StartNaN | StartNone => Raise TypeError    (* a scalar, [None]: no [0] *)
  | StartStr EmptyString | StartStrs []
  | StartInts _ [] | StartFloats [] => Raise IndexError
  | StartInts Int32 (_ :: _) => Ok false
  | StartInts _ (_ :: _) => Ok true
  | StartFloats (_ :: _) => Ok true
  | StartStr (String _ _) | StartStrs (_ :: _) => Ok true
  end.

(** The block "prepare initial config": [None] stands for the early return. *)
Definition initial_config (p : list R) (start_conf : start_arg) (g : rng)
  : res (option (int_dtype * list Z * rng)) :=
  let L := length p in
  nan <- start_is_nan start_conf ;;
  if nan then
    ' (s, g') <- randint_size 1 L g ;;
    Ok (Some (np_int_, map Z.of_nat s, g'))
  else
    bad <- first_not_int32 start_conf ;;
    if bad then Ok None
    else match start_conf with
         | StartInts dt v => Ok (Some (dt, v, g))      (* [s = start_conf] *)
         | _ => Ok None             (* not reached: only an int32 array passes *)
         end.

(** [metropolis]: the printed lines and the returned value. *)
Definition metropolis (jcoupl : matrix) (p : list R) (Nsteps : nat) (beta : R)
    (q_true : nat) (start_conf : start_arg) (g : rng) : res (list string * retval) :=
  init <- initial_config p start_conf g ;;
  match init with
  | None => Ok ([start_message], RetInt 1)
  | Some (dt, s, g') =>
      ' (s', _) <- metropolis_loop Nsteps jcoupl p beta q_true dt (s, g') ;;
      Ok ([], RetState dt s')
  end.

(** The energy as the specification writes it: both terms negated. *)
Definition spec_energy (J : matrix) (f s : list R) : R :=
  (- (vdot (map (fun r => vdot r f) (rows J)) s
      + (1 / 2) * vdot s (map (fun r => vdot r s) (rows J))))%R.

(** Sums over an index range. *)
Fixpoint Rsum (n : nat) (f : nat -> R) : R :=
  match n with
  | 0 => 0%R
  | S k => (Rsum k f + f k)%R
  end.

(** The bilinear form [X . (J Y)] over indices below [n]. *)
Definition bilin (n : nat) (J : nat -> nat -> R) (X Y : nat -> R) : R :=
  Rsum n (fun i => (X i * Rsum n (fun j => (J i j * Y j)%R))%R).

(** A string over the 21-symbol alphabet. *)
Definition over_alphabet (s : string) : Prop :=
  Forall (fun c => In c AAs) (list_ascii_of_string s).

(** A start configuration whose entries are not [np.int32]. *)
Definition invalid_start_type (c : start_arg) : Prop :=
  match c with
  | StartNaN | StartNone => False
  | StartStr _ | StartStrs _ => True
  | StartInts dt _ => dt <> Int32
  | StartFloats _ => True
  end.

Definition start_length (c : start_arg) : nat :=
  match c with
  | StartNaN | StartNone => 0
  | StartStr s => String.length s
  | StartStrs l => length l
  | StartInts _ v => length v
  | StartFloats v => length v
  end.

(** A start configuration in letter form: a [str] or a list of [str]. *)
Definition text_start (c : start_arg) : Prop :=
  match c with
  | StartStr _ | StartStrs _ => True
  | _ => False
  end.

(** The regularised frequency [(1 - alpha) f + alpha / q]. *)
Definition regularized (alpha : R) (q : nat) (f : R) : R :=
  ((1 - alpha) * f + alpha / INR q)%R.

(** The sum of the explicit block of position [i], and the frequency of the
    implicit last symbol there. *)
Definition block_sum (f : list R) (qg i : nat) : R :=
  np_sum (slice f (i * qg) ((i + 1) * qg)).

Definition implicit_freq (f : list R) (qg i : nat) : R :=
  (1 - block_sum f qg i)%R.

(** A gauge-fixed frequency vector: entries in [0,1], every explicit block
    summing to at most 1. *)
Definition valid_freqs (q : nat) (f : list R) : Prop :=
  Forall (fun x => (0 <= x <= 1)%R) f /\
  forall i, i < length f / (q - 1) -> (block_sum f (q - 1) i <= 1)%R.


(** [x log2 x] with the convention [0 log2 0 = 0]. *)
Definition xlog2x (x : R) : R :=
  if Req_EM_T x 0 then 0%R else (x * log2 x)%R.

(** The exact value of a finite float64 number. *)
Definition f64_val (x : f64) : R :=
  match of_f64 x with Fin r => r | _ => 0%R end.

Definition f64_finite (x : f64) : Prop := is_finite (of_f64 x) = true.

(** [lastAA_freqs[i]] as [conservation_1hot] computes it: one minus the
    float64 sum of block [i]. *)
Definition lastAA_freq (freqs : list f64) (qg i : nat) : f64 :=
  PrimFloat.sub PrimFloat.one (np_sum_f64 (slice freqs (i * qg) ((i + 1) * qg))).

(** The conservation of position [i] in exact arithmetic: [log2 q] plus the
    sum of [x log2 x] over the [q] symbols, the implicit one included. *)
Definition site_conservation (f : list R) (q i : nat) : R :=
  (log2 (INR q)
   + np_sum (map xlog2x (slice f (i * (q - 1)) ((i + 1) * (q - 1))))
   + xlog2x (implicit_freq f (q - 1) i))%R.

(** The frequency vector [np.array([3, 7, 4, 13, 1] + 15 * [0]) / 28] of one
    position with [q = 21]. *)
Definition rounded_freqs : list f64 :=
  map (fun k => PrimFloat.div (f64_of_int k) (f64_of_int 28)) [3; 7; 4; 13; 1]%Z
  ++ repeat PrimFloat.zero 15.

(** The frequency of symbol [a] at position [i]: the explicit ones for
    [a < qg], the implicit last symbol for [a = qg]. *)
Definition symbol_freq (f : list R) (qg i a : nat) : R :=
  if a <? qg then nth (i * qg + a) f 0%R else implicit_freq f qg i.

(** One symbol of position [i] has frequency 1 and all the others 0. *)
Definition concentrated_at (f : list R) (qg i : nat) : Prop :=
  exists a, a <= qg /\ symbol_freq f qg i a = 1%R /\
            forall b, b <= qg -> b <> a -> symbol_freq f qg i b = 0%R.

(** Every one of the [qg + 1] symbols of position [i] has frequency
    [1 / (qg + 1)]. *)
Definition uniform_at (f : list R) (qg i : nat) : Prop :=
  forall a, a <= qg -> symbol_freq f qg i a = (1 / INR (qg + 1))%R.

(** The one-hot block invariant of an occurrence vector: every block of
    [qg] entries holds at most one entry equal to [one]. *)
Definition one_hot_blocks {A : Type} (eq_dec : forall x y : A, {x = y} + {x <> y})
    (one : A) (qg : nat) (v : list A) : Prop :=
  forall i, count_occ eq_dec (slice v (i * qg) ((i + 1) * qg)) one <= 1.

(** A generator whose raw draws are all zero. *)
Definition zero_rng : rng := {| ints := fun _ => 0; unifs := fun _ => 0%R |}.

(* ===================================================================== *)
(** ** Sequence I/O: [read_fasta] *)
(* ===================================================================== *)

(** Whitespace in the sense of [str.rstrip()], on code points below 256. *)
Definition is_space (c : ascii) : bool :=
  let n := nat_of_ascii c in
  ((9 <=? n) && (n <=? 13)) || ((28 <=? n) && (n <=? 32)) || (n =? 133) || (n =? 160).

(** [s.rstrip()] *)
Fixpoint rstrip (s : string) : string :=
  match s with
  | EmptyString => EmptyString
  | String c s' =>
      match rstrip s' with
      | EmptyString => if is_space c then EmptyString else String c EmptyString
      | r => String c r
      end
  end.

(** The body of the loop of [read_fasta] on the state
    [(seqs, labels, t_s)]; [t_l[0]] raises on an empty stripped line. *)
Definition read_fasta_line (st : list string * list string * string) (l : string)
  : res (list string * list string * string) :=
  let '(seqs, labels, t_s) := st in
  let t_l := rstrip l in
  match t_l with
  | EmptyString => Raise IndexError
  | String c rest =>
      if Ascii.eqb c ">"
      then Ok (if 0 <? String.length t_s then seqs ++ [t_s] else seqs,
               labels ++ [rest], EmptyString)
      else Ok (seqs, labels, (t_s ++ t_l)%string)
  end.

(** [read_fasta] on the lines [f.readlines()] returns; opening the file is
    not modelled. *)
Definition read_fasta (lines : list string) : res (list string * list string) :=
  ' (seqs, labels, t_s) <- foldM read_fasta_line lines ([], [], EmptyString) ;;
  Ok (labels, seqs ++ [t_s]).

(** A FASTA record, label and the lines of its sequence, and the lines of a
    file holding a list of records. *)
Definition record_lines (r : string * list string) : list string :=
  (String ">" (fst r) ++ String "010" EmptyString)%string
  :: map (fun c => (c ++ String "010" EmptyString)%string) (snd r).

Definition record_seq (r : string * list string) : string :=
  fold_right String.append EmptyString (snd r).

(** A line of sequence text as [read_fasta] expects it: not empty, not
    starting with the header marker, without trailing whitespace. *)
Definition sequence_line (c : string) : Prop :=
  rstrip c = c /\
  match c with
  | EmptyString => False
  | String a _ => a <> ">"%char
  end.

Definition well_formed_record (r : string * list string) : Prop :=
  rstrip (fst r) = fst r /\ snd r <> [] /\ Forall sequence_line (snd r).

(* ===================================================================== *)
(** ** Decoding an occurrence vector: [seq_from_1hot_gauged] *)
(* ===================================================================== *)

(** The first index at which a boolean mask holds. *)
Fixpoint first_true (w : list bool) : nat :=
  match w with
  | [] => 0
  | true :: _ => 0
  | false :: w' => S (first_true w')
  end.

(** [seq_from_1hot_gauged]: the printed lines and the decoded string.  The
    test [t_piece == 1] is the parameter [is_one], so that integer and float
    vectors are both covered. *)
Definition seq_from_1hot_gauged {A : Type} (is_one : A -> bool) (seq1hot : list A)
    (q_true : nat) : res (list string * string) :=
  if q_true - 1 =? 0 then Raise ZeroDivisionError else
  let '(out, seq2num') :=
    fold_left
      (fun (st : list string * list Z) i =>
         let t_piece := slice seq1hot (i * (q_true - 1)) ((i + 1) * (q_true - 1)) in
         let where_ := map is_one t_piece in
         let n := length (filter (fun b : bool => b) where_) in
         if n =? 0 then (fst st, snd st ++ [Z.of_nat (q_true - 1)])
         else if n =? 1 then (fst st, snd st ++ [Z.of_nat (first_true where_)])
         else (fst st ++ ["problem!"%string], snd st))
      (seq 0 (length seq1hot / (q_true - 1))) ([], []) in
  s <- num2seq (NumList seq2num') ;;
  Ok (out, s).

(** [x == 1] on integers and on floats. *)
Definition is_one_Z (x : Z) : bool := (x =? 1)%Z.
Definition is_one_R (x : R) : bool := if Req_EM_T x 1 then true else false.

(* ===================================================================== *)
(** ** Energies and correlations *)
(* ===================================================================== *)

(** The [seqs] argument of [energy_indip_model]: one occurrence vector or a
    matrix of them; and the value returned, a number or a vector. *)
Inductive seqs_arg : Type :=
  | OneSeq (v : list R)
  | ManySeqs (M : matrix).

Inductive energy_val : Type :=
  | Energy (e : R)
  | Energies (es : list R).

Definition energy_indip_model (fields : list R) (seqs : seqs_arg) : res energy_val :=
  match seqs with
  | OneSeq v => d <- np_dot_vv v fields ;; Ok (Energy (- d)%R)
  | ManySeqs M => d <- np_dot_mv M fields ;; Ok (Energies (map Ropp d))
  end.

(** A two-dimensional integer array of shape [(length irows, icols)]. *)
Record int_matrix : Type := { icols : nat; irows : list (list Z) }.

(** [compute_correlation_matrix]: the entries of [np.dot(xt, x) / M]; with no
    data point the division is 0/0.  The conversion to [np.float32] is exact
    on integer data of this size; the quotient is taken over the reals, its
    rounding is not modelled. *)
Definition compute_correlation_matrix (data_points : int_matrix) : list (list float) :=
  let M := length (irows data_points) in
  let x := map (map IZR) (irows data_points) in
  let xt := fun j => map (fun r => nth j r 0%R) x in
  map (fun j => map (fun k => np_divide (vdot (xt j) (xt k)) (INR M))
                    (seq 0 (icols data_points)))
      (seq 0 (icols data_points)).

(** numpy's broadcasting of one dimension. *)
Definition broadcast_dim (a b : nat) : res nat :=
  if a =? b then Ok a
  else if a =? 1 then Ok b
  else if b =? 1 then Ok a
  else Raise ValueError.

(** [corr_mat - np.outer(freqs, freqs)], with broadcasting. *)
Definition connect_correlation (corr_mat : matrix) (freqs : list R) : res matrix :=
  let n := length freqs in
  nr <- broadcast_dim (length (rows corr_mat)) n ;;
  nc <- broadcast_dim (ncols corr_mat) n ;;
  let pick := fun (len i : nat) => if len =? 1 then 0 else i in
  Ok {| ncols := nc;
        rows := map (fun i =>
                       map (fun j =>
                              (entry corr_mat (pick (length (rows corr_mat)) i)
                                              (pick (ncols corr_mat) j)
                               - nth (pick n i) freqs 0 * nth (pick n j) freqs 0)%R)
                           (seq 0 nc))
                    (seq 0 nr) |}.

Definition flatten_correlation_matrix (corr : matrix) (q : nat) : res (list R) :=
  if q - 1 =? 0 then Raise ZeroDivisionError else
  let L := length (rows corr) / (q - 1) in
  Ok (fold_left
        (fun flatten i =>
           fold_left
             (fun fl a => fl ++ skipn ((i + 1) * (q - 1))
                                      (nth (i * (q - 1) + a) (rows corr) []))
             (seq 0 (q - 1)) flatten)
        (seq 0 L) []).

(** A header line: its stripped text starts with the marker. *)
Definition is_header (l : string) : bool :=
  match rstrip l with
  | String c _ => Ascii.eqb c ">"
  | EmptyString => false
  end.

(** Some character of the argument is outside the alphabet. *)
Definition unknown_symbol_in (s : string) : Prop :=
  Exists (fun c => ~ In c AAs) (list_ascii_of_string s).

Definition has_unknown_symbol (seq : seq_arg) : Prop :=
  match seq with
  | PyStr s => unknown_symbol_in s
  | PyList l => Exists unknown_symbol_in l
  end.

(** The symbol a code in [[-21, 21)] decodes to: negative codes count from
    the end of the alphabet. *)
Definition decode_symbol (x : Z) : ascii :=
  nth (Z.to_nat (x mod 21)) AAs "-"%char.

(** A data matrix of binary occurrence variables, as
    [compute_correlation_matrix] expects it. *)
Definition binary_data (D : int_matrix) : Prop :=
  Forall (fun r => length r = icols D /\ Forall (fun x => x = 0%Z \/ x = 1%Z) r)
         (irows D).

(** The number of data points in which columns [j] and [k] are both set. *)
Definition pair_count (D : int_matrix) (j k : nat) : nat :=
  length (filter (fun r => is_one_Z (nth j r 0%Z) && is_one_Z (nth k r 0%Z)) (irows D)).

(** [c[j, k]] in a matrix of float results. *)
Definition fentry (C : list (list float)) (j k : nat) : float :=
  nth k (nth j C []) NaN.

(** The number of encoded sequences with symbol [a] at position [i] and
    symbol [b] at position [j]. *)
Definition code_pair_count (codes : list (list Z)) (i a j b : nat) : nat :=
  length (filter (fun r => (nth i r 0 =? Z.of_nat a)%Z && (nth j r 0 =? Z.of_nat b)%Z)
                 codes).

(** The fields of the symbols an occurrence vector has set. *)
Definition selected_fields (fields seq : list R) : list R :=
  map snd (filter (fun xh => is_one_R (fst xh)) (combine seq fields)).

(** The number of entries equal to 1 in block [i] of an integer vector. *)
Definition block_ones (v : list Z) (qg i : nat) : nat :=
  count_occ Z.eq_dec (slice v (i * qg) ((i + 1) * qg)) 1%Z.

(** The code spelled by a block with at most one 1: the place of its 1, or
    the last symbol when it has none. *)
Definition block_code (v : list Z) (qg i : nat) : Z :=
  if block_ones v qg i =? 0 then Z.of_nat qg
  else Z.of_nat (first_true (map is_one_Z (slice v (i * qg) ((i + 1) * qg)))).

(* ===================================================================== *)
(** * Properties *)
(* ===================================================================== *)

(** ** The codec *)

Lemma alphabet_roundtrip (c : ascii) :
  In c AAs -> exists k, dict_get ntdict c = Ok k /\ list_getitem AAs k = Ok c.
Proof.
  unfold AAs; simpl.
  intros H.
  repeat (destruct H as [<- | H]; [eexists; split; reflexivity |]).
  contradiction.
Qed.

Lemma encode_decode_chars (cs : list ascii) :
  Forall (fun c => In c AAs) cs ->
  exists row, mapM (dict_get ntdict) cs = Ok row /\
              mapM (list_getitem AAs) row = Ok cs.
Proof.
  induction 1 as [| c cs Hc _ (row & Hrow & Hback)].
  - exists []. split; reflexivity.
  - destruct (alphabet_roundtrip c Hc) as (k & Hk & Hget).
    exists (k :: row). split.
    + cbn [mapM]. rewrite Hk. cbn [bind]. rewrite Hrow. reflexivity.
    + cbn [mapM]. rewrite Hget. cbn [bind]. rewrite Hback. reflexivity.
Qed.

(** C6: [num2seq(seq2num(s))] does not give [s] back.  For every sequence
    [s] over the alphabet [seq2num s] is the two-dimensional array with the
    single row of codes, and [num2seq] raises [TypeError] on it; the round
    trip holds only for that row, [num2seq(seq2num(s)[0]) = s]. *)
Theorem num2seq_seq2num_type_error (s : string) :
  over_alphabet s ->
  (a <- seq2num (PyStr s) ;; num2seq (NumArr a)) = Raise TypeError /\
  exists row, seq2num (PyStr s) = Ok (Arr2 [row]) /\
              num2seq (NumArr (Arr1 row)) = Ok s /\
              num2seq (NumList row) = Ok s.
Proof.
  intros Hs.
  destruct (encode_decode_chars _ Hs) as (row & Henc & Hdec).
  unfold seq2num, encode_str. rewrite Henc. cbn [bind num2seq].
  split; [reflexivity |].
  exists row. rewrite Hdec. cbn [bind].
  rewrite string_of_list_ascii_of_string. auto.
Qed.

Lemma num2seq_seq2num_type_error_witness :
  (a <- seq2num (PyStr "AC") ;; num2seq (NumArr a)) = Raise TypeError /\
  exists row, seq2num (PyStr "AC") = Ok (Arr2 [row]) /\
              num2seq (NumArr (Arr1 row)) = Ok "AC"%string /\
              num2seq (NumList row) = Ok "AC"%string.
Proof.
  apply (num2seq_seq2num_type_error "AC").
  unfold over_alphabet, AAs. simpl. repeat constructor; simpl; tauto.
Defined.

(** ** The start configuration of [metropolis] *)

Lemma randint_size_one (n : nat) (g : rng) :
  exists g', randint_size 1 n g = Ok (repeat 0 n, g').
Proof.
  revert g. induction n as [| n IH]; intros g.
  - exists g. reflexivity.
  - cbn [randint_size]. unfold randint at 1. cbn [Nat.eqb next_int bind].
    destruct (IH {| ints := fun k => ints g (S k); unifs := unifs g |}) as (g' & Hg').
    rewrite Hg'. cbn [bind]. exists g'.
    rewrite Nat.mod_1_r. reflexivity.
Qed.

Lemma initial_config_default (p : list R) (g : rng) :
  exists g', initial_config p StartNaN g
             = Ok (Some (np_int_, repeat 0%Z (length p), g')).
Proof.
  unfold initial_config. cbn [start_is_nan bind].
  destruct (randint_size_one (length p) g) as (g' & Hg').
  rewrite Hg'. cbn [bind]. exists g'.
  rewrite map_repeat. reflexivity.
Qed.

(** C10: with the default [start_conf] the chain starts from the all-zero
    occurrence vector of length [len(p)], whatever the random generator
    draws; with [Nsteps = 0] that vector is what [metropolis] returns. *)
Theorem metropolis_default_start_all_zero
    (jcoupl : matrix) (p : list R) (beta : R) (q_true : nat) (g : rng) :
  (exists g', initial_config p StartNaN g
              = Ok (Some (np_int_, repeat 0%Z (length p), g'))) /\
  metropolis jcoupl p 0 beta q_true StartNaN g
  = Ok ([], RetState np_int_ (repeat 0%Z (length p))).
Proof.
  split; [apply initial_config_default |].
  unfold metropolis.
  destruct (initial_config_default p g) as (g' & ->).
  reflexivity.
Qed.

Lemma metropolis_nan_sum_is_default
    (jcoupl : matrix) (p : list R) (Nsteps : nat) (beta : R) (q_true : nat)
    (start_conf : start_arg) (g : rng) :
  start_is_nan start_conf = Ok true ->
  metropolis jcoupl p Nsteps beta q_true start_conf g
  = metropolis jcoupl p Nsteps beta q_true StartNaN g.
Proof.
  intros H. unfold metropolis, initial_config. rewrite H. reflexivity.
Qed.

(** [None], which the message of the guard recommends for a random start,
    is not accepted: [np.isnan(None)] raises. *)
Lemma metropolis_none_start
    (jcoupl : matrix) (p : list R) (Nsteps : nat) (beta : R) (q_true : nat) (g : rng) :
  metropolis jcoupl p Nsteps beta q_true StartNone g = Raise TypeError.
Proof. reflexivity. Qed.

(** One step from the default start on a one-position model: the proposal
    is accepted with probability 1. *)
Lemma metropolis_example_run :
  metropolis {| ncols := 1; rows := [[0%R]] |} [0%R] 1 1 2 StartNaN zero_rng
  = Ok ([], RetState np_int_ [1%Z]).
Proof.
  unfold metropolis, initial_config.
  cbn [start_is_nan].
  cbn [length randint_size]. unfold randint.
  cbn [Nat.eqb next_int zero_rng ints unifs bind Nat.modulo Nat.divmod fst snd
       map Z.of_nat].
  cbn [metropolis_loop]. unfold metropolis_step.
  cbn -[Rlt_dec Rmin exp IZR Rmult Rplus Ropp Rdiv Rinv].
  match goal with
  | |- context [exp ?e] => replace e with 0%R by lra
  end.
  rewrite exp_0, Rmin_left by lra.
  destruct (Rlt_dec 0 1) as [_ | H]; [reflexivity | exfalso; lra].
Qed.

(** C9, as the code has it, for a non-empty start configuration whose
    entries are not [np.int32].  If it is in letter form (a [str] or a list
    of [str]), [np.isnan(np.sum(start_conf))] raises [TypeError] before the
    guard is reached.  If it is a numeric array whose sum is not NaN, the
    guard prints its message and [metropolis] returns the integer 1, raising
    nothing and before any sampling step, for every number of steps and
    every generator. *)
Theorem metropolis_invalid_start
    (jcoupl : matrix) (p : list R) (Nsteps : nat) (beta : R) (q_true : nat)
    (start_conf : start_arg) (g : rng) :
  invalid_start_type start_conf ->
  0 < start_length start_conf ->
  (text_start start_conf ->
   metropolis jcoupl p Nsteps beta q_true start_conf g = Raise TypeError) /\
  (start_is_nan start_conf = Ok false ->
   metropolis jcoupl p Nsteps beta q_true start_conf g
   = Ok ([start_message], RetInt 1)).
Proof.
  intros Hty Hlen. split.
  - intros Htext.
    destruct start_conf as [| | s | l | dt v | v]; cbn in Htext, Hlen;
      try contradiction.
    + reflexivity.
    + destruct l as [| x l]; [inversion Hlen | reflexivity].
  - intros Hnan. unfold metropolis, initial_config. rewrite Hnan. cbn [bind].
    destruct start_conf as [| | s | l | dt v | v]; cbn in Hty, Hlen, Hnan;
      try contradiction; try discriminate.
    + destruct l as [| x l]; [inversion Hlen | discriminate].
    + destruct v as [| x v]; [inversion Hlen |].
      destruct dt; try reflexivity. contradiction Hty. reflexivity.
    + destruct v as [| x v]; [inversion Hlen |]. reflexivity.
Qed.

(** The string ["ACD"] and the float array [[0.]], on the one-position model
    [J = [[0.]]], [p = [0.]] with [q_true = 2]. *)
Lemma metropolis_invalid_start_witness :
  metropolis {| ncols := 1; rows := [[0%R]] |} [0%R] 5 1 2
             (StartStr "ACD") zero_rng
  = Raise TypeError /\
  metropolis {| ncols := 1; rows := [[0%R]] |} [0%R] 5 1 2
             (StartFloats [PrimFloat.zero]) zero_rng
  = Ok ([start_message], RetInt 1).
Proof.
  split.
  - apply (metropolis_invalid_start
             {| ncols := 1; rows := [[0%R]] |} [0%R] 5 1%R 2
             (StartStr "ACD") zero_rng).
    + exact I.
    + simpl. lia.
    + exact I.
  - apply (metropolis_invalid_start
             {| ncols := 1; rows := [[0%R]] |} [0%R] 5 1%R 2
             (StartFloats [PrimFloat.zero]) zero_rng).
    + exact I.
    + simpl. lia.
    + reflexivity.
Defined.

(** C9 as stated fails: the integer array [np.array([0])], whose entries are
    [np.int64] and not the required [np.int32], raises no error: the call
    returns normally, and what it returns is the integer 1. *)
Lemma metropolis_int64_start_returns_one :
  invalid_start_type (StartInts Int64 [0%Z]) /\
  metropolis {| ncols := 1; rows := [[0%R]] |} [0%R] 1 1 2
             (StartInts Int64 [0%Z]) zero_rng
  = Ok ([start_message], RetInt 1).
Proof. split; [discriminate | reflexivity]. Qed.

(** The float64 sum is NaN also where no entry is: [2^1023 + 2^1023]
    overflows to [inf], and [inf + (-inf)] is NaN. *)
Lemma start_is_nan_overflow :
  start_is_nan (StartFloats [FloatOps.Z.ldexp PrimFloat.one 1023;
                             FloatOps.Z.ldexp PrimFloat.one 1023;
                             PrimFloat.neg_infinity])
  = Ok true.
Proof. vm_compute. reflexivity. Qed.

(** The guard is not reached by a numeric array whose sum is NaN, which
    passes for the default [np.nan]: the float array [[nan]] is sampled from
    like no start configuration at all, where its sibling [[0.]] is
    refused. *)
Lemma metropolis_nan_start_keeps_sampling :
  metropolis {| ncols := 1; rows := [[0%R]] |} [0%R] 1 1 2
             (StartFloats [PrimFloat.nan]) zero_rng
  = Ok ([], RetState np_int_ [1%Z]).
Proof.
  rewrite metropolis_nan_sum_is_default by reflexivity.
  exact metropolis_example_run.
Qed.

(** ** Sums and dot products *)

Local Open Scope R_scope.

Lemma Rsum_ext (n : nat) (f g : nat -> R) :
  (forall i, (i < n)%nat -> f i = g i) -> Rsum n f = Rsum n g.
Proof.
  induction n as [| n IH]; intros H; cbn [Rsum]; [reflexivity |].
  rewrite IH, H by auto with arith. reflexivity.
Qed.

Lemma Rsum_shift (n : nat) (f : nat -> R) :
  Rsum (S n) f = f 0%nat + Rsum n (fun i => f (S i)).
Proof.
  induction n as [| n IH].
  - cbn. ring.
  - change (Rsum (S (S n)) f) with (Rsum (S n) f + f (S n)).
    rewrite IH. cbn [Rsum]. ring.
Qed.

Lemma Rsum_plus (n : nat) (f g : nat -> R) :
  Rsum n (fun i => f i + g i) = Rsum n f + Rsum n g.
Proof. induction n as [| n IH]; cbn [Rsum]; [| rewrite IH]; ring. Qed.

Lemma Rsum_scal (n : nat) (c : R) (f : nat -> R) :
  Rsum n (fun i => c * f i) = c * Rsum n f.
Proof. induction n as [| n IH]; cbn [Rsum]; [| rewrite IH]; ring. Qed.

Lemma Rsum_zero (n : nat) (f : nat -> R) :
  (forall i, (i < n)%nat -> f i = 0) -> Rsum n f = 0.
Proof.
  induction n as [| n IH]; intros H; cbn [Rsum]; [reflexivity |].
  rewrite IH, H by auto with arith. ring.
Qed.

Lemma Rsum_swap (n m : nat) (f : nat -> nat -> R) :
  Rsum n (fun i => Rsum m (fun j => f i j))
  = Rsum m (fun j => Rsum n (fun i => f i j)).
Proof.
  induction n as [| n IH]; cbn [Rsum].
  - symmetry. apply Rsum_zero. reflexivity.
  - rewrite IH, <- Rsum_plus. reflexivity.
Qed.

Lemma vdot_nil_l (v : list R) : vdot [] v = 0.
Proof. reflexivity. Qed.

Lemma vdot_cons (x y : R) (u v : list R) :
  vdot (x :: u) (y :: v) = x * y + vdot u v.
Proof. reflexivity. Qed.

Lemma vdot_Rsum (u v : list R) (n : nat) :
  length u = n -> length v = n ->
  vdot u v = Rsum n (fun i => nth i u 0 * nth i v 0).
Proof.
  revert v n. induction u as [| x u IH]; intros v n Hu Hv.
  - subst n. reflexivity.
  - destruct v as [| y v]; [subst n; discriminate |].
    destruct n as [| n]; [discriminate |].
    rewrite vdot_cons, Rsum_shift. cbn [nth].
    rewrite (IH v n) by (cbn in Hu, Hv; lia). reflexivity.
Qed.

Lemma nth_matvec (rs : list (list R)) (v : list R) (i : nat) :
  nth i (map (fun r => vdot r v) rs) 0 = vdot (nth i rs []) v.
Proof.
  change 0 with ((fun r => vdot r v) []) at 1. apply map_nth.
Qed.

Lemma wf_matrix_nth (M : matrix) (i : nat) :
  wf_matrix M -> (i < length (rows M))%nat -> length (nth i (rows M) []) = ncols M.
Proof.
  unfold wf_matrix. rewrite Forall_forall. intros H Hi.
  apply H, nth_In, Hi.
Qed.

(** ** The energy of the Gaussian pairwise model *)

Lemma bm_energy_vdot (J : matrix) (f s : list R) (n : nat) :
  ncols J = n -> length (rows J) = n -> length f = n -> length s = n ->
  bm_energy J f s
  = Ok (vdot (map (fun r => vdot r f) (rows J)) s
        - vdot s (map (fun r => vdot r s) (rows J)) / 2).
Proof.
  intros Hc Hr Hf Hs. unfold bm_energy, np_dot_mv, np_dot_vv.
  repeat (rewrite ?length_map, ?Hc, ?Hr, ?Hf, ?Hs, ?Nat.eqb_refl; cbn [bind]).
  f_equal. field.
Qed.

(** C1, as the code has it: on a square coupling matrix [J] and vectors of
    matching length, [bm_energy J f s] returns
    [(J.f).s - 1/2 s.(J.s)]: the cross term enters with a plus sign and only
    the quadratic term is negated. *)
Theorem bm_energy_formula (J : matrix) (f s : list R) (n : nat) :
  wf_matrix J -> ncols J = n -> length (rows J) = n ->
  length f = n -> length s = n ->
  bm_energy J f s
  = Ok (Rsum n (fun i => Rsum n (fun j => entry J i j * nth j f 0) * nth i s 0)
        - (1 / 2) * Rsum n (fun i => nth i s 0 * Rsum n (fun j => entry J i j * nth j s 0))).
Proof.
  intros Hwf Hc Hr Hf Hs.
  rewrite (bm_energy_vdot J f s n Hc Hr Hf Hs). f_equal.
  rewrite (vdot_Rsum _ s n) by (rewrite ?length_map; assumption).
  rewrite (vdot_Rsum s _ n) by (rewrite ?length_map; assumption).
  assert (Hrow : forall v i, length v = n -> (i < n)%nat ->
            nth i (map (fun r => vdot r v) (rows J)) 0
            = Rsum n (fun j => entry J i j * nth j v 0)).
  { intros v i Hv Hi. rewrite nth_matvec.
    apply vdot_Rsum; [| assumption].
    rewrite wf_matrix_nth by (rewrite ?Hr; assumption). assumption. }
  rewrite (Rsum_ext n _ (fun i => Rsum n (fun j => entry J i j * nth j f 0) * nth i s 0))
    by (intros i Hi; rewrite Hrow by assumption; reflexivity).
  rewrite (Rsum_ext n (fun i => nth i s 0 * _)
                    (fun i => nth i s 0 * Rsum n (fun j => entry J i j * nth j s 0)))
    by (intros i Hi; rewrite Hrow by assumption; reflexivity).
  field.
Qed.

Lemma bm_energy_formula_witness :
  bm_energy {| ncols := 1; rows := [[1]] |} [1] [1]
  = Ok (Rsum 1 (fun i => Rsum 1 (fun j => entry {| ncols := 1; rows := [[1]] |} i j
                                          * nth j [1] 0) * nth i [1] 0)
        - (1 / 2) * Rsum 1 (fun i => nth i [1] 0
                                     * Rsum 1 (fun j => entry {| ncols := 1; rows := [[1]] |} i j
                                                        * nth j [1] 0))).
Proof.
  apply (bm_energy_formula {| ncols := 1; rows := [[1]] |} [1] [1] 1%nat).
  - repeat constructor.
  - reflexivity.
  - reflexivity.
  - reflexivity.
  - reflexivity.
Defined.

(** C1 as stated fails: at [J = [[1]]], [f = [1]], [s = [1]] the code returns
    [1/2] while the formula of the specification gives [-3/2]. *)
Lemma bm_energy_differs_from_spec_energy :
  bm_energy {| ncols := 1; rows := [[1]] |} [1] [1] = Ok (1 / 2) /\
  spec_energy {| ncols := 1; rows := [[1]] |} [1] [1] = - (3 / 2) /\
  bm_energy {| ncols := 1; rows := [[1]] |} [1] [1]
  <> Ok (spec_energy {| ncols := 1; rows := [[1]] |} [1] [1]).
Proof.
  assert (H1 : bm_energy {| ncols := 1; rows := [[1]] |} [1] [1] = Ok (1 / 2)).
  { unfold bm_energy, np_dot_mv, np_dot_vv. cbn. f_equal. lra. }
  assert (H2 : spec_energy {| ncols := 1; rows := [[1]] |} [1] [1] = - (3 / 2)).
  { unfold spec_energy. cbn. lra. }
  repeat split; try assumption.
  rewrite H1, H2. intros H. injection H. lra.
Qed.

Local Close Scope R_scope.

(** ** Lists: indexed views of the array updates *)

Section ListFacts.
Context {A : Type}.
Implicit Types (l : list A) (x d : A) (i j a b : nat).

Lemma nth_as_nth_error l i d :
  nth i l d = match nth_error l i with Some x => x | None => d end.
Proof.
  revert i. induction l as [| y l IH]; intros [| i]; cbn; auto.
Qed.

Lemma length_set_nth j x l : length (set_nth j x l) = length l.
Proof.
  revert j. induction l as [| y l IH]; intros [| j]; cbn; auto.
Qed.

Lemma nth_error_set_nth j x l i :
  nth_error (set_nth j x l) i
  = if (i =? j) && (j <? length l) then Some x else nth_error l i.
Proof.
  revert j i. induction l as [| y l IH]; intros j i.
  - cbn. rewrite andb_false_r. destruct j, i; reflexivity.
  - destruct j as [| j], i as [| i]; cbn [set_nth nth_error]; try reflexivity.
    rewrite IH. reflexivity.
Qed.

Lemma length_slice l a b :
  length (slice l a b) = Nat.min (b - a) (length l - a).
Proof. unfold slice. rewrite length_firstn, length_skipn. reflexivity. Qed.

Lemma nth_error_slice l a b i :
  nth_error (slice l a b) i = if i <? b - a then nth_error l (a + i) else None.
Proof. unfold slice. rewrite nth_error_firstn, nth_error_skipn. reflexivity. Qed.

Lemma length_slice_update (f : A -> A) l a b :
  a <= b -> length (slice_update f l a b) = length l.
Proof.
  intros Hab. unfold slice_update.
  rewrite !length_app, length_map, length_slice, length_firstn, length_skipn.
  lia.
Qed.

Lemma nth_error_slice_update (f : A -> A) l a b i :
  a <= b ->
  nth_error (slice_update f l a b) i
  = if (a <=? i) && (i <? b) then option_map f (nth_error l i) else nth_error l i.
Proof.
  intros Hab. unfold slice_update.
  replace (a + (b - a)) with b by lia.
  destruct (Nat.le_gt_cases (length l) a) as [Hla | Hla].
  - (* the slice lies beyond the end: nothing changes *)
    unfold slice. rewrite firstn_all2, (skipn_all2 (n := a)), (skipn_all2 (n := b)),
      firstn_nil, app_nil_r by lia.
    destruct ((a <=? i) && (i <? b)) eqn:E; [| reflexivity].
    apply andb_prop in E. destruct E as [E _]. apply Nat.leb_le in E.
    assert (Hn : nth_error l i = None) by (apply nth_error_None; lia).
    rewrite Hn. reflexivity.
  - rewrite nth_error_app, length_firstn, Nat.min_l, nth_error_firstn by lia.
    destruct (Nat.ltb_spec i a) as [Hia | Hia].
    + destruct (Nat.leb_spec a i); [lia |]. reflexivity.
    + destruct (Nat.leb_spec a i); [| lia]. cbn [andb].
      rewrite nth_error_app, length_map, length_slice, nth_error_map,
        nth_error_slice, nth_error_skipn.
      destruct (Nat.ltb_spec (i - a) (Nat.min (b - a) (length l - a))) as [H1 | H1].
      * destruct (Nat.ltb_spec (i - a) (b - a)); [| lia].
        destruct (Nat.ltb_spec i b); [| lia].
        replace (a + (i - a)) with i by lia. reflexivity.
      * destruct (Nat.ltb_spec i b) as [Hib | Hib].
        -- assert (Hn : nth_error l i = None) by (apply nth_error_None; lia).
           rewrite Hn. cbn. apply nth_error_None. lia.
        -- destruct (Nat.le_gt_cases b (length l)).
           ++ f_equal. lia.
           ++ assert (Hn : nth_error l i = None) by (apply nth_error_None; lia).
              rewrite Hn. apply nth_error_None. lia.
Qed.

Lemma nth_error_slice_fill l a b x i :
  a <= b ->
  nth_error (slice_fill l a b x) i
  = if (a <=? i) && (i <? b) && (i <? length l) then Some x else nth_error l i.
Proof.
  intros Hab. unfold slice_fill. rewrite nth_error_slice_update by assumption.
  destruct ((a <=? i) && (i <? b)); cbn [andb]; [| reflexivity].
  destruct (Nat.ltb_spec i (length l)) as [Hi | Hi].
  - destruct (nth_error l i) eqn:E; [reflexivity |].
    apply nth_error_None in E. lia.
  - assert (Hn : nth_error l i = None) by (apply nth_error_None; lia).
    rewrite Hn. reflexivity.
Qed.
End ListFacts.

Lemma Forall_nth_error_iff {A : Type} (P : A -> Prop) (l : list A) :
  Forall P l <-> forall i x, nth_error l i = Some x -> P x.
Proof.
  split.
  - intros H i x Hx. rewrite Forall_forall in H. eapply H, nth_error_In, Hx.
  - intros H. apply Forall_forall. intros x Hx.
    apply In_nth_error in Hx. destruct Hx as (i & Hi). eapply H, Hi.
Qed.

(** ** Matrices: entries after the in-place updates *)

Local Open Scope R_scope.

Lemma entry_as_nth_error (M : matrix) (i j : nat) :
  entry M i j
  = match nth_error (rows M) i with
    | Some r => match nth_error r j with Some x => x | None => 0 end
    | None => 0
    end.
Proof.
  unfold entry. rewrite (nth_as_nth_error (rows M)).
  destruct (nth_error (rows M) i) as [r |]; rewrite nth_as_nth_error.
  - reflexivity.
  - destruct j; reflexivity.
Qed.

Lemma mat_set_spec (M : matrix) (r c : nat) (x : R) :
  wf_matrix M -> (r < length (rows M))%nat -> (c < ncols M)%nat ->
  exists M', mat_set M r c x = Ok M' /\
    wf_matrix M' /\ length (rows M') = length (rows M) /\ ncols M' = ncols M /\
    forall i j, entry M' i j = if (i =? r)%nat && (j =? c)%nat then x else entry M i j.
Proof.
  intros Hwf Hr Hc. unfold mat_set.
  destruct (Nat.ltb_spec r (length (rows M))); [| lia].
  destruct (Nat.ltb_spec c (ncols M)); [| lia]. cbn [andb].
  eexists. split; [reflexivity |].
  assert (Hlen : length (nth r (rows M) []) = ncols M) by (apply wf_matrix_nth; assumption).
  repeat split; unfold wf_matrix; cbn [rows ncols].
  - apply Forall_nth_error_iff. intros i row Hi.
    rewrite nth_error_set_nth in Hi.
    destruct ((i =? r)%nat && (r <? length (rows M))%nat).
    + injection Hi as <-. rewrite length_set_nth. exact Hlen.
    + unfold wf_matrix in Hwf. rewrite Forall_nth_error_iff in Hwf. eapply Hwf, Hi.
  - apply length_set_nth.
  - intros i j. rewrite !entry_as_nth_error. cbn [rows].
    rewrite nth_error_set_nth.
    destruct (Nat.eqb_spec i r) as [-> | Hir]; cbn [andb].
    + destruct (Nat.ltb_spec r (length (rows M))); [| lia].
      rewrite nth_error_set_nth, Hlen.
      destruct (Nat.eqb_spec j c) as [-> | Hjc]; cbn [andb].
      * destruct (Nat.ltb_spec c (ncols M)); [reflexivity | lia].
      * rewrite (nth_error_nth' (rows M) []) by assumption. reflexivity.
    + reflexivity.
Qed.

Lemma block_fill_spec (M : matrix) (a b : nat) (x : R) :
  wf_matrix M -> (a <= b)%nat ->
  wf_matrix (block_fill M a b x) /\
  length (rows (block_fill M a b x)) = length (rows M) /\
  ncols (block_fill M a b x) = ncols M /\
  forall i j, (i < length (rows M))%nat -> (j < ncols M)%nat ->
    entry (block_fill M a b x) i j
    = if (a <=? i)%nat && (i <? b)%nat && ((a <=? j)%nat && (j <? b)%nat)
      then x else entry M i j.
Proof.
  intros Hwf Hab. unfold wf_matrix in Hwf. rewrite Forall_nth_error_iff in Hwf.
  repeat split; unfold wf_matrix; cbn [block_fill rows ncols].
  - apply Forall_nth_error_iff. intros i row Hi.
    rewrite nth_error_slice_update in Hi by assumption.
    destruct ((a <=? i)%nat && (i <? b)%nat).
    + destruct (nth_error (rows M) i) as [row0 |] eqn:E; [| discriminate].
      injection Hi as <-. unfold slice_fill.
      rewrite length_slice_update by assumption. eapply Hwf, E.
    + eapply Hwf, Hi.
  - apply length_slice_update. assumption.
  - intros i j Hi Hj. rewrite !entry_as_nth_error. cbn [block_fill rows].
    rewrite nth_error_slice_update by assumption.
    destruct (nth_error (rows M) i) as [row |] eqn:E;
      [| apply nth_error_None in E; lia].
    assert (Hrow : length row = ncols M) by (eapply Hwf, E).
    destruct ((a <=? i)%nat && (i <? b)%nat); cbn [option_map andb]; [| reflexivity].
    rewrite nth_error_slice_fill by assumption.
    rewrite Hrow. destruct (Nat.ltb_spec j (ncols M)); [| lia].
    rewrite andb_true_r.
    destruct ((a <=? j)%nat && (j <? b)%nat); reflexivity.
Qed.

Lemma diagonal_loop_spec (g : nat -> R) (base len : nat) :
  forall (start : nat) (M : matrix),
  wf_matrix M ->
  (base + start + len <= length (rows M))%nat ->
  (base + start + len <= ncols M)%nat ->
  exists M',
    foldM (fun c' a => mat_set c' (base + a) (base + a) (g (base + a)%nat))
          (seq start len) M = Ok M' /\
    wf_matrix M' /\ length (rows M') = length (rows M) /\ ncols M' = ncols M /\
    forall i j,
      entry M' i j
      = if (i =? j)%nat && ((base + start <=? i)%nat && (i <? base + start + len)%nat)
        then g i else entry M i j.
Proof.
  induction len as [| len IH]; intros start M Hwf Hr Hc.
  - exists M. cbn [seq foldM]. repeat split; try assumption.
    intros i j.
    destruct (Nat.leb_spec (base + start) i), (Nat.ltb_spec i (base + start + 0));
      try lia; rewrite ?andb_false_r; reflexivity.
  - cbn [seq foldM].
    destruct (mat_set_spec M (base + start) (base + start) (g (base + start)%nat))
      as (M1 & HM1 & Hwf1 & Hr1 & Hc1 & He1); try assumption; try lia.
    rewrite HM1. cbn [bind].
    destruct (IH (S start) M1) as (M2 & HM2 & Hwf2 & Hr2 & Hc2 & He2);
      try assumption; try lia.
    exists M2. rewrite HM2. repeat split; try assumption; try congruence.
    intros i j. rewrite He2, He1.
    destruct (Nat.eqb_spec i j) as [<- | Hij]; cbn [andb].
    + destruct (Nat.leb_spec (base + S start) i), (Nat.ltb_spec i (base + S start + len)),
        (Nat.leb_spec (base + start) i), (Nat.ltb_spec i (base + start + S len)),
        (Nat.eqb_spec i (base + start));
        cbn [andb]; try lia; try reflexivity.
      subst i. reflexivity.
    + destruct (Nat.eqb_spec i (base + start)), (Nat.eqb_spec j (base + start));
        cbn [andb]; try lia; reflexivity.
Qed.

Lemma in_block_div (qg i r lo hi : nat) :
  (0 < qg)%nat -> lo = (i * qg)%nat -> hi = ((i + 1) * qg)%nat ->
  ((lo <=? r)%nat && (r <? hi)%nat) = (r / qg =? i)%nat.
Proof.
  intros Hq -> ->.
  pose proof (Nat.div_mod_eq r qg) as Hdm.
  pose proof (Nat.mod_upper_bound r qg ltac:(lia)) as Hm.
  destruct (Nat.leb_spec (i * qg) r), (Nat.ltb_spec r ((i + 1) * qg)),
    (Nat.eqb_spec (r / qg) i); cbn [andb]; try reflexivity; exfalso; nia.
Qed.

(** ** [add_pseudocounts]: the repaired diagonal blocks *)

Lemma pseudocount_loop_spec (fp : list R) (qg : nat) :
  (0 < qg)%nat ->
  forall (len start : nat) (c : matrix),
  wf_matrix c ->
  ((start + len) * qg <= length (rows c))%nat ->
  ((start + len) * qg <= ncols c)%nat ->
  exists c',
    foldM (fun c0 i =>
             foldM (fun c1 a => mat_set c1 (i * qg + a) (i * qg + a) (nth (i * qg + a) fp 0))
                   (seq 0 qg) (block_fill c0 (i * qg) ((i + 1) * qg) 0))
          (seq start len) c = Ok c' /\
    wf_matrix c' /\ length (rows c') = length (rows c) /\ ncols c' = ncols c /\
    forall r k, (r < length (rows c))%nat -> (k < ncols c)%nat ->
      entry c' r k
      = if (r / qg =? k / qg)%nat && ((start <=? r / qg)%nat && (r / qg <? start + len)%nat)
        then (if (r =? k)%nat then nth r fp 0 else 0)
        else entry c r k.
Proof.
  intros Hq. induction len as [| len IH]; intros start c Hwf Hr Hc.
  - exists c. cbn [seq foldM]. repeat split; try assumption.
    intros r k _ _.
    destruct (Nat.leb_spec start (r / qg)), (Nat.ltb_spec (r / qg) (start + 0));
      try lia; rewrite ?andb_false_r; reflexivity.
  - cbn [seq foldM].
    destruct (block_fill_spec c (start * qg) ((start + 1) * qg) 0 Hwf ltac:(lia))
      as (Hwf0 & Hr0 & Hc0 & He0).
    destruct (diagonal_loop_spec (fun k => nth k fp 0) (start * qg) qg 0
                (block_fill c (start * qg) ((start + 1) * qg) 0))
      as (c1 & Hc1 & Hwf1 & Hr1 & Hcc1 & He1); try assumption; try lia.
    rewrite Hc1. cbn [bind].
    destruct (IH (S start) c1) as (c2 & Hc2 & Hwf2 & Hr2 & Hcc2 & He2);
      try assumption; try lia.
    exists c2. rewrite Hc2. repeat split; try assumption; try congruence.
    intros r k Hrr Hkk.
    rewrite He2, He1, He0 by lia.
    rewrite (in_block_div qg start r (start * qg + 0) (start * qg + 0 + qg)) by lia.
    rewrite (in_block_div qg start r (start * qg) ((start + 1) * qg)) by lia.
    rewrite (in_block_div qg start k (start * qg) ((start + 1) * qg)) by lia.
    destruct (Nat.eqb_spec r k) as [<- | Hrk].
    + rewrite !Nat.eqb_refl. cbn [andb].
      destruct (Nat.leb_spec (S start) (r / qg)), (Nat.ltb_spec (r / qg) (S start + len)),
        (Nat.leb_spec start (r / qg)), (Nat.ltb_spec (r / qg) (start + S len)),
        (Nat.eqb_spec (r / qg) start);
        cbn [andb]; try lia; reflexivity.
    + cbn [andb].
      destruct (Nat.eqb_spec (r / qg) (k / qg)) as [E | E]; cbn [andb].
      * rewrite <- E.
        destruct (Nat.leb_spec (S start) (r / qg)), (Nat.ltb_spec (r / qg) (S start + len)),
          (Nat.leb_spec start (r / qg)), (Nat.ltb_spec (r / qg) (start + S len)),
          (Nat.eqb_spec (r / qg) start);
          cbn [andb]; try lia; reflexivity.
      * destruct (Nat.eqb_spec (r / qg) start), (Nat.eqb_spec (k / qg) start);
          cbn [andb]; try lia; reflexivity.
Qed.

(** C4: on a correlation matrix of the shape of the frequency vector,
    [add_pseudocounts] returns the regularised frequencies
    [(1 - alpha) f + alpha / q] and a matrix whose self-block of every position
    is zero off the diagonal and carries those regularised frequencies on the
    diagonal. *)
Theorem add_pseudocounts_diagonal_blocks
    (corr_mat : matrix) (freqs : list R) (alpha : R) (q_true : nat) :
  (2 <= q_true)%nat ->
  wf_matrix corr_mat ->
  length (rows corr_mat) = length freqs ->
  ncols corr_mat = length freqs ->
  exists c_pseudo,
    add_pseudocounts corr_mat freqs alpha q_true
    = Ok (map (fun f => (1 - alpha) * f + alpha / INR q_true) freqs, c_pseudo) /\
    length (rows c_pseudo) = length freqs /\ ncols c_pseudo = length freqs /\
    forall i a b,
      (i < length freqs / (q_true - 1))%nat ->
      (a < q_true - 1)%nat -> (b < q_true - 1)%nat ->
      entry c_pseudo (i * (q_true - 1) + a) (i * (q_true - 1) + b)
      = if (a =? b)%nat
        then (1 - alpha) * nth (i * (q_true - 1) + a) freqs 0 + alpha / INR q_true
        else 0.
Proof.
  intros Hq Hwf Hr Hc. unfold add_pseudocounts.
  set (qg := (q_true - 1)%nat). assert (Hqg : (0 < qg)%nat) by (subst qg; lia).
  destruct (Nat.eqb_spec qg 0); [lia |].
  set (fp := map (fun f => (1 - alpha) * f + alpha / INR q_true) freqs).
  set (c0 := {| ncols := ncols corr_mat;
                rows := map (map (fun c => (1 - alpha) * c + alpha / INR q_true ^ 2))
                            (rows corr_mat) |}).
  assert (Hwf0 : wf_matrix c0).
  { unfold wf_matrix in *. cbn [c0 rows ncols]. rewrite Forall_map.
    eapply Forall_impl; [| exact Hwf]. intros r Hrow. rewrite length_map. exact Hrow. }
  assert (Hr0 : length (rows c0) = length freqs) by (cbn [c0 rows]; rewrite length_map; exact Hr).
  assert (Hc0 : ncols c0 = length freqs) by exact Hc.
  pose proof (Nat.Div0.mul_div_le (length freqs) qg) as Hdiv.
  destruct (pseudocount_loop_spec fp qg Hqg (length freqs / qg) 0 c0 Hwf0)
    as (c' & Hloop & Hwf' & Hr' & Hc' & He'); try lia.
  exists c'. rewrite Hloop. cbn [bind].
  repeat split; try congruence.
  intros i a b Hi Ha Hb.
  assert (Hbound : (i * qg + qg <= length freqs)%nat) by nia.
  rewrite He' by lia.
  replace ((i * qg + a) / qg)%nat with i
    by (apply (Nat.div_unique _ qg i a); lia).
  replace ((i * qg + b) / qg)%nat with i
    by (apply (Nat.div_unique _ qg i b); lia).
  rewrite Nat.eqb_refl.
  destruct (Nat.leb_spec 0 i); [| lia].
  destruct (Nat.ltb_spec i (0 + length freqs / qg)); [| lia]. cbn [andb].
  destruct (Nat.eqb_spec a b) as [-> | Hab].
  - rewrite Nat.eqb_refl. subst fp.
    rewrite (nth_indep _ 0 ((1 - alpha) * 0 + alpha / INR q_true))
      by (rewrite length_map; lia).
    rewrite (map_nth (fun f => (1 - alpha) * f + alpha / INR q_true)). reflexivity.
  - destruct (Nat.eqb_spec (i * qg + a) (i * qg + b)); [lia | reflexivity].
Qed.

Lemma add_pseudocounts_diagonal_blocks_witness :
  exists c_pseudo,
    add_pseudocounts {| ncols := 2; rows := [[1; 1]; [1; 1]] |} [1; 0] (1 / 2) 2
    = Ok (map (fun f => (1 - 1 / 2) * f + 1 / 2 / INR 2) [1; 0], c_pseudo) /\
    length (rows c_pseudo) = 2%nat /\ ncols c_pseudo = 2%nat /\
    forall i a b,
      (i < 2 / (2 - 1))%nat -> (a < 2 - 1)%nat -> (b < 2 - 1)%nat ->
      entry c_pseudo (i * (2 - 1) + a) (i * (2 - 1) + b)
      = if (a =? b)%nat
        then (1 - 1 / 2) * nth (i * (2 - 1) + a) [1; 0] 0 + 1 / 2 / INR 2
        else 0.
Proof.
  apply (add_pseudocounts_diagonal_blocks
           {| ncols := 2; rows := [[1; 1]; [1; 1]] |} [1; 0] (1 / 2) 2).
  - lia.
  - repeat constructor.
  - reflexivity.
  - reflexivity.
Defined.

(** ** The independent-site fields *)

Lemma nth_error_combine {A B : Type} (l : list A) (l' : list B) (k : nat) :
  nth_error (combine l l') k
  = match nth_error l k, nth_error l' k with
    | Some x, Some y => Some (x, y)
    | _, _ => None
    end.
Proof.
  revert l' k. induction l as [| x l IH]; intros [| y l'] [| k]; cbn; try reflexivity.
  - destruct (nth_error l k); reflexivity.
  - apply IH.
Qed.

Lemma slice_map {A B : Type} (g : A -> B) (l : list A) (a b : nat) :
  slice (map g l) a b = map g (slice l a b).
Proof. unfold slice. rewrite skipn_map, firstn_map. reflexivity. Qed.

Lemma np_sum_map_affine (c d : R) (l : list R) :
  np_sum (map (fun x => x * c + d) l) = c * np_sum l + INR (length l) * d.
Proof.
  induction l as [| x l IH].
  - cbn. ring.
  - cbn [map np_sum fold_right length]. fold (np_sum (map (fun x => x * c + d) l)).
    fold (np_sum l). rewrite IH, S_INR. ring.
Qed.

Lemma length_full_block {A : Type} (l : list A) (qg i : nat) :
  ((i + 1) * qg <= length l)%nat -> length (slice l (i * qg) ((i + 1) * qg)) = qg.
Proof. intros H. rewrite length_slice. lia. Qed.

Lemma length_slice_fill {A : Type} (l : list A) (a b : nat) (x : A) :
  (a <= b)%nat -> length (slice_fill l a b x) = length l.
Proof. apply length_slice_update. Qed.

Lemma gauge_loop_spec (G : nat -> R) (qg : nat) :
  (0 < qg)%nat ->
  forall (len start : nat) (fg : list R),
  let r := fold_left (fun fg0 i => slice_fill fg0 (i * qg) ((i + 1) * qg) (G i))
                     (seq start len) fg in
  length r = length fg /\
  forall k, (k < length fg)%nat ->
    nth_error r k
    = if (start <=? k / qg)%nat && (k / qg <? start + len)%nat
      then Some (G (k / qg)%nat) else nth_error fg k.
Proof.
  intros Hq. induction len as [| len IH]; intros start fg; cbn zeta.
  - cbn [seq fold_left]. split; [reflexivity |]. intros k _.
    destruct (Nat.leb_spec start (k / qg)), (Nat.ltb_spec (k / qg) (start + 0));
      try lia; reflexivity.
  - cbn [seq fold_left].
    specialize (IH (S start) (slice_fill fg (start * qg) ((start + 1) * qg) (G start))).
    cbn zeta in IH. destruct IH as [IHlen IHnth].
    rewrite length_slice_fill in IHlen, IHnth by lia.
    split; [exact IHlen |]. intros k Hk.
    rewrite IHnth by exact Hk.
    rewrite nth_error_slice_fill by lia.
    rewrite (in_block_div qg start k (start * qg) ((start + 1) * qg)) by lia.
    destruct (Nat.ltb_spec k (length fg)); [| lia]. rewrite andb_true_r.
    destruct (Nat.leb_spec (S start) (k / qg)), (Nat.ltb_spec (k / qg) (S start + len)),
      (Nat.leb_spec start (k / qg)), (Nat.ltb_spec (k / qg) (start + S len)),
      (Nat.eqb_spec (k / qg) start);
      cbn [andb]; try lia; try reflexivity.
    congruence.
Qed.

Lemma indip_model_fields_entry (freqs : list R) (alpha : R) (q : nat) :
  (2 <= q)%nat ->
  exists fields,
    indip_model_fields freqs alpha q = Ok fields /\
    length fields = length freqs /\
    forall i a, (i < length freqs / (q - 1))%nat -> (a < q - 1)%nat ->
      nth_error fields (i * (q - 1) + a)
      = Some (np_log (np_divide
                        (regularized alpha q (nth (i * (q - 1) + a) freqs 0))
                        (regularized alpha q (implicit_freq freqs (q - 1) i)))).
Proof.
  intros Hq. unfold indip_model_fields.
  set (qg := (q - 1)%nat). assert (Hqg : (0 < qg)%nat) by (subst qg; lia).
  destruct (Nat.eqb_spec qg 0); [lia |].
  set (pc := map (fun f => f * (1 - alpha) + alpha / INR q) freqs).
  set (G := fun i : nat => 1 - np_sum (slice pc (i * qg) ((i + 1) * qg))).
  destruct (gauge_loop_spec G qg Hqg (length freqs / qg) 0 (repeat 0 (length pc)))
    as [Hlen Hnth].
  set (fg := fold_left _ _ _) in *.
  eexists. split; [reflexivity |].
  pose proof (Nat.Div0.mul_div_le (length freqs) qg) as Hdiv.
  assert (Hpc : length pc = length freqs) by (subst pc; apply length_map).
  rewrite repeat_length in Hlen, Hnth.
  split.
  - rewrite length_map, length_combine, Hlen, Hpc. apply Nat.min_id.
  - intros i a Hi Ha.
    assert (Hbound : ((i + 1) * qg <= length freqs)%nat) by nia.
    assert (Hdivk : ((i * qg + a) / qg = i)%nat)
      by (symmetry; apply (Nat.div_unique _ qg i a); lia).
    rewrite nth_error_map, nth_error_combine.
    rewrite Hnth by lia. rewrite Hdivk.
    destruct (Nat.leb_spec 0 i); [| lia].
    destruct (Nat.ltb_spec i (0 + length freqs / qg)); [| lia]. cbn [andb].
    subst pc. rewrite nth_error_map.
    rewrite (nth_error_nth' freqs 0) by lia. cbn [option_map fst snd].
    do 3 f_equal.
    + unfold regularized. ring.
    + subst G. cbn beta. rewrite slice_map, np_sum_map_affine.
      rewrite length_full_block by exact Hbound.
      unfold regularized, implicit_freq, block_sum. subst qg.
      rewrite minus_INR by lia. cbn [INR].
      assert (INR q <> 0) by (apply not_0_INR; lia).
      field. assumption.
Qed.

Lemma regularized_pos (alpha : R) (q : nat) (x : R) :
  0 < alpha < 1 -> (0 < q)%nat -> 0 <= x -> 0 < regularized alpha q x.
Proof.
  intros Ha Hq Hx. unfold regularized.
  assert (0 < INR q) by (apply lt_0_INR; assumption).
  assert (0 < alpha / INR q) by (apply Rdiv_lt_0_compat; lra).
  nra.
Qed.


Lemma np_log_divide_pos (x y : R) :
  0 < x -> 0 < y -> np_log (np_divide x y) = Fin (ln x - ln y).
Proof.
  intros Hx Hy. unfold np_divide.
  destruct (Req_EM_T y 0); [lra |]. unfold np_log.
  assert (0 < x / y) by (apply Rdiv_lt_0_compat; assumption).
  destruct (Rlt_dec 0 (x / y)); [| contradiction].
  unfold Rdiv. rewrite ln_mult, ln_Rinv; auto using Rinv_0_lt_compat.
Qed.


Lemma np_log_divide_zero_den (x : R) : is_finite (np_log (np_divide x 0)) = false.
Proof.
  unfold np_divide. destruct (Req_EM_T 0 0); [| contradiction].
  destruct (Req_EM_T x 0); [reflexivity |].
  destruct (Rlt_dec 0 x); reflexivity.
Qed.

Lemma nth_le_np_sum (l : list R) (k : nat) :
  Forall (fun x => 0 <= x) l -> 0 <= nth k l 0 <= np_sum l.
Proof.
  intros H. revert k. induction H as [| x l Hx Hl IH]; intros k.
  - destruct k; cbn; lra.
  - assert (0 <= np_sum l) by (specialize (IH 0%nat); lra).
    destruct k as [| k]; cbn [nth np_sum fold_right]; fold (np_sum l).
    + lra.
    + specialize (IH k). lra.
Qed.

Lemma nth_slice {A : Type} (l : list A) (a b k : nat) (d : A) :
  (k < b - a)%nat -> nth k (slice l a b) d = nth (a + k) l d.
Proof.
  intros Hk. rewrite !nth_as_nth_error, nth_error_slice.
  destruct (Nat.ltb_spec k (b - a)); [reflexivity | lia].
Qed.

Lemma Forall_slice {A : Type} (P : A -> Prop) (l : list A) (a b : nat) :
  Forall P l -> Forall P (slice l a b).
Proof.
  rewrite !Forall_nth_error_iff. intros H i x Hi.
  rewrite nth_error_slice in Hi. destruct (i <? b - a); [| discriminate].
  eapply H, Hi.
Qed.

Lemma block_entry_bounds (f : list R) (qg i a : nat) :
  Forall (fun x => 0 <= x <= 1) f -> (a < qg)%nat ->
  0 <= nth (i * qg + a) f 0 <= block_sum f qg i.
Proof.
  intros Hf Ha. unfold block_sum.
  rewrite <- (nth_slice f (i * qg) ((i + 1) * qg) a 0) by lia.
  apply nth_le_np_sum, Forall_slice.
  eapply Forall_impl; [| exact Hf]. cbn. intros x Hx. lra.
Qed.

(** C3: for a gauge-fixed frequency vector and [0 < alpha < 1], with [q = 21],
    [indip_model_fields] returns, at every position and explicit symbol, the
    finite field [log(f~_symbol) - log(f~_implicit)], where
    [f~ = (1 - alpha) f + alpha / q] is applied to the explicit frequency and
    to the implicit one, 1 minus the sum of the explicit block. *)
Theorem indip_model_fields_log_ratio (freqs : list R) (alpha : R) :
  valid_freqs 21 freqs -> 0 < alpha < 1 ->
  exists fields,
    indip_model_fields freqs alpha 21 = Ok fields /\
    length fields = length freqs /\
    forall i a, (i < length freqs / 20)%nat -> (a < 20)%nat ->
      nth (i * 20 + a) fields NaN
      = Fin (ln (regularized alpha 21 (nth (i * 20 + a) freqs 0))
             - ln (regularized alpha 21 (implicit_freq freqs 20 i))).
Proof.
  intros [Hrange Hblock] Halpha.
  destruct (indip_model_fields_entry freqs alpha 21 ltac:(lia))
    as (fields & Hok & Hlen & Hentry).
  change (21 - 1)%nat with 20%nat in *.
  exists fields. repeat split; try assumption.
  intros i a Hi Ha.
  rewrite nth_as_nth_error, (Hentry i a Hi Ha).
  pose proof (block_entry_bounds freqs 20 i a Hrange Ha) as Hb.
  specialize (Hblock i Hi).
  apply np_log_divide_pos; apply regularized_pos; try lia; try lra.
  unfold implicit_freq. lra.
Qed.

Lemma indip_model_fields_log_ratio_witness :
  exists fields,
    indip_model_fields (repeat (1 / 21) 20) (1 / 100) 21 = Ok fields /\
    length fields = length (repeat (1 / 21) 20) /\
    forall i a, (i < length (repeat (1 / 21) 20) / 20)%nat -> (a < 20)%nat ->
      nth (i * 20 + a) fields NaN
      = Fin (ln (regularized (1 / 100) 21 (nth (i * 20 + a) (repeat (1 / 21) 20) 0))
             - ln (regularized (1 / 100) 21 (implicit_freq (repeat (1 / 21) 20) 20 i))).
Proof.
  apply (indip_model_fields_log_ratio (repeat (1 / 21) 20) (1 / 100)).
  - split.
    + apply Forall_forall. intros x Hx. apply repeat_spec in Hx. subst x. lra.
    + intros i Hi. cbn in Hi.
      assert (i = 0%nat) by lia. subst i.
      unfold block_sum. cbn. lra.
  - lra.
Defined.





(** ** Conservation *)

Lemma nth_error_reshape_rows {A : Type} (w : nat) :
  forall (n : nat) (v : list A) (i : nat),
  nth_error (reshape_rows v n w) i
  = if (i <? n)%nat then Some (slice v (i * w) ((i + 1) * w)) else None.
Proof.
  induction n as [| n IH]; intros v i.
  - destruct i; reflexivity.
  - destruct i as [| i]; cbn [reshape_rows nth_error].
    + unfold slice. cbn [Nat.mul Nat.add skipn]. rewrite Nat.add_0_r, Nat.sub_0_r.
      reflexivity.
    + rewrite IH. change (S i <? S n)%nat with (i <? n)%nat.
      destruct (i <? n)%nat; [| reflexivity].
      f_equal. unfold slice. rewrite skipn_skipn. f_equal; [lia | f_equal; lia].
Qed.

Lemma length_reshape_rows {A : Type} (w n : nat) (v : list A) :
  length (reshape_rows v n w) = n.
Proof. revert v. induction n as [| n IH]; intros v; cbn; [| rewrite IH]; reflexivity. Qed.

Lemma np_sum_cons (x : R) (l : list R) : np_sum (x :: l) = x + np_sum l.
Proof. reflexivity. Qed.

Lemma ln_le_minus_1 (x : R) : 0 < x -> ln x <= x - 1.
Proof.
  intros Hx. pose proof (exp_ineq1_le (ln x)) as H.
  rewrite exp_ln in H by assumption. lra.
Qed.

Lemma ln2_pos : 0 < ln 2.
Proof. pose proof ln_lt_2. lra. Qed.

Lemma xlog2x_nonpos (x : R) : 0 <= x <= 1 -> xlog2x x <= 0.
Proof.
  intros Hx. unfold xlog2x. destruct (Req_EM_T x 0); [lra |].
  assert (Hln : ln x <= 0).
  { destruct (Req_dec x 1) as [-> | Hne]; [rewrite ln_1; lra |].
    rewrite <- ln_1. left. apply ln_increasing; lra. }
  unfold log2. pose proof ln2_pos as H2.
  assert (ln x / ln 2 <= 0).
  { unfold Rdiv. assert (0 < / ln 2) by (apply Rinv_0_lt_compat; assumption). nra. }
  nra.
Qed.

(** The pointwise form of Gibbs' inequality. *)
Lemma xlog2x_lower (c x : R) :
  0 < c -> 0 <= x -> (x * (1 - ln c) - / c) / ln 2 <= xlog2x x.
Proof.
  intros Hc Hx. pose proof ln2_pos as H2.
  assert (Hic : 0 < / c) by (apply Rinv_0_lt_compat; assumption).
  assert (Hi2 : 0 < / ln 2) by (apply Rinv_0_lt_compat; assumption).
  unfold xlog2x. destruct (Req_EM_T x 0) as [-> | Hne].
  - unfold Rdiv. nra.
  - assert (Hxp : 0 < x) by lra.
    assert (Hix : 0 < / x) by (apply Rinv_0_lt_compat; assumption).
    assert (Hpos : 0 < / c * / x) by nra.
    pose proof (ln_le_minus_1 (/ c * / x) Hpos) as H.
    rewrite ln_mult, !ln_Rinv in H by assumption.
    assert (Hm : x * (- ln c + - ln x) <= x * (/ c * / x - 1)) by nra.
    replace (x * (/ c * / x - 1)) with (/ c - x) in Hm by (field; lra).
    unfold log2, Rdiv.
    replace (x * (ln x * / ln 2)) with ((x * ln x) * / ln 2) by ring.
    apply Rmult_le_compat_r; [lra |]. nra.
Qed.

Lemma np_sum_map_le (g h : R -> R) (l : list R) :
  Forall (fun x => g x <= h x) l -> np_sum (map g l) <= np_sum (map h l).
Proof.
  induction 1 as [| x l Hx _ IH]; cbn [map np_sum fold_right]; [lra |].
  fold (np_sum (map g l)) (np_sum (map h l)). lra.
Qed.

Lemma np_sum_map_const (g : R -> R) (c v : R) (l : list R) :
  Forall (fun x => g x = v) l -> np_sum (map g l) = INR (length l) * v.
Proof.
  induction 1 as [| x l Hx _ IH].
  - cbn. ring.
  - cbn [map np_sum fold_right length]. fold (np_sum (map g l)).
    rewrite IH, Hx, S_INR. ring.
Qed.

Lemma Forall_block {A : Type} (P : A -> Prop) (f : list A) (d : A) (qg i : nat) :
  ((i + 1) * qg <= length f)%nat ->
  (forall a, (a < qg)%nat -> P (nth (i * qg + a) f d)) ->
  Forall P (slice f (i * qg) ((i + 1) * qg)).
Proof.
  intros Hlen H. apply Forall_nth_error_iff. intros k x Hk.
  rewrite nth_error_slice in Hk.
  destruct (Nat.ltb_spec k ((i + 1) * qg - i * qg)); [| discriminate].
  specialize (H k ltac:(lia)).
  rewrite nth_as_nth_error, Hk in H. exact H.
Qed.

Lemma xlog2x_0 : xlog2x 0 = 0.
Proof. unfold xlog2x. destruct (Req_EM_T 0 0); [reflexivity | contradiction]. Qed.

Lemma xlog2x_1 : xlog2x 1 = 0.
Proof.
  unfold xlog2x, log2. destruct (Req_EM_T 1 0); [reflexivity |].
  rewrite ln_1. unfold Rdiv. ring.
Qed.

Lemma xlog2x_inv (q : nat) :
  (0 < q)%nat -> xlog2x (1 / INR q) = - (log2 (INR q) / INR q).
Proof.
  intros Hq. assert (H : 0 < INR q) by (apply lt_0_INR; assumption).
  assert (Hi : 0 < / INR q) by (apply Rinv_0_lt_compat; assumption).
  unfold xlog2x. destruct (Req_EM_T (1 / INR q) 0) as [E | _].
  - unfold Rdiv in E. lra.
  - unfold log2, Rdiv. rewrite Rmult_1_l, ln_Rinv by assumption.
    pose proof ln2_pos. field. split; lra.
Qed.

Lemma xlog2x_lower_affine (c x : R) :
  0 < c -> 0 <= x ->
  x * ((1 - ln c) / ln 2) + - (/ c / ln 2) <= xlog2x x.
Proof.
  intros Hc Hx. pose proof (xlog2x_lower c x Hc Hx) as H.
  replace (x * ((1 - ln c) / ln 2) + - (/ c / ln 2))
    with ((x * (1 - ln c) - / c) / ln 2); [exact H |].
  pose proof ln2_pos. field. lra.
Qed.

Lemma np_sum_nonneg (l : list R) : Forall (fun x => 0 <= x) l -> 0 <= np_sum l.
Proof. intros H. pose proof (nth_le_np_sum l 0 H). lra. Qed.

Lemma xlog2x_zero_inv (x : R) : 0 <= x <= 1 -> xlog2x x = 0 -> x = 0 \/ x = 1.
Proof.
  intros Hx. unfold xlog2x. destruct (Req_EM_T x 0) as [-> | Hne]; [auto |].
  intros H. right.
  assert (Hlog : log2 x = 0) by (apply Rmult_integral in H; tauto).
  unfold log2, Rdiv in Hlog. pose proof ln2_pos as H2.
  assert (Hln : ln x = 0).
  { apply Rmult_integral in Hlog. destruct Hlog as [E | E]; [exact E |].
    assert (0 < / ln 2) by (apply Rinv_0_lt_compat; exact H2). lra. }
  apply ln_inv; [lra | lra |]. rewrite ln_1. exact Hln.
Qed.

Lemma np_sum_nonpos_zero (g : R -> R) (l : list R) :
  Forall (fun x => g x <= 0) l -> np_sum (map g l) = 0 -> Forall (fun x => g x = 0) l.
Proof.
  induction 1 as [| x l Hx Hl IH]; intros Hsum; [constructor |].
  cbn [map] in Hsum. rewrite np_sum_cons in Hsum.
  assert (Hle : np_sum (map g l) <= 0).
  { clear -Hl. induction Hl as [| y l Hy _ IH]; [cbn; lra |].
    cbn [map]. rewrite np_sum_cons. lra. }
  constructor; [lra | apply IH; lra].
Qed.

Lemma zero_sum_all_zero (l : list R) (k : nat) :
  Forall (fun x => 0 <= x) l -> np_sum l = 0 -> nth k l 0 = 0.
Proof. intros Hl Hs. pose proof (nth_le_np_sum l k Hl). lra. Qed.

(** Among entries that are 0 or 1 and sum to 1, exactly one is 1. *)
Lemma unit_sum_single_one (l : list R) :
  Forall (fun x => x = 0 \/ x = 1) l -> np_sum l = 1 ->
  exists a, (a < length l)%nat /\ nth a l 0 = 1 /\
            forall b, b <> a -> nth b l 0 = 0.
Proof.
  induction 1 as [| x l Hx Hl IH]; intros Hsum; [cbn in Hsum; lra |].
  rewrite np_sum_cons in Hsum.
  assert (Hnn : Forall (fun y => 0 <= y) l)
    by (eapply Forall_impl; [| exact Hl]; cbn; intros y [-> | ->]; lra).
  destruct Hx as [-> | ->].
  - destruct IH as (a & Ha & Ha1 & Hrest); [lra |].
    exists (S a). cbn [length nth]. repeat split; [lia | exact Ha1 |].
    intros [| b] Hb; [reflexivity |]. cbn [nth]. apply Hrest. lia.
  - exists 0%nat. cbn [length nth]. repeat split; [lia |].
    intros [| b] Hb; [contradiction |]. cbn [nth].
    apply zero_sum_all_zero; [exact Hnn | lra].
Qed.

(** Zero entropy forces all the mass of a position on one symbol. *)
Lemma zero_entropy_concentrated (f : list R) (qg i : nat) :
  ((i + 1) * qg <= length f)%nat ->
  Forall (fun x => 0 <= x <= 1) f ->
  block_sum f qg i <= 1 ->
  np_sum (map xlog2x (slice f (i * qg) ((i + 1) * qg))) + xlog2x (implicit_freq f qg i) = 0 ->
  concentrated_at f qg i.
Proof.
  intros Hfull Hf Hsum Hzero. unfold implicit_freq, block_sum in *.
  set (B := slice f (i * qg) ((i + 1) * qg)) in *.
  assert (HBlen : length B = qg) by (apply length_full_block, Hfull).
  assert (HB : Forall (fun x => 0 <= x <= 1) B) by (apply Forall_slice, Hf).
  assert (HBnn : Forall (fun x => 0 <= x) B)
    by (eapply Forall_impl; [| exact HB]; cbn; intros; lra).
  pose proof (np_sum_nonneg B HBnn) as HSnn.
  assert (HBle : Forall (fun x => xlog2x x <= 0) B)
    by (eapply Forall_impl; [| exact HB]; cbn; intros x Hx; apply xlog2x_nonpos, Hx).
  assert (Hsumle : np_sum (map xlog2x B) <= 0).
  { pose proof (np_sum_map_le xlog2x (fun _ => 0) B HBle) as H.
    rewrite (np_sum_map_const (fun _ => 0) 0 0) in H by (apply Forall_forall; reflexivity).
    lra. }
  pose proof (xlog2x_nonpos (1 - np_sum B) ltac:(lra)) as Hlfle.
  assert (HB0 : Forall (fun x => xlog2x x = 0) B) by (apply np_sum_nonpos_zero; [exact HBle | lra]).
  assert (HB01 : Forall (fun x => x = 0 \/ x = 1) B).
  { rewrite Forall_forall in HB, HB0 |- *. intros x Hx.
    apply xlog2x_zero_inv; auto. }
  assert (Hnth : forall b, (b < qg)%nat -> nth (i * qg + b) f 0 = nth b B 0)
    by (intros b Hb; subst B; rewrite nth_slice by lia; reflexivity).
  destruct (xlog2x_zero_inv (1 - np_sum B) ltac:(lra) ltac:(lra)) as [Hlf | Hlf].
  - (* the implicit symbol has frequency 0: one explicit symbol has frequency 1 *)
    destruct (unit_sum_single_one B HB01 ltac:(lra)) as (a & Ha & Ha1 & Hrest).
    exists a. unfold symbol_freq. split; [lia |].
    destruct (Nat.ltb_spec a qg); [| lia]. split; [rewrite Hnth by lia; exact Ha1 |].
    intros b Hb Hne. destruct (Nat.ltb_spec b qg).
    + rewrite Hnth by lia. apply Hrest, Hne.
    + unfold implicit_freq, block_sum. fold B. exact Hlf.
  - (* the implicit symbol has frequency 1 *)
    exists qg. unfold symbol_freq. rewrite Nat.ltb_irrefl.
    split; [lia |]. split; [unfold implicit_freq, block_sum; fold B; exact Hlf |].
    intros b Hb Hne. destruct (Nat.ltb_spec b qg); [| lia].
    rewrite Hnth by lia. apply zero_sum_all_zero; [exact HBnn | lra].
Qed.

(** In exact arithmetic the conservation of a position of a gauge-fixed
    frequency vector lies in [[0, log2 q]], is [log2 q] exactly where one
    symbol carries all the mass, and is 0 where the position is uniform. *)
Lemma site_conservation_bounds (freqs : list R) (q L i : nat) :
  (2 <= q)%nat -> length freqs = (L * (q - 1))%nat -> valid_freqs q freqs ->
  (i < L)%nat ->
  0 <= site_conservation freqs q i <= log2 (INR q) /\
  (site_conservation freqs q i = log2 (INR q) <-> concentrated_at freqs (q - 1) i) /\
  (uniform_at freqs (q - 1) i -> site_conservation freqs q i = 0).
Proof.
  intros Hq Hlen [Hrange Hblock] Hi. unfold site_conservation.
  set (qg := (q - 1)%nat) in *. assert (Hqg : (0 < qg)%nat) by (subst qg; lia).
  assert (HLd : (length freqs / qg = L)%nat) by (rewrite Hlen; apply Nat.div_mul; lia).
  assert (Hfull : ((i + 1) * qg <= length freqs)%nat) by nia.
  set (B := slice freqs (i * qg) ((i + 1) * qg)).
  assert (HBlen : length B = qg) by (apply length_full_block, Hfull).
  assert (HB : Forall (fun x => 0 <= x <= 1) B) by (apply Forall_slice, Hrange).
  assert (HBnn : Forall (fun x => 0 <= x) B)
    by (eapply Forall_impl; [| exact HB]; cbn; intros; lra).
  pose proof (np_sum_nonneg B HBnn) as HSnn.
  specialize (Hblock i ltac:(lia)).
  unfold implicit_freq, block_sum in *. fold B in Hblock |- *.
  set (Sb := np_sum B) in *. set (lf := 1 - Sb).
  assert (Hlf : 0 <= lf <= 1) by (subst lf; lra).
  assert (HqR : 0 < INR q) by (apply lt_0_INR; lia).
  assert (HqgR : INR qg = INR q - 1)
    by (subst qg; rewrite minus_INR by lia; reflexivity).
  pose proof ln2_pos as H2.
  split; [split |]; [| | split].
  - (* Gibbs' inequality *)
    assert (Hlow : np_sum (map (fun x => x * ((1 - ln (INR q)) / ln 2)
                                         + - (/ INR q / ln 2)) B)
                   <= np_sum (map xlog2x B)).
    { apply np_sum_map_le. eapply Forall_impl; [| exact HBnn].
      cbn. intros x Hx. apply xlog2x_lower_affine; assumption. }
    rewrite np_sum_map_affine, HBlen, HqgR in Hlow. fold Sb in Hlow.
    pose proof (xlog2x_lower_affine (INR q) lf HqR (proj1 Hlf)) as Hlow'.
    unfold log2.
    assert (E : (1 - ln (INR q)) / ln 2 * Sb + (INR q - 1) * - (/ INR q / ln 2)
                + (lf * ((1 - ln (INR q)) / ln 2) + - (/ INR q / ln 2))
                = - (ln (INR q) / ln 2)).
    { subst lf. field. lra. }
    lra.
  - (* each term is nonpositive *)
    assert (Hup : np_sum (map xlog2x B) <= np_sum (map (fun _ => 0) B)).
    { apply np_sum_map_le. eapply Forall_impl; [| exact HB].
      cbn. intros x Hx. apply xlog2x_nonpos, Hx. }
    rewrite (np_sum_map_const (fun _ => 0) 0 0) in Hup
      by (apply Forall_forall; reflexivity).
    pose proof (xlog2x_nonpos lf Hlf). lra.
  - (* one symbol carries all the mass *)
    split.
    { intros Hmax.
      apply (zero_entropy_concentrated freqs qg i Hfull Hrange);
        unfold implicit_freq, block_sum; fold B Sb lf; lra. }
    intros (a & Ha & Ha1 & Hothers).
    assert (H01 : forall b, (b <= qg)%nat ->
              symbol_freq freqs qg i b = 0 \/ symbol_freq freqs qg i b = 1).
    { intros b Hb. destruct (Nat.eq_dec b a) as [-> | Hne]; [right | left]; auto. }
    assert (HB0 : Forall (fun x => xlog2x x = 0) B).
    { apply (Forall_block _ freqs 0); [exact Hfull |].
      intros b Hb. specialize (H01 b ltac:(lia)). unfold symbol_freq in H01.
      destruct (Nat.ltb_spec b qg); [| lia].
      destruct H01 as [-> | ->]; [apply xlog2x_0 | apply xlog2x_1]. }
    rewrite (np_sum_map_const xlog2x 0 0 B HB0).
    specialize (H01 qg (le_n _)). unfold symbol_freq in H01.
    rewrite Nat.ltb_irrefl in H01. unfold implicit_freq, block_sum in H01.
    fold B Sb lf in H01.
    destruct H01 as [-> | ->]; rewrite ?xlog2x_0, ?xlog2x_1; ring.
  - (* the uniform position *)
    intros Hunif.
    assert (Hq1 : (qg + 1 = q)%nat) by (subst qg; lia).
    assert (HBu : Forall (fun x => xlog2x x = - (log2 (INR q) / INR q)) B).
    { apply (Forall_block _ freqs 0); [exact Hfull |].
      intros b Hb. specialize (Hunif b ltac:(lia)). unfold symbol_freq in Hunif.
      destruct (Nat.ltb_spec b qg); [| lia].
      rewrite Hunif, Hq1. apply xlog2x_inv. lia. }
    rewrite (np_sum_map_const xlog2x 0 _ B HBu), HBlen, HqgR.
    specialize (Hunif qg (le_n _)). unfold symbol_freq in Hunif.
    rewrite Nat.ltb_irrefl in Hunif. unfold implicit_freq, block_sum in Hunif.
    fold B Sb lf in Hunif.
    rewrite Hunif, Hq1, xlog2x_inv by lia.
    field. lra.
Qed.

(** *** float64 values *)

Lemma sf_value_nonzero (s : bool) (m : positive) (e : Z) : sf_value s m e <> 0.
Proof.
  unfold sf_value, sf_ratio.
  assert (Hn : (if s then Z.neg m else Z.pos m) <> 0%Z) by (destruct s; discriminate).
  destruct (Z.leb_spec 0 e) as [He | He].
  - assert (H2 : (0 < 2 ^ e)%Z) by (apply Z.pow_pos_nonneg; lia).
    unfold Rdiv. rewrite Rinv_1, Rmult_1_r. apply not_0_IZR. nia.
  - assert (H2 : (0 < 2 ^ (- e))%Z) by (apply Z.pow_pos_nonneg; lia).
    unfold Rdiv. apply Rmult_integral_contrapositive_currified.
    + apply not_0_IZR, Hn.
    + apply Rinv_neq_0_compat, not_0_IZR. lia.
Qed.

(** [x != 0] fails on the two zeros only. *)
Lemma f64_nonzero_spec (x : f64) :
  f64_nonzero x
  = match FloatOps.Prim2SF x with SpecFloat.S754_zero _ => false | _ => true end.
Proof.
  unfold f64_nonzero. rewrite FloatAxioms.eqb_spec.
  change (FloatOps.Prim2SF PrimFloat.zero) with (SpecFloat.S754_zero false).
  destruct (FloatOps.Prim2SF x) as [s | s | | s m e]; try destruct s; reflexivity.
Qed.

Lemma f64_nonzero_fin (x : f64) (r : R) :
  of_f64 x = Fin r -> (f64_nonzero x = true <-> r <> 0).
Proof.
  rewrite f64_nonzero_spec. unfold of_f64.
  destruct (FloatOps.Prim2SF x) as [s | s | | s m e]; intros H.
  - injection H as <-. split; [discriminate | intros Hne; contradiction Hne; reflexivity].
  - destruct s; discriminate.
  - discriminate.
  - injection H as <-. split; [intros _; apply sf_value_nonzero | reflexivity].
Qed.

Lemma of_f64_finite (x : f64) : f64_finite x -> of_f64 x = Fin (f64_val x).
Proof.
  unfold f64_finite, f64_val. destruct (of_f64 x); cbn; intros H;
    [reflexivity | discriminate | discriminate | discriminate].
Qed.

(** The fuel of [pairwise_sum] never runs out when it is the length. *)
Lemma pairwise_sum_fuel (k : nat) :
  forall (k' : nat) (l : list f64),
  (length l <= k)%nat -> (length l <= k')%nat ->
  pairwise_sum k l = pairwise_sum k' l.
Proof.
  induction k as [| k IH]; intros [| k'] l Hk Hk'; cbn [pairwise_sum]; cbv zeta;
    destruct (Nat.ltb_spec (length l) 8) as [H8 | H8]; try reflexivity;
    destruct (Nat.leb_spec (length l) 128) as [H128 | H128]; try reflexivity;
    try lia.
  pose proof (Nat.div_mod_eq (length l) 2) as Hdm.
  pose proof (Nat.mod_upper_bound (length l) 2 ltac:(lia)) as Hm2.
  pose proof (Nat.mod_upper_bound (length l / 2) 8 ltac:(lia)) as Hm8.
  f_equal; apply IH; rewrite ?length_firstn, ?length_skipn; lia.
Qed.

(** *** The terms of the conservation *)

Lemma float_add_fin_sum (l : list R) (a : R) :
  fold_left float_add (map Fin l) (Fin a) = Fin (a + np_sum l).
Proof.
  revert a. induction l as [| x l IH]; intros a; cbn [map fold_left].
  - f_equal. cbn. ring.
  - cbn [float_add]. rewrite IH, np_sum_cons. f_equal. ring.
Qed.

Lemma entropy_term (x : f64) (r : R) :
  of_f64 x = Fin r -> 0 <= r -> f64_nonzero x = true ->
  float_mul (of_f64 x) (np_log2 (of_f64 x)) = Fin (xlog2x r).
Proof.
  intros Hx Hr Hnz. apply (f64_nonzero_fin x r Hx) in Hnz.
  rewrite Hx. unfold np_log2, xlog2x.
  destruct (Rlt_dec 0 r) as [_ | Hn]; [| exfalso; lra].
  destruct (Req_EM_T r 0); [contradiction | reflexivity].
Qed.

(** [np.sum(ff * np.log2(ff))] over a block of finite nonnegative numbers. *)
Lemma entropy_terms_sum (blk : list f64) :
  Forall f64_finite blk -> Forall (fun r => 0 <= r) (map f64_val blk) ->
  np_sum_float (map (fun x => float_mul (of_f64 x) (np_log2 (of_f64 x)))
                    (filter f64_nonzero blk))
  = Fin (np_sum (map xlog2x (map f64_val blk))).
Proof.
  intros Hfin Hnn. unfold np_sum_float.
  rewrite <- (Rplus_0_l (np_sum _)). generalize 0 as a.
  induction Hfin as [| x blk Hx _ IH]; intros a.
  - cbn. f_equal. ring.
  - cbn [map] in Hnn. inversion Hnn as [| ? ? Hr Hrest]; subst.
    pose proof (of_f64_finite x Hx) as Ex.
    cbn [filter map]. rewrite np_sum_cons.
    destruct (f64_nonzero x) eqn:Hnz.
    + cbn [map fold_left]. rewrite (entropy_term x _ Ex Hr Hnz). cbn [float_add].
      rewrite (IH Hrest). f_equal. ring.
    + assert (E0 : f64_val x = 0).
      { destruct (Req_dec (f64_val x) 0) as [E | E]; [exact E |].
        apply (f64_nonzero_fin x _ Ex) in E. congruence. }
      rewrite (IH Hrest), E0, xlog2x_0. f_equal. ring.
Qed.

Lemma Forall_map_slice {A B : Type} (P : B -> Prop) (g : A -> B) (l : list A) (a b : nat) :
  Forall P (map g l) -> Forall P (map g (slice l a b)).
Proof. rewrite !Forall_map. apply Forall_slice. Qed.

(** Every value [conservation_1hot] returns, in terms of the implicit
    frequency it computed. *)
Lemma conservation_1hot_entry (freqs : list f64) (q L : nat) :
  (2 <= q)%nat -> length freqs = (L * (q - 1))%nat ->
  Forall f64_finite freqs -> Forall (fun r => 0 <= r) (map f64_val freqs) ->
  exists conss,
    conservation_1hot freqs q = Ok conss /\
    length conss = L /\
    forall i, (i < L)%nat ->
      nth i conss (Fin 0)
      = let h := Fin (log2 (INR q)
                      + np_sum (map xlog2x (slice (map f64_val freqs)
                                                  (i * (q - 1)) ((i + 1) * (q - 1))))) in
        let lf := lastAA_freq freqs (q - 1) i in
        if f64_nonzero lf
        then float_add h (float_mul (of_f64 lf) (np_log2 (of_f64 lf)))
        else h.
Proof.
  intros Hq Hlen Hfin Hnn. unfold conservation_1hot.
  set (qg := (q - 1)%nat) in *. assert (Hqg : (0 < qg)%nat) by (subst qg; lia).
  destruct (Nat.eqb_spec qg 0); [lia |].
  assert (HL : (length freqs / qg = L)%nat) by (rewrite Hlen; apply Nat.div_mul; lia).
  unfold np_reshape. rewrite HL, <- Hlen, Nat.eqb_refl. cbn [bind].
  eexists. split; [reflexivity |]. split.
  - rewrite length_map, length_combine, length_map, length_reshape_rows.
    apply Nat.min_id.
  - intros i Hi. rewrite nth_as_nth_error, nth_error_map, nth_error_combine,
      nth_error_map, nth_error_reshape_rows.
    destruct (Nat.ltb_spec i L); [| lia]. cbn [option_map fst snd]. cbv zeta.
    fold (lastAA_freq freqs qg i).
    rewrite entropy_terms_sum.
    + rewrite slice_map.
      assert (Eq : np_log2 (Fin (INR q)) = Fin (log2 (INR q))).
      { unfold np_log2. assert (0 < INR q) by (apply lt_0_INR; lia).
        destruct (Rlt_dec 0 (INR q)); [reflexivity | contradiction]. }
      rewrite Eq. cbn [float_add]. reflexivity.
    + apply Forall_slice, Hfin.
    + apply Forall_map_slice, Hnn.
Qed.

(** A position whose computed implicit frequency is not negative. *)
Lemma conservation_1hot_position (freqs : list f64) (q L : nat)
    (conss : list float) (i : nat) (y : R) :
  (2 <= q)%nat -> length freqs = (L * (q - 1))%nat ->
  Forall f64_finite freqs -> Forall (fun r => 0 <= r) (map f64_val freqs) ->
  conservation_1hot freqs q = Ok conss -> (i < L)%nat ->
  of_f64 (lastAA_freq freqs (q - 1) i) = Fin y -> 0 <= y ->
  nth i conss (Fin 0)
  = Fin (log2 (INR q)
         + np_sum (map xlog2x (slice (map f64_val freqs)
                                     (i * (q - 1)) ((i + 1) * (q - 1))))
         + xlog2x y).
Proof.
  intros Hq Hlen Hfin Hnn Hrun Hi Hy Hy0.
  destruct (conservation_1hot_entry freqs q L Hq Hlen Hfin Hnn)
    as (conss' & Hrun' & _ & Hentry).
  rewrite Hrun in Hrun'. injection Hrun' as <-.
  rewrite (Hentry i Hi). cbv zeta.
  destruct (f64_nonzero (lastAA_freq freqs (q - 1) i)) eqn:Hnz.
  - rewrite (entropy_term _ y Hy Hy0 Hnz). reflexivity.
  - assert (E0 : y = 0).
    { destruct (Req_dec y 0) as [E | E]; [exact E |].
      apply (f64_nonzero_fin _ y Hy) in E. congruence. }
    rewrite E0, xlog2x_0. f_equal. ring.
Qed.

(** C5: what [conservation_1hot] returns on a gauge-fixed vector of finite
    float64 frequencies (entries in [[0, 1]], every block of exact sum at
    most 1).  It returns one value per position.  Where the implicit
    frequency the code computes, one minus the float64 sum of the block, is
    exact, the value is the conservation [log2 q + sum of x log2 x] with
    [0 log2 0 = 0]: it lies in [[0, log2 q]], is [log2 q] exactly where one
    symbol has frequency 1 and the others 0, and is 0 where all [q] symbols
    have frequency [1/q].  Where the computed implicit frequency is not
    negative the value is that sum with the computed frequency in it.  But
    where rounding makes the float64 sum exceed 1, the computed implicit
    frequency is negative and the value is [nan]: the test [lf != 0] lets it
    through to [np.log2]. *)
Theorem conservation_1hot_values (freqs : list f64) (q L : nat) :
  (2 <= q)%nat -> length freqs = (L * (q - 1))%nat ->
  Forall f64_finite freqs -> valid_freqs q (map f64_val freqs) ->
  exists conss,
    conservation_1hot freqs q = Ok conss /\
    length conss = L /\
    forall i, (i < L)%nat ->
      ((exists y, of_f64 (lastAA_freq freqs (q - 1) i) = Fin y /\ y < 0) ->
       nth i conss (Fin 0) = NaN) /\
      (forall y, of_f64 (lastAA_freq freqs (q - 1) i) = Fin y -> 0 <= y ->
       nth i conss (Fin 0)
       = Fin (log2 (INR q)
              + np_sum (map xlog2x (slice (map f64_val freqs)
                                          (i * (q - 1)) ((i + 1) * (q - 1))))
              + xlog2x y)) /\
      (of_f64 (lastAA_freq freqs (q - 1) i)
       = Fin (implicit_freq (map f64_val freqs) (q - 1) i) ->
       nth i conss (Fin 0) = Fin (site_conservation (map f64_val freqs) q i) /\
       0 <= site_conservation (map f64_val freqs) q i <= log2 (INR q) /\
       (site_conservation (map f64_val freqs) q i = log2 (INR q)
        <-> concentrated_at (map f64_val freqs) (q - 1) i) /\
       (uniform_at (map f64_val freqs) (q - 1) i
        -> site_conservation (map f64_val freqs) q i = 0)).
Proof.
  intros Hq Hlen Hfin Hvalid.
  assert (Hnn : Forall (fun r => 0 <= r) (map f64_val freqs)).
  { destruct Hvalid as [Hrange _]. eapply Forall_impl; [| exact Hrange].
    cbn. intros r Hr. lra. }
  destruct (conservation_1hot_entry freqs q L Hq Hlen Hfin Hnn)
    as (conss & Hrun & HL & Hentry).
  exists conss. split; [exact Hrun |]. split; [exact HL |].
  intros i Hi.
  pose proof (fun y => conservation_1hot_position freqs q L conss i y
                         Hq Hlen Hfin Hnn Hrun Hi) as Hpos.
  split; [| split].
  - intros (y & Hy & Hneg). rewrite (Hentry i Hi). cbv zeta.
    assert (Hnz : f64_nonzero (lastAA_freq freqs (q - 1) i) = true)
      by (apply (f64_nonzero_fin _ y Hy); lra).
    rewrite Hnz, Hy. unfold np_log2.
    destruct (Rlt_dec 0 y); [lra |]. destruct (Req_EM_T y 0); [lra |]. reflexivity.
  - exact Hpos.
  - intros Hexact.
    assert (Hlen' : length (map f64_val freqs) = (L * (q - 1))%nat)
      by (rewrite length_map; exact Hlen).
    pose proof (site_conservation_bounds (map f64_val freqs) q L i Hq Hlen' Hvalid Hi)
      as Hb.
    split; [| exact Hb].
    apply Hpos; [exact Hexact |].
    destruct Hvalid as [_ Hblock]. unfold implicit_freq.
    assert (Hdiv : (length (map f64_val freqs) / (q - 1) = L)%nat)
      by (rewrite Hlen'; apply Nat.div_mul; lia).
    specialize (Hblock i ltac:(lia)). lra.
Qed.

(** Evaluation of closed float64 terms. *)
Ltac eval_f64 :=
  repeat match goal with
         | |- context [FloatOps.Prim2SF ?x] =>
             let v := eval vm_compute in (FloatOps.Prim2SF x) in
             change (FloatOps.Prim2SF x) with v
         end;
  cbv beta iota;
  repeat match goal with
         | |- context [sf_ratio ?s ?m ?e] =>
             let v := eval vm_compute in (sf_ratio s m e) in
             change (sf_ratio s m e) with v
         end;
  cbv beta iota.

(** The exact values of [np.array([3, 7, 4, 13, 1] + 15 * [0]) / 28]: their
    sum is exactly 1. *)
Lemma rounded_freqs_values :
  map f64_val rounded_freqs
  = [7720456504063707 / 72057594037927936;
     4503599627370496 / 18014398509481984;
     5146971002709138 / 36028797018963968;
     8363827879402350 / 18014398509481984;
     5146971002709138 / 144115188075855872]
    ++ repeat 0 15.
Proof.
  unfold rounded_freqs. cbn [map app repeat]. unfold f64_val, of_f64, sf_value.
  eval_f64. reflexivity.
Qed.

(** On them the float64 sum, taken in numpy's order, is [1 + 2^-52], and the
    implicit frequency comes out as [-2^-52]. *)
Lemma rounded_freqs_lastAA :
  of_f64 (lastAA_freq rounded_freqs 20 0)
  = Fin (- 4503599627370496 / 20282409603651670423947251286016).
Proof.
  unfold of_f64, sf_value. eval_f64. reflexivity.
Qed.

(** The failing input of C5: a valid frequency vector, of exact block sum 1,
    on which [conservation_1hot] returns [nan]. *)
Lemma conservation_1hot_values_witness :
  Forall f64_finite rounded_freqs /\
  valid_freqs 21 (map f64_val rounded_freqs) /\
  block_sum (map f64_val rounded_freqs) 20 0 = 1 /\
  conservation_1hot rounded_freqs 21 = Ok [NaN].
Proof.
  assert (Hfin : Forall f64_finite rounded_freqs).
  { unfold rounded_freqs. cbn [map app repeat].
    repeat (apply Forall_cons; [unfold f64_finite, of_f64; eval_f64; reflexivity |]).
    apply Forall_nil. }
  assert (Hsum : block_sum (map f64_val rounded_freqs) 20 0 = 1).
  { rewrite rounded_freqs_values. unfold block_sum, slice.
    cbn [Nat.mul Nat.add Nat.sub skipn firstn app repeat np_sum fold_right]. lra. }
  assert (Hvalid : valid_freqs 21 (map f64_val rounded_freqs)).
  { split.
    - rewrite rounded_freqs_values. cbn [app repeat].
      repeat (apply Forall_cons; [lra |]). apply Forall_nil.
    - intros i Hi. rewrite length_map in Hi.
      change (length rounded_freqs / (21 - 1))%nat with 1%nat in Hi.
      assert (i = 0%nat) by lia. subst i.
      change (21 - 1)%nat with 20%nat. rewrite Hsum. lra. }
  split; [exact Hfin |]. split; [exact Hvalid |]. split; [exact Hsum |].
  destruct (conservation_1hot_values rounded_freqs 21 1 ltac:(lia) eq_refl Hfin Hvalid)
    as (conss & Hrun & Hlen & Hval).
  destruct (Hval 0%nat ltac:(lia)) as (Hnan & _).
  rewrite Hrun. f_equal.
  destruct conss as [| c [| c' conss]]; try discriminate.
  cbn [nth] in Hnan. rewrite Hnan; [reflexivity |].
  eexists. split; [exact rounded_freqs_lastAA | lra].
Defined.

(** A position alone, with [q = 2]: the vector holds one number [x], and
    when [1 - x] is computed exactly the value is the conservation of
    [(x, 1 - x)]. *)
Lemma conservation_1hot_single (x : f64) (r : R) :
  of_f64 x = Fin r -> 0 <= r <= 1 ->
  of_f64 (PrimFloat.sub PrimFloat.one (np_sum_f64 [x])) = Fin (1 - r) ->
  conservation_1hot [x] 2 = Ok [Fin (log2 (INR 2) + xlog2x r + xlog2x (1 - r))].
Proof.
  intros Hx Hr Hlf.
  assert (Hval : f64_val x = r) by (unfold f64_val; rewrite Hx; reflexivity).
  assert (Hfin : Forall f64_finite [x]).
  { apply Forall_cons; [| apply Forall_nil]. unfold f64_finite. rewrite Hx. reflexivity. }
  assert (Hnn : Forall (fun r0 => 0 <= r0) (map f64_val [x])).
  { cbn [map]. rewrite Hval. apply Forall_cons; [lra | apply Forall_nil]. }
  destruct (conservation_1hot_entry [x] 2 1 ltac:(lia) eq_refl Hfin Hnn)
    as (conss & Hrun & Hlen & _).
  pose proof (conservation_1hot_position [x] 2 1 conss 0 (1 - r)
                ltac:(lia) eq_refl Hfin Hnn Hrun ltac:(lia) Hlf ltac:(lra)) as Hpos.
  rewrite Hrun. destruct conss as [| c [| c' conss]]; try discriminate.
  cbn [nth] in Hpos. rewrite Hpos.
  cbn [map]. rewrite Hval. unfold slice. cbn. do 3 f_equal. ring.
Qed.

(** The three kinds of position the claim names, with [q = 2]: the uniform
    [[0.5]] has conservation 0, and the concentrated [[1.0]] and [[0.0]]
    (where the tests [lf != 0] and [f != 0] keep [0 * log2 0] out) have
    conservation [log2 2]. *)
Lemma conservation_1hot_examples :
  conservation_1hot [PrimFloat.div (f64_of_int 1) (f64_of_int 2)] 2 = Ok [Fin 0] /\
  conservation_1hot [PrimFloat.one] 2 = Ok [Fin (log2 (INR 2))] /\
  conservation_1hot [PrimFloat.zero] 2 = Ok [Fin (log2 (INR 2))] /\
  conservation_1hot (PrimFloat.one :: repeat PrimFloat.zero 19) 21
  = Ok [Fin (log2 (INR 21))].
Proof.
  assert (H2 : INR 2 = 2) by (cbn; lra).
  assert (Hhalf : xlog2x (1 / 2) = - (log2 2 / 2)).
  { pose proof (xlog2x_inv 2 ltac:(lia)) as H. rewrite H2 in H. exact H. }
  split; [| split; [| split]].
  - rewrite (conservation_1hot_single _ (1 / 2)).
    + do 3 f_equal. replace (1 - 1 / 2) with (1 / 2) by lra.
      rewrite Hhalf, H2. lra.
    + unfold of_f64, sf_value. eval_f64. f_equal. lra.
    + lra.
    + unfold of_f64, sf_value. eval_f64. f_equal. lra.
  - rewrite (conservation_1hot_single _ 1).
    + do 3 f_equal. replace (1 - 1) with 0 by lra. rewrite xlog2x_0, xlog2x_1. ring.
    + unfold of_f64, sf_value. eval_f64. f_equal. lra.
    + lra.
    + unfold of_f64, sf_value. eval_f64. f_equal. lra.
  - rewrite (conservation_1hot_single _ 0).
    + do 3 f_equal. replace (1 - 0) with 1 by lra. rewrite xlog2x_0, xlog2x_1. ring.
    + unfold of_f64, sf_value. eval_f64. reflexivity.
    + lra.
    + unfold of_f64, sf_value. eval_f64. f_equal. lra.
  - set (f := PrimFloat.one :: repeat PrimFloat.zero 19).
    assert (Hvals : map f64_val f = 1 :: repeat 0 19).
    { unfold f. cbn [map repeat]. unfold f64_val, of_f64, sf_value. eval_f64.
      f_equal. lra. }
    assert (Hfin : Forall f64_finite f).
    { unfold f. cbn [repeat].
      repeat (apply Forall_cons; [unfold f64_finite, of_f64; eval_f64; reflexivity |]).
      apply Forall_nil. }
    assert (Hnn : Forall (fun r => 0 <= r) (map f64_val f)).
    { rewrite Hvals. cbn [repeat].
      repeat (apply Forall_cons; [lra |]). apply Forall_nil. }
    destruct (conservation_1hot_entry f 21 1 ltac:(lia) eq_refl Hfin Hnn)
      as (conss & Hrun & Hlen & _).
    assert (Hlf : of_f64 (lastAA_freq f (21 - 1) 0) = Fin 0)
      by (unfold of_f64; eval_f64; reflexivity).
    pose proof (conservation_1hot_position f 21 1 conss 0 0
                  ltac:(lia) eq_refl Hfin Hnn Hrun ltac:(lia) Hlf ltac:(lra)) as Hpos.
    rewrite Hrun. destruct conss as [| c [| c' conss]]; try discriminate.
    cbn [nth] in Hpos. rewrite Hpos.
    rewrite Hvals. unfold slice. cbn [Nat.mul Nat.add Nat.sub skipn firstn repeat map].
    rewrite xlog2x_0, xlog2x_1. cbn [np_sum fold_right]. do 3 f_equal. ring.
Qed.

Local Close Scope R_scope.

(** ** The one-hot block invariant *)

Section OneHot.
Context {A : Type} (eq_dec : forall x y : A, {x = y} + {x <> y}) (one : A).

Lemma count_occ_le_1_iff (l : list A) :
  count_occ eq_dec l one <= 1 <->
  forall a b, nth_error l a = Some one -> nth_error l b = Some one -> a = b.
Proof.
  induction l as [| x l IH].
  - split; [| cbn; lia]. intros _ a b Ha. destruct a; discriminate.
  - cbn [count_occ]. destruct (eq_dec x one) as [-> | Hne].
    + split.
      * intros Hc a b Ha Hb.
        assert (H0 : count_occ eq_dec l one = 0) by lia.
        rewrite <- count_occ_not_In in H0.
        destruct a as [| a], b as [| b]; try reflexivity; exfalso; apply H0;
          eapply nth_error_In; eassumption.
      * intros H. assert (H0 : count_occ eq_dec l one = 0); [| lia].
        apply count_occ_not_In. intros Hin.
        apply In_nth_error in Hin. destruct Hin as (k & Hk).
        specialize (H 0 (S k) eq_refl Hk). discriminate.
    + rewrite IH. split.
      * intros H a b Ha Hb.
        destruct a as [| a]; [cbn in Ha; congruence |].
        destruct b as [| b]; [cbn in Hb; congruence |].
        f_equal. apply H; assumption.
      * intros H a b Ha Hb.
        specialize (H (S a) (S b) Ha Hb). lia.
Qed.

(** The invariant, read entry by entry. *)
Lemma one_hot_blocks_iff (qg : nat) (v : list A) :
  one_hot_blocks eq_dec one qg v <->
  forall i a b, a < qg -> b < qg ->
    nth_error v (i * qg + a) = Some one -> nth_error v (i * qg + b) = Some one -> a = b.
Proof.
  unfold one_hot_blocks. split.
  - intros H i a b Ha Hb Ha1 Hb1.
    specialize (H i). rewrite count_occ_le_1_iff in H.
    apply H; rewrite nth_error_slice.
    + destruct (Nat.ltb_spec a ((i + 1) * qg - i * qg)); [exact Ha1 | lia].
    + destruct (Nat.ltb_spec b ((i + 1) * qg - i * qg)); [exact Hb1 | lia].
  - intros H i. apply count_occ_le_1_iff. intros a b Ha Hb.
    rewrite nth_error_slice in Ha, Hb.
    destruct (Nat.ltb_spec a ((i + 1) * qg - i * qg)); [| discriminate].
    destruct (Nat.ltb_spec b ((i + 1) * qg - i * qg)); [| discriminate].
    apply (H i); try assumption; lia.
Qed.
End OneHot.

(** *** Rows of [seq2occurrence] *)

Lemma nth_set_col (M : list (list Z)) (j : nat) (col : list Z) (b : nat) :
  length col = length M ->
  nth b (set_col M j col) [] = set_nth j (nth b col 0%Z) (nth b M []).
Proof.
  intros Hlen. unfold set_col.
  change (@nil Z) with ((fun rc : list Z * Z => set_nth j (snd rc) (fst rc)) ([], 0%Z)) at 1.
  rewrite map_nth, combine_nth by (symmetry; exact Hlen). reflexivity.
Qed.

Lemma length_set_col (M : list (list Z)) (j : nat) (col : list Z) :
  length col = length M -> length (set_col M j col) = length M.
Proof.
  intros Hlen. unfold set_col. rewrite length_map, length_combine, Hlen.
  apply Nat.min_id.
Qed.

Lemma column_loop_row (colf : nat -> list Z) (base : nat) (b : nat) :
  forall (l : list nat) (M : list (list Z)),
  (forall a, length (colf a) = length M) ->
  length (fold_left (fun M' a => set_col M' (base + a) (colf a)) l M) = length M /\
  nth b (fold_left (fun M' a => set_col M' (base + a) (colf a)) l M) []
  = fold_left (fun r a => set_nth (base + a) (nth b (colf a) 0%Z) r) l (nth b M []).
Proof.
  induction l as [| a l IH]; intros M Hcol; cbn [fold_left]; [split; reflexivity |].
  destruct (IH (set_col M (base + a) (colf a))) as [IHlen IHrow].
  { intros a'. rewrite length_set_col by apply Hcol. apply Hcol. }
  rewrite length_set_col in IHlen by apply Hcol.
  rewrite nth_set_col in IHrow by apply Hcol.
  split; assumption.
Qed.

Lemma set_nth_loop_spec {A : Type} (g : nat -> A) (base len : nat) :
  forall (start : nat) (r : list A),
  let r' := fold_left (fun r0 a => set_nth (base + a) (g a) r0) (seq start len) r in
  length r' = length r /\
  forall j, nth_error r' j
            = if (base + start <=? j) && (j <? base + start + len) && (j <? length r)
              then Some (g (j - base)) else nth_error r j.
Proof.
  induction len as [| len IH]; intros start r; cbn zeta.
  - cbn [seq fold_left]. split; [reflexivity |]. intros j.
    destruct (Nat.leb_spec (base + start) j), (Nat.ltb_spec j (base + start + 0));
      try lia; reflexivity.
  - cbn [seq fold_left].
    specialize (IH (S start) (set_nth (base + start) (g start) r)). cbn zeta in IH.
    destruct IH as [IHlen IHnth]. rewrite length_set_nth in IHlen, IHnth.
    split; [exact IHlen |]. intros j.
    rewrite IHnth, nth_error_set_nth.
    destruct (Nat.leb_spec (base + S start) j), (Nat.ltb_spec j (base + S start + len)),
      (Nat.leb_spec (base + start) j), (Nat.ltb_spec j (base + start + S len)),
      (Nat.eqb_spec j (base + start)), (Nat.ltb_spec j (length r)),
      (Nat.ltb_spec (base + start) (length r));
      cbn [andb]; try lia; try reflexivity.
    subst j. do 2 f_equal. lia.
Qed.

Lemma block_loop_spec {A : Type} (g : nat -> nat -> A) (qg : nat) :
  0 < qg ->
  forall (len start : nat) (r : list A),
  let r' := fold_left
              (fun r0 i => fold_left (fun r1 a => set_nth (i * qg + a) (g i a) r1)
                                     (seq 0 qg) r0)
              (seq start len) r in
  length r' = length r /\
  forall j, nth_error r' j
            = if (start <=? j / qg) && (j / qg <? start + len) && (j <? length r)
              then Some (g (j / qg) (j mod qg)) else nth_error r j.
Proof.
  intros Hq. induction len as [| len IH]; intros start r; cbn zeta.
  - cbn [seq fold_left]. split; [reflexivity |]. intros j.
    destruct (Nat.leb_spec start (j / qg)), (Nat.ltb_spec (j / qg) (start + 0));
      try lia; reflexivity.
  - cbn [seq fold_left].
    destruct (set_nth_loop_spec (g start) (start * qg) qg 0 r) as [Hlen1 Hnth1].
    set (r1 := fold_left _ (seq 0 qg) r) in *.
    specialize (IH (S start) r1). cbn zeta in IH. destruct IH as [IHlen IHnth].
    split; [congruence |]. intros j.
    rewrite IHnth, Hnth1, Hlen1.
    rewrite (in_block_div qg start j (start * qg + 0) (start * qg + 0 + qg)) by lia.
    pose proof (Nat.div_mod_eq j qg) as Hdm.
    destruct (Nat.leb_spec (S start) (j / qg)), (Nat.ltb_spec (j / qg) (S start + len)),
      (Nat.leb_spec start (j / qg)), (Nat.ltb_spec (j / qg) (start + S len)),
      (Nat.eqb_spec (j / qg) start), (Nat.ltb_spec j (length r));
      cbn [andb]; try lia; try reflexivity.
    do 2 f_equal; [congruence | nia].
Qed.

Lemma one_hot_blocks_width_0 {A : Type} (eq_dec : forall x y : A, {x = y} + {x <> y})
    (one : A) (v : list A) :
  one_hot_blocks eq_dec one 0 v.
Proof.
  intros i. rewrite !Nat.mul_0_r. unfold slice. cbn. lia.
Qed.

Lemma occurrence_loop_row (colf : nat -> nat -> list Z) (qg b : nat) :
  forall (l : list nat) (M : list (list Z)),
  (forall i a, length (colf i a) = length M) ->
  length (fold_left
            (fun M0 i => fold_left (fun M' a => set_col M' (i * qg + a) (colf i a))
                                   (seq 0 qg) M0) l M) = length M /\
  nth b (fold_left
           (fun M0 i => fold_left (fun M' a => set_col M' (i * qg + a) (colf i a))
                                  (seq 0 qg) M0) l M) []
  = fold_left
      (fun r i => fold_left (fun r1 a => set_nth (i * qg + a) (nth b (colf i a) 0%Z) r1)
                            (seq 0 qg) r)
      l (nth b M []).
Proof.
  induction l as [| i l IH]; intros M Hcol; cbn [fold_left]; [split; reflexivity |].
  destruct (column_loop_row (colf i) (i * qg) b (seq 0 qg) M (Hcol i)) as [Hlen1 Hrow1].
  set (M1 := fold_left _ (seq 0 qg) M) in *.
  destruct (IH M1) as [IHlen IHrow].
  { intros i' a'. rewrite Hlen1. apply Hcol. }
  rewrite Hlen1 in IHlen. rewrite Hrow1 in IHrow. split; assumption.
Qed.

Lemma nth_eq_mask (col : list Z) (a b : nat) :
  b < length col ->
  nth b (eq_mask col a) 0%Z = if (nth b col 0 =? Z.of_nat a)%Z then 1%Z else 0%Z.
Proof.
  intros Hb. unfold eq_mask.
  rewrite (nth_indep _ 0%Z ((fun x => if (x =? Z.of_nat a)%Z then 1%Z else 0%Z) 0%Z))
    by (rewrite length_map; exact Hb).
  exact (map_nth (fun x => if (x =? Z.of_nat a)%Z then 1%Z else 0%Z) col 0%Z b).
Qed.

Lemma seq2occurrence_one_hot (seqs_AA : seq_arg) (q_true : nat) (M : list (list Z)) :
  seq2occurrence seqs_AA q_true = Ok M ->
  Forall (one_hot_blocks Z.eq_dec 1%Z (q_true - 1)) M.
Proof.
  unfold seq2occurrence. destruct (seq2num seqs_AA) as [[v | rows] | e];
    cbn [bind]; try discriminate.
  intros H. injection H as <-.
  set (qg := q_true - 1). set (N := length (hd [] rows)).
  destruct (Nat.eq_dec qg 0) as [-> | Hqg].
  { apply Forall_forall. intros r _. apply one_hot_blocks_width_0. }
  pose (colf := fun i a => eq_mask (column rows i) a).
  assert (Hcol : forall i a, length (colf i a)
                             = length (repeat (repeat 0%Z (N * qg)) (length rows))).
  { intros i a. unfold colf, eq_mask, column. rewrite !length_map, repeat_length.
    reflexivity. }
  apply Forall_forall. intros r Hr.
  apply (In_nth _ _ []) in Hr. destruct Hr as (b & Hb & <-).
  destruct (occurrence_loop_row colf qg b (seq 0 N) _ Hcol) as [Hlen Hrow].
  unfold colf in Hlen, Hrow. cbn beta in Hlen, Hrow.
  rewrite Hlen, repeat_length in Hb.
  rewrite Hrow.
  rewrite (nth_indep _ [] (repeat 0%Z (N * qg))), nth_repeat
    by (rewrite repeat_length; exact Hb).
  destruct (block_loop_spec (fun i a => nth b (eq_mask (column rows i) a) 0%Z)
              qg ltac:(lia) N 0 (repeat 0%Z (N * qg))) as [_ Hnth].
  cbn zeta in Hnth.
  apply one_hot_blocks_iff. intros i a a' Ha Ha' H1 H1'.
  assert (Hval : forall c, c < qg ->
            nth_error (fold_left
                         (fun r0 i0 => fold_left
                            (fun r1 a0 => set_nth (i0 * qg + a0)
                                            (nth b (eq_mask (column rows i0) a0) 0%Z) r1)
                            (seq 0 qg) r0) (seq 0 N) (repeat 0%Z (N * qg)))
                      (i * qg + c) = Some 1%Z ->
            nth i (nth b rows []) 0%Z = Z.of_nat c).
  { intros c Hc. rewrite Hnth.
    replace ((i * qg + c) / qg) with i by (apply (Nat.div_unique _ qg i c); lia).
    replace ((i * qg + c) mod qg) with c by (apply (Nat.mod_unique _ qg i c); lia).
    destruct ((0 <=? i) && (i <? 0 + N) && (i * qg + c <? length (repeat 0%Z (N * qg)))).
    - rewrite nth_eq_mask by (unfold column; rewrite length_map; exact Hb).
      unfold column.
      rewrite (nth_indep _ 0%Z ((fun r => nth i r 0%Z) [])) by (rewrite length_map; exact Hb).
      rewrite (map_nth (fun r => nth i r 0%Z)).
      destruct (Z.eqb_spec (nth i (nth b rows []) 0%Z) (Z.of_nat c)); [auto | discriminate].
    - intros Hc1. apply nth_error_In, repeat_spec in Hc1. discriminate. }
  pose proof (Hval a Ha H1). pose proof (Hval a' Ha' H1'). lia.
Qed.

(** *** Vectors of [sample_data_indip] *)

Lemma choice_range (q : nat) (probs : list R) (g g' : rng) (a : nat) :
  choice q probs g = Ok (a, g') -> a < q.
Proof.
  unfold choice. destruct (Nat.eqb_spec q 0) as [-> | Hq]; cbn [orb]; [discriminate |].
  destruct (negb (length probs =? q)); [discriminate |].
  cbn [next_int]. intros H. injection H as <- _.
  apply Nat.mod_upper_bound. exact Hq.
Qed.

Lemma sample_loop_one_hot (fields : list R) (beta : R) (q : nat) :
  0 < q - 1 ->
  forall (len start : nat) (v : list R) (g : rng) (v' : list R) (g' : rng),
  foldM (fun (st : list R * rng) i =>
           let (new_data, g0) := st in
           let freqs := site_probs beta (slice fields (i * (q - 1)) ((i + 1) * (q - 1))) in
           ' (a, g1) <- choice q freqs g0 ;;
           if negb (a =? q - 1)
           then Ok (set_nth (i * (q - 1) + a) 1%R new_data, g1)
           else Ok (new_data, g1))
        (seq start len) (v, g) = Ok (v', g') ->
  (forall j, start <= j / (q - 1) -> nth_error v j <> Some 1%R) ->
  (forall i a b, a < q - 1 -> b < q - 1 ->
     nth_error v (i * (q - 1) + a) = Some 1%R ->
     nth_error v (i * (q - 1) + b) = Some 1%R -> a = b) ->
  length v' = length v /\
  forall i a b, a < q - 1 -> b < q - 1 ->
    nth_error v' (i * (q - 1) + a) = Some 1%R ->
    nth_error v' (i * (q - 1) + b) = Some 1%R -> a = b.
Proof.
  set (qg := q - 1). intros Hqg.
  induction len as [| len IH]; intros start v g v' g' Hrun Hclean Hinv.
  - cbn in Hrun. injection Hrun as <- _. split; [reflexivity | exact Hinv].
  - cbn [seq foldM] in Hrun.
    destruct (choice q _ g) as [[a g1] | e] eqn:Hch; cbn [bind] in Hrun; [| discriminate].
    pose proof (choice_range _ _ _ _ _ Hch) as Ha.
    assert (Hdiv : forall c, c < qg -> (start * qg + c) / qg = start)
      by (intros c Hc; symmetry; apply (Nat.div_unique _ qg start c); lia).
    destruct (Nat.eqb_spec a qg) as [-> | Hne]; cbn [negb] in Hrun.
    + (* the implicit symbol: nothing is written *)
      apply (IH (S start) v g1 v' g' Hrun); [| exact Hinv].
      intros j Hj. apply Hclean. lia.
    + assert (Haq : a < qg) by (subst qg; lia).
      destruct (IH (S start) _ g1 v' g' Hrun) as [Hlen Hres].
      * intros j Hj. rewrite nth_error_set_nth.
        destruct (Nat.eqb_spec j (start * qg + a)) as [-> | _]; cbn [andb].
        -- rewrite Hdiv in Hj by exact Haq. lia.
        -- apply Hclean. lia.
      * intros i c d Hc Hd. rewrite !nth_error_set_nth.
        destruct (Nat.eq_dec i start) as [-> | Hi].
        -- (* the block just written held no 1 *)
           assert (Hno : forall c0, c0 < qg -> nth_error v (start * qg + c0) <> Some 1%R)
             by (intros c0 Hc0; apply Hclean; rewrite Hdiv by exact Hc0; lia).
           destruct (Nat.eqb_spec (start * qg + c) (start * qg + a)),
             (Nat.eqb_spec (start * qg + d) (start * qg + a)); cbn [andb];
             intros H1 H2; try lia.
           ++ destruct (start * qg + a <? length v); [| exfalso; eapply Hno; eauto].
              exfalso. eapply (Hno d); eauto.
           ++ destruct (start * qg + a <? length v); exfalso; eapply (Hno c); eauto.
           ++ exfalso. eapply (Hno c); eauto.
        -- assert (Hc' : i * qg + c <> start * qg + a) by nia.
           assert (Hd' : i * qg + d <> start * qg + a) by nia.
           destruct (Nat.eqb_spec (i * qg + c) (start * qg + a)); [contradiction |].
           destruct (Nat.eqb_spec (i * qg + d) (start * qg + a)); [contradiction |].
           cbn [andb]. apply Hinv; assumption.
      * rewrite length_set_nth in Hlen. split; [exact Hlen | exact Hres].
Qed.

Lemma sample_data_indip_one_hot (fields : list R) (beta : R) (q : nat) (g : rng)
    (v : list R) (g' : rng) :
  sample_data_indip fields beta q g = Ok (v, g') ->
  length v = length fields /\ one_hot_blocks Req_EM_T 1%R (q - 1) v.
Proof.
  unfold sample_data_indip.
  destruct (Nat.eqb_spec (q - 1) 0) as [| Hq]; [discriminate |].
  intros Hrun.
  assert (Hzero : forall j, nth_error (repeat 0%R (length fields)) j <> Some 1%R).
  { intros j Hj. apply nth_error_In, repeat_spec in Hj. lra. }
  destruct (sample_loop_one_hot fields beta q ltac:(lia) _ _ _ _ _ _ Hrun) as [Hlen Hinv].
  - intros j _. apply Hzero.
  - intros i a b _ _ Ha. exfalso. eapply Hzero, Ha.
  - rewrite repeat_length in Hlen. split; [exact Hlen |].
    apply one_hot_blocks_iff. exact Hinv.
Qed.

(** *** States of the Metropolis chain *)

Lemma length_proposal_block (q_true t_n : nat) :
  length (proposal_block q_true t_n) = q_true - 1.
Proof.
  unfold proposal_block. destruct (t_n =? q_true - 1);
    rewrite ?length_set_nth, repeat_length; reflexivity.
Qed.

Lemma proposal_block_one_hot (q_true t_n a b : nat) :
  nth_error (proposal_block q_true t_n) a = Some 1%Z ->
  nth_error (proposal_block q_true t_n) b = Some 1%Z -> a = b.
Proof.
  assert (Hz : forall k n, nth_error (repeat 0%Z n) k <> Some 1%Z).
  { intros k n H. apply nth_error_In, repeat_spec in H. discriminate. }
  unfold proposal_block. destruct (t_n =? q_true - 1).
  - intros H. exfalso. eapply Hz, H.
  - rewrite !nth_error_set_nth.
    destruct (Nat.eqb_spec a t_n), (Nat.eqb_spec b t_n); cbn [andb]; intros H1 H2;
      [congruence | | |]; exfalso; first [eapply Hz, H2 | eapply Hz, H1].
Qed.

Lemma set_slice_spec (s : list Z) (a b : nat) (t s_t : list Z) :
  set_slice s a b t = Ok s_t -> a < b -> length t = b - a ->
  length s_t = length s /\
  forall j, nth_error s_t j
            = if (a <=? j) && (j <? b) && (b <=? length s)
              then nth_error t (j - a) else nth_error s j.
Proof.
  unfold set_slice. intros H Hab Ht.
  pose proof (length_slice s a b) as Hm.
  destruct (Nat.eqb_spec (length (slice s a b)) (length t)) as [E | E].
  - injection H as <-. rewrite E.
    assert (Hb : b <= length s) by lia.
    split.
    + rewrite !length_app, length_firstn, length_skipn. lia.
    + intros j. rewrite nth_error_app, length_firstn, nth_error_firstn, Nat.min_l by lia.
      destruct (Nat.leb_spec b (length s)); [| lia]. rewrite andb_true_r.
      destruct (Nat.ltb_spec j a), (Nat.leb_spec a j); try lia; cbn [andb];
        [reflexivity |].
      rewrite nth_error_app, nth_error_skipn.
      destruct (Nat.ltb_spec (j - a) (length t)), (Nat.ltb_spec j b); try lia;
        [reflexivity |].
      f_equal. lia.
  - destruct (Nat.eqb_spec (length t) 1) as [E1 | E1]; [| discriminate].
    injection H as <-. split; [apply length_slice_fill; lia |].
    intros j. rewrite nth_error_slice_fill by lia.
    destruct (Nat.leb_spec a j), (Nat.ltb_spec j b), (Nat.ltb_spec j (length s)),
      (Nat.leb_spec b (length s)); cbn [andb]; try reflexivity; lia.
Qed.

Lemma metropolis_step_one_hot (jcoupl : matrix) (p : list R) (beta : R) (q_true : nat)
    (dt : int_dtype) (s : list Z) (g : rng) (s' : list Z) (g' : rng) :
  metropolis_step jcoupl p beta q_true dt (s, g) = Ok (s', g') ->
  one_hot_blocks Z.eq_dec 1%Z (q_true - 1) s ->
  length s' = length s /\ one_hot_blocks Z.eq_dec 1%Z (q_true - 1) s'.
Proof.
  unfold metropolis_step. set (qg := q_true - 1).
  destruct (Nat.eqb_spec qg 0) as [| Hqg]; [discriminate |].
  destruct (randint (length p / qg) g) as [[pos_t g1] | e]; cbn [bind]; [| discriminate].
  destruct (randint q_true g1) as [[t_n g2] | e]; cbn [bind]; [| discriminate].
  destruct (set_slice s _ _ _) as [s_t | e] eqn:Hset; cbn [bind]; [| discriminate].
  destruct (energy_diff _ _ _ _ _ _ _) as [e | e]; cbn [bind]; [| discriminate].
  cbn [next_unif]. intros H Hinv. injection H as Hs' _.
  destruct (Rlt_dec _ _); subst s'; [| split; [reflexivity | exact Hinv]].
  apply set_slice_spec in Hset;
    [| lia | rewrite length_proposal_block; fold qg; lia].
  destruct Hset as [Hlen Hnth]. split; [exact Hlen |].
  rewrite one_hot_blocks_iff in Hinv |- *.
  intros i a b Ha Hb. rewrite !Hnth.
  destruct (Nat.leb_spec ((pos_t + 1) * qg) (length s)); rewrite ?andb_false_r;
    [rewrite !andb_true_r | apply Hinv; assumption].
  destruct (Nat.eq_dec i pos_t) as [-> | Hi].
  - destruct (Nat.leb_spec (pos_t * qg) (pos_t * qg + a)); [| lia].
    destruct (Nat.ltb_spec (pos_t * qg + a) ((pos_t + 1) * qg)); [| lia].
    destruct (Nat.leb_spec (pos_t * qg) (pos_t * qg + b)); [| lia].
    destruct (Nat.ltb_spec (pos_t * qg + b) ((pos_t + 1) * qg)); [| lia].
    cbn [andb].
    replace (pos_t * qg + a - pos_t * qg) with a by lia.
    replace (pos_t * qg + b - pos_t * qg) with b by lia.
    apply proposal_block_one_hot.
  - rewrite (in_block_div qg pos_t (i * qg + a) (pos_t * qg) ((pos_t + 1) * qg)) by lia.
    rewrite (in_block_div qg pos_t (i * qg + b) (pos_t * qg) ((pos_t + 1) * qg)) by lia.
    replace ((i * qg + a) / qg) with i by (apply (Nat.div_unique _ qg i a); lia).
    replace ((i * qg + b) / qg) with i by (apply (Nat.div_unique _ qg i b); lia).
    destruct (Nat.eqb_spec i pos_t); [contradiction |].
    apply Hinv; assumption.
Qed.

Lemma metropolis_loop_one_hot (jcoupl : matrix) (p : list R) (beta : R) (q_true : nat)
    (dt : int_dtype) :
  forall (Nsteps : nat) (s : list Z) (g : rng) (s' : list Z) (g' : rng),
  metropolis_loop Nsteps jcoupl p beta q_true dt (s, g) = Ok (s', g') ->
  one_hot_blocks Z.eq_dec 1%Z (q_true - 1) s ->
  length s' = length s /\ one_hot_blocks Z.eq_dec 1%Z (q_true - 1) s'.
Proof.
  induction Nsteps as [| k IH]; intros s g s' g' Hrun Hinv.
  - cbn in Hrun. injection Hrun as <- _. split; [reflexivity | exact Hinv].
  - cbn [metropolis_loop] in Hrun.
    destruct (metropolis_step jcoupl p beta q_true dt (s, g)) as [[s1 g1] | e] eqn:Hstep;
      cbn [bind] in Hrun; [| discriminate].
    destruct (metropolis_step_one_hot _ _ _ _ _ _ _ _ _ Hstep Hinv) as [Hlen1 Hinv1].
    destruct (IH s1 g1 s' g' Hrun Hinv1) as [Hlen2 Hinv2].
    split; [congruence | exact Hinv2].
Qed.

Lemma zeros_one_hot (qg n : nat) : one_hot_blocks Z.eq_dec 1%Z qg (repeat 0%Z n).
Proof.
  apply one_hot_blocks_iff. intros i a b _ _ H.
  apply nth_error_In, repeat_spec in H. discriminate.
Qed.

Lemma metropolis_one_hot (jcoupl : matrix) (p : list R) (Nsteps : nat) (beta : R)
    (q_true : nat) (start_conf : start_arg) (g : rng)
    (out : list string) (dt : int_dtype) (s : list Z) :
  (forall dt0 v, start_conf = StartInts dt0 v ->
                 one_hot_blocks Z.eq_dec 1%Z (q_true - 1) v) ->
  metropolis jcoupl p Nsteps beta q_true start_conf g = Ok (out, RetState dt s) ->
  one_hot_blocks Z.eq_dec 1%Z (q_true - 1) s.
Proof.
  intros Hstart. unfold metropolis.
  destruct (initial_config p start_conf g) as [[[[dt0 s0] g0] |] | e] eqn:Hinit;
    cbn [bind]; try discriminate.
  destruct (metropolis_loop _ _ _ _ _ _ _) as [[s1 g1] | e] eqn:Hloop;
    cbn [bind]; [| discriminate].
  intros H. injection H as _ _ <-.
  eapply metropolis_loop_one_hot; [exact Hloop |].
  unfold initial_config in Hinit.
  destruct (start_is_nan start_conf) as [[|] | e]; cbn [bind] in Hinit;
    [| | discriminate].
  - destruct (randint_size_one (length p) g) as (g1' & Hg). rewrite Hg in Hinit.
    cbn [bind] in Hinit. injection Hinit as _ <- _.
    rewrite map_repeat. apply zeros_one_hot.
  - destruct (first_not_int32 start_conf) as [[|] | e]; cbn [bind] in Hinit;
      try discriminate.
    destruct start_conf as [| | s2 | l | dt1 v | v]; try discriminate.
    injection Hinit as _ <- _. eapply Hstart. reflexivity.
Qed.

(** ** The local energy difference of the Metropolis step *)

Local Open Scope R_scope.

Lemma Rsum_minus (n : nat) (f g : nat -> R) :
  Rsum n (fun i => f i - g i) = Rsum n f - Rsum n g.
Proof. induction n as [| n IH]; cbn [Rsum]; [| rewrite IH]; ring. Qed.

Lemma Rsum_app (n m : nat) (f : nat -> R) :
  Rsum (n + m) f = Rsum n f + Rsum m (fun k => f (n + k)%nat).
Proof.
  induction m as [| m IH].
  - rewrite Nat.add_0_r. cbn [Rsum]. ring.
  - rewrite Nat.add_succ_r. cbn [Rsum]. rewrite IH. ring.
Qed.

(** A sum whose terms vanish outside the block [[a, a + w)]. *)
Lemma Rsum_block (n a w : nat) (f : nat -> R) :
  (a + w <= n)%nat ->
  (forall i, (i < n)%nat -> ~ (a <= i < a + w)%nat -> f i = 0) ->
  Rsum n f = Rsum w (fun k => f (a + k)%nat).
Proof.
  intros Hn Hz.
  replace n with (a + (w + (n - (a + w))))%nat by lia.
  rewrite Rsum_app, Rsum_app.
  rewrite (Rsum_zero a) by (intros i Hi; apply Hz; lia).
  rewrite (Rsum_zero (n - (a + w))) by (intros i Hi; apply Hz; lia).
  ring.
Qed.

Section QuadraticForm.
Variable n : nat.
Variable J : nat -> nat -> R.
Hypothesis J_sym : forall i j, (i < n)%nat -> (j < n)%nat -> J i j = J j i.

Lemma bilin_sym (X Y : nat -> R) : bilin n J X Y = bilin n J Y X.
Proof.
  unfold bilin.
  rewrite (Rsum_ext n _ (fun i => Rsum n (fun j => X i * J i j * Y j)))
    by (intros i _; rewrite <- Rsum_scal; apply Rsum_ext; intros; ring).
  rewrite Rsum_swap.
  apply Rsum_ext. intros j Hj. rewrite <- Rsum_scal.
  apply Rsum_ext. intros i Hi. rewrite (J_sym i j Hi Hj). ring.
Qed.

Lemma bilin_minus_r (X Y Z : nat -> R) :
  bilin n J X (fun i => Y i - Z i) = bilin n J X Y - bilin n J X Z.
Proof.
  unfold bilin.
  rewrite (Rsum_ext n _ (fun i => X i * Rsum n (fun j => J i j * Y j)
                                  - X i * Rsum n (fun j => J i j * Z j))).
  - apply Rsum_minus.
  - intros i _.
    rewrite (Rsum_ext n (fun j => J i j * (Y j - Z j))
                      (fun j => J i j * Y j - J i j * Z j)) by (intros; ring).
    rewrite Rsum_minus. ring.
Qed.

Lemma bilin_minus_l (X Y Z : nat -> R) :
  bilin n J (fun i => X i - Y i) Z = bilin n J X Z - bilin n J Y Z.
Proof.
  unfold bilin.
  rewrite (Rsum_ext n _ (fun i => X i * Rsum n (fun j => J i j * Z j)
                                  - Y i * Rsum n (fun j => J i j * Z j)))
    by (intros; ring).
  apply Rsum_minus.
Qed.

(** The energy [h . X - 1/2 X . (J X)] changes, from [X] to [X - D], by
    [- D . h + D . (J X) - 1/2 D . (J D)]. *)
Lemma energy_difference_sums (h X D : nat -> R) :
  (Rsum n (fun i => h i * (X i - D i))
   - (1 / 2) * bilin n J (fun i => X i - D i) (fun i => X i - D i))
  - (Rsum n (fun i => h i * X i) - (1 / 2) * bilin n J X X)
  = - Rsum n (fun i => D i * h i) + bilin n J D X - (1 / 2) * bilin n J D D.
Proof.
  rewrite bilin_minus_l, !bilin_minus_r, (bilin_sym X D).
  rewrite (Rsum_ext n (fun i => h i * (X i - D i))
                    (fun i => h i * X i - D i * h i)) by (intros; ring).
  rewrite Rsum_minus. field.
Qed.
End QuadraticForm.

Lemma nth_map_IZR (l : list Z) (k : nat) : nth k (map IZR l) 0 = IZR (nth k l 0%Z).
Proof. exact (map_nth IZR l 0%Z k). Qed.

Lemma vdot_Rsum_fun (u v : list R) (m : nat) (f g : nat -> R) :
  length u = m -> length v = m ->
  (forall k, (k < m)%nat -> nth k u 0 = f k) ->
  (forall k, (k < m)%nat -> nth k v 0 = g k) ->
  vdot u v = Rsum m (fun k => f k * g k).
Proof.
  intros Hu Hv Hf Hg. rewrite (vdot_Rsum u v m Hu Hv).
  apply Rsum_ext. intros k Hk. rewrite Hf, Hg by assumption. reflexivity.
Qed.

Lemma bilin_ext (n : nat) (J : nat -> nat -> R) (X X' Y Y' : nat -> R) :
  (forall i, (i < n)%nat -> X i = X' i) ->
  (forall i, (i < n)%nat -> Y i = Y' i) ->
  bilin n J X Y = bilin n J X' Y'.
Proof.
  intros HX HY. unfold bilin. apply Rsum_ext. intros i Hi.
  rewrite HX by assumption. f_equal.
  apply Rsum_ext. intros j Hj. rewrite HY by assumption. reflexivity.
Qed.

Lemma row_vdot_Rsum (J : matrix) (v : list R) (n i : nat) :
  wf_matrix J -> ncols J = n -> length (rows J) = n -> length v = n -> (i < n)%nat ->
  vdot (nth i (rows J) []) v = Rsum n (fun j => entry J i j * nth j v 0).
Proof.
  intros Hwf Hc Hr Hv Hi. apply vdot_Rsum; [| exact Hv].
  rewrite wf_matrix_nth by (rewrite ?Hr; assumption). exact Hc.
Qed.

(** [bm_energy] as sums over indices. *)
Lemma bm_energy_bilin (J : matrix) (p x : list R) (n : nat) :
  wf_matrix J -> ncols J = n -> length (rows J) = n ->
  length p = n -> length x = n ->
  bm_energy J p x
  = Ok (Rsum n (fun i => Rsum n (fun j => entry J i j * nth j p 0) * nth i x 0)
        - (1 / 2) * bilin n (entry J) (fun i => nth i x 0) (fun i => nth i x 0)).
Proof.
  intros Hwf Hc Hr Hp Hx.
  rewrite (bm_energy_vdot J p x n Hc Hr Hp Hx). f_equal.
  rewrite (vdot_Rsum_fun _ x n (fun i => Rsum n (fun j => entry J i j * nth j p 0))
                         (fun i => nth i x 0));
    try (rewrite ?length_map; assumption); try reflexivity.
  2: { intros k Hk. rewrite nth_matvec. apply row_vdot_Rsum; assumption. }
  rewrite (vdot_Rsum_fun x _ n (fun i => nth i x 0)
                         (fun i => Rsum n (fun j => entry J i j * nth j x 0)));
    try (rewrite ?length_map; assumption); try reflexivity.
  2: { intros k Hk. rewrite nth_matvec. apply row_vdot_Rsum; assumption. }
  unfold bilin. field.
Qed.

Lemma nth_np_subtract (dt : int_dtype) (s s_t : list Z) (i : nat) :
  (i < length s)%nat -> (i < length s_t)%nat ->
  nth i (map (fun xy => wrap dt (fst xy - snd xy)) (combine s s_t)) 0%Z
  = wrap dt (nth i s 0%Z - nth i s_t 0%Z).
Proof.
  intros Hs Ht.
  rewrite (nth_as_nth_error (map _ _)), nth_error_map, nth_error_combine.
  rewrite (nth_error_nth' s 0%Z Hs), (nth_error_nth' s_t 0%Z Ht). reflexivity.
Qed.

Ltac resolve_shape_test :=
  match goal with
  | |- context [Nat.eqb ?x ?y] =>
      replace (Nat.eqb x y) with true
        by (symmetry; apply Nat.eqb_eq;
            repeat (rewrite length_map || rewrite length_slice
                    || rewrite length_combine); lia);
      cbn [bind]
  end.

(** The value [energy_diff] computes, on arrays of matching shapes. *)
Lemma energy_diff_sums (jcoupl : matrix) (p : list R) (q_true pos_t : nat)
    (dt : int_dtype) (s s_t : list Z) (n a w : nat) (D : nat -> R) :
  wf_matrix jcoupl -> ncols jcoupl = n -> length (rows jcoupl) = n ->
  length p = n -> length s = n -> length s_t = n ->
  a = (pos_t * (q_true - 1))%nat -> w = (q_true - 1)%nat -> (a + w <= n)%nat ->
  (forall i, D i = IZR (wrap dt (nth i s 0%Z - nth i s_t 0%Z))) ->
  energy_diff jcoupl p q_true pos_t dt s s_t
  = Ok (- Rsum w (fun k => D (a + k)%nat
                           * Rsum n (fun j => entry jcoupl (a + k) j * nth j p 0))
        + Rsum w (fun k => D (a + k)%nat
                           * Rsum n (fun j => entry jcoupl (a + k) j * IZR (nth j s 0%Z)))
        + - (1 / 2) * Rsum w (fun k => D (a + k)%nat
                                       * Rsum w (fun l => entry jcoupl (a + k) (a + l)
                                                          * D (a + l)%nat))).
Proof.
  intros Hwf Hc Hr Hp Hs Ht Ha Hw Hb HDdef. unfold energy_diff.
  replace ((pos_t + 1) * (q_true - 1))%nat with (a + w)%nat by (subst a w; lia).
  rewrite <- Ha. clear Ha Hw. set (b := (a + w)%nat) in *.
  assert (Hab : (b = a + w)%nat) by reflexivity. clearbody b.
  unfold np_dot_mv, np_subtract, np_dot_vv. cbn [row_slice block ncols rows].
  repeat resolve_shape_test.
  set (Dl := map (fun xy => wrap dt (fst xy - snd xy)) (combine s s_t)).
  assert (HDl : length Dl = n)
    by (subst Dl; rewrite length_map, length_combine; lia).
  assert (HD : forall k, (k < w)%nat -> nth k (map IZR (slice Dl a b)) 0 = D (a + k)%nat).
  { intros k Hk. rewrite nth_map_IZR, nth_slice by lia. subst Dl.
    rewrite nth_np_subtract by lia. symmetry. apply HDdef. }
  assert (Hrow : forall k, (k < w)%nat -> nth k (slice (rows jcoupl) a b) []
                                         = nth (a + k) (rows jcoupl) []).
  { intros k Hk. apply nth_slice. lia. }
  apply f_equal.
  apply (f_equal2 Rplus); [apply (f_equal2 Rplus); [apply f_equal |] | apply f_equal].
  - apply vdot_Rsum_fun; try (rewrite ?length_map, length_slice; lia); [exact HD |].
    intros k Hk. rewrite nth_matvec, Hrow by exact Hk.
    apply row_vdot_Rsum; try assumption; lia.
  - apply vdot_Rsum_fun; try (rewrite ?length_map, length_slice; lia); [exact HD |].
    intros k Hk. rewrite nth_matvec, Hrow by exact Hk.
    rewrite (row_vdot_Rsum jcoupl (map IZR s) n) by (rewrite ?length_map; assumption || lia).
    apply Rsum_ext. intros j Hj. rewrite nth_map_IZR. reflexivity.
  - apply vdot_Rsum_fun; try (rewrite ?length_map, length_slice; lia); [exact HD |].
    intros k Hk.
    rewrite nth_matvec.
    rewrite (nth_indep _ [] ((fun r : list R => slice r a b) []))
      by (rewrite length_map, length_slice; lia).
    rewrite (map_nth (fun r : list R => slice r a b)), Hrow by exact Hk.
    apply vdot_Rsum_fun; try (rewrite ?length_map, length_slice; lia).
    + rewrite length_slice, (wf_matrix_nth jcoupl (a + k) Hwf) by lia. lia.
    + intros l Hl. rewrite nth_slice by lia. reflexivity.
    + exact HD.
Qed.

Lemma wrap_occurrence_diff (dt : int_dtype) (x y : Z) :
  (x = 0 \/ x = 1)%Z -> (y = 0 \/ y = 1)%Z -> wrap dt (x - y) = (x - y)%Z.
Proof.
  intros [-> | ->] [-> | ->]; destruct dt; reflexivity.
Qed.

Lemma nth_occurrence (s : list Z) (i : nat) :
  Forall (fun z => z = 0 \/ z = 1)%Z s -> (nth i s 0 = 0 \/ nth i s 0 = 1)%Z.
Proof.
  intros H. destruct (Nat.lt_ge_cases i (length s)) as [Hi | Hi].
  - rewrite Forall_forall in H. apply H, nth_In, Hi.
  - left. apply nth_overflow, Hi.
Qed.

(** C2: for a symmetric coupling matrix and occurrence states [s], [s_t]
    that agree outside the block of the chosen position, the local formula
    of the Metropolis step equals the full recomputation
    [bm_energy J p s_t - bm_energy J p s]. *)
Theorem energy_diff_matches_bm_energy
    (jcoupl : matrix) (p : list R) (q_true pos_t : nat) (dt : int_dtype)
    (s s_t : list Z) (n : nat) :
  (1 <= q_true)%nat ->
  wf_matrix jcoupl -> ncols jcoupl = n -> length (rows jcoupl) = n ->
  (forall i j, (i < n)%nat -> (j < n)%nat -> entry jcoupl i j = entry jcoupl j i) ->
  length p = n -> length s = n -> length s_t = n ->
  ((pos_t + 1) * (q_true - 1) <= n)%nat ->
  Forall (fun z => z = 0 \/ z = 1)%Z s ->
  Forall (fun z => z = 0 \/ z = 1)%Z s_t ->
  (forall j, ~ (pos_t * (q_true - 1) <= j < (pos_t + 1) * (q_true - 1))%nat ->
             nth j s_t 0%Z = nth j s 0%Z) ->
  exists delta e_t e,
    energy_diff jcoupl p q_true pos_t dt s s_t = Ok delta /\
    bm_energy jcoupl p (map IZR s_t) = Ok e_t /\
    bm_energy jcoupl p (map IZR s) = Ok e /\
    delta = e_t - e.
Proof.
  intros _ Hwf Hc Hr Hsym Hp Hs Ht Hb H01 H01t Hout.
  set (a := (pos_t * (q_true - 1))%nat) in *. set (w := (q_true - 1)%nat) in *.
  assert (Haw : (a + w <= n)%nat) by (subst a w; lia).
  assert (Hbw : ((pos_t + 1) * w = a + w)%nat) by (subst a w; lia).
  rewrite Hbw in Hout. clear Hb Hbw.
  set (X := fun i => IZR (nth i s 0%Z)).
  set (D := fun i => IZR (wrap dt (nth i s 0%Z - nth i s_t 0%Z))).
  assert (HD : forall i, D i = X i - IZR (nth i s_t 0%Z)).
  { intros i. unfold D, X.
    rewrite wrap_occurrence_diff by (apply nth_occurrence; assumption).
    apply minus_IZR. }
  assert (HDout : forall i, ~ (a <= i < a + w)%nat -> D i = 0).
  { intros i Hi. rewrite HD. unfold X. rewrite (Hout i Hi). ring. }
  set (h := fun i => Rsum n (fun j => entry jcoupl i j * nth j p 0)).
  eexists. eexists. eexists.
  split; [apply (energy_diff_sums jcoupl p q_true pos_t dt s s_t n a w D);
          try assumption; try reflexivity |].
  split; [apply (bm_energy_bilin jcoupl p (map IZR s_t) n);
          rewrite ?length_map; assumption |].
  split; [apply (bm_energy_bilin jcoupl p (map IZR s) n);
          rewrite ?length_map; assumption |].
  (* the full recomputation, in terms of [X] and [D] *)
  rewrite (Rsum_ext n (fun i => _ * nth i (map IZR s_t) 0) (fun i => h i * (X i - D i)))
    by (intros i _; rewrite nth_map_IZR, HD; unfold h; ring).
  rewrite (bilin_ext n (entry jcoupl) (fun i => nth i (map IZR s_t) 0) (fun i => X i - D i)
                     (fun i => nth i (map IZR s_t) 0) (fun i => X i - D i))
    by (intros i _; rewrite nth_map_IZR, HD; ring).
  rewrite (Rsum_ext n (fun i => _ * nth i (map IZR s) 0) (fun i => h i * X i))
    by (intros i _; rewrite nth_map_IZR; reflexivity).
  rewrite (bilin_ext n (entry jcoupl) (fun i => nth i (map IZR s) 0) X
                     (fun i => nth i (map IZR s) 0) X)
    by (intros i _; rewrite nth_map_IZR; reflexivity).
  rewrite (energy_difference_sums n (entry jcoupl) Hsym h X D).
  (* the sums of the local formula are the full sums: [D] vanishes outside *)
  unfold bilin.
  rewrite (Rsum_block n a w (fun i => D i * h i)) by
    (try exact Haw; intros i _ Hi; rewrite (HDout i Hi); ring).
  rewrite (Rsum_block n a w (fun i => D i * Rsum n (fun j => entry jcoupl i j * X j))) by
    (try exact Haw; intros i _ Hi; rewrite (HDout i Hi); ring).
  rewrite (Rsum_block n a w (fun i => D i * Rsum n (fun j => entry jcoupl i j * D j))) by
    (try exact Haw; intros i _ Hi; rewrite (HDout i Hi); ring).
  rewrite (Rsum_ext w (fun k => D (a + k)%nat
                                * Rsum n (fun j => entry jcoupl (a + k) j * D j))
                    (fun k => D (a + k)%nat
                              * Rsum w (fun l => entry jcoupl (a + k) (a + l) * D (a + l)%nat))).
  2: { intros k _. f_equal.
       apply (Rsum_block n a w (fun j => entry jcoupl (a + k) j * D j)); [exact Haw |].
       intros j _ Hj. rewrite (HDout j Hj). ring. }
  unfold h, X. field.
Qed.

Lemma energy_diff_matches_bm_energy_witness :
  exists delta e_t e,
    energy_diff {| ncols := 2; rows := [[0; 1]; [1; 0]] |} [1; 0] 2 0 Int32
                [0%Z; 1%Z] [1%Z; 1%Z] = Ok delta /\
    bm_energy {| ncols := 2; rows := [[0; 1]; [1; 0]] |} [1; 0] (map IZR [1%Z; 1%Z])
    = Ok e_t /\
    bm_energy {| ncols := 2; rows := [[0; 1]; [1; 0]] |} [1; 0] (map IZR [0%Z; 1%Z])
    = Ok e /\
    delta = e_t - e.
Proof.
  apply (energy_diff_matches_bm_energy
           {| ncols := 2; rows := [[0; 1]; [1; 0]] |} [1; 0] 2 0 Int32
           [0%Z; 1%Z] [1%Z; 1%Z] 2).
  - lia.
  - repeat constructor.
  - reflexivity.
  - reflexivity.
  - intros i j Hi Hj.
    destruct i as [| [| i]]; destruct j as [| [| j]]; try lia; reflexivity.
  - reflexivity.
  - reflexivity.
  - reflexivity.
  - simpl. lia.
  - apply Forall_forall. simpl. intros z [<- | [<- | []]]; auto.
  - apply Forall_forall. simpl. intros z [<- | [<- | []]]; auto.
  - intros j Hj. destruct j as [| [| j]]; [simpl in Hj; lia | reflexivity |].
    destruct j; reflexivity.
Defined.

(** The step is total on arrays of matching shapes with at least one position. *)
Lemma metropolis_step_total (jcoupl : matrix) (p : list R) (beta : R) (q_true : nat)
    (dt : int_dtype) (s : list Z) (g : rng) (n : nat) :
  wf_matrix jcoupl -> ncols jcoupl = n -> length (rows jcoupl) = n ->
  length p = n -> length s = n ->
  (2 <= q_true)%nat -> (q_true - 1 <= n)%nat ->
  exists s' g', metropolis_step jcoupl p beta q_true dt (s, g) = Ok (s', g') /\
                length s' = n.
Proof.
  intros Hwf Hc Hr Hp Hs Hq Hn. unfold metropolis_step.
  set (qg := (q_true - 1)%nat) in *.
  destruct (Nat.eqb_spec qg 0); [lia |].
  assert (HL : (n / qg <> 0)%nat).
  { intros H0. apply Nat.div_small_iff in H0; lia. }
  unfold randint at 1. rewrite Hp.
  destruct (Nat.eqb_spec (n / qg) 0); [contradiction |]. cbn [next_int bind].
  unfold randint at 1. destruct (Nat.eqb_spec q_true 0); [lia |]. cbn [next_int bind].
  set (pos_t := (ints g 0 mod (n / qg))%nat).
  set (t_n := (ints g 1 mod q_true)%nat).
  assert (Hpos : (pos_t < n / qg)%nat) by (apply Nat.mod_upper_bound; assumption).
  pose proof (Nat.Div0.mul_div_le n qg) as Hdiv.
  assert (Hb : ((pos_t + 1) * qg <= n)%nat) by nia.
  unfold set_slice.
  rewrite length_full_block, length_proposal_block by (rewrite Hs; exact Hb).
  fold qg. rewrite Nat.eqb_refl. cbn [bind].
  set (s_t := firstn _ s ++ _ ++ skipn _ s).
  assert (Hst : length s_t = n).
  { subst s_t. rewrite !length_app, length_firstn, length_skipn, length_proposal_block.
    fold qg. lia. }
  rewrite (energy_diff_sums jcoupl p q_true pos_t dt s s_t n (pos_t * qg) qg
             (fun i => IZR (wrap dt (nth i s 0%Z - nth i s_t 0%Z))));
    try assumption; try reflexivity; try lia.
  cbn [bind next_unif].
  eexists. eexists. split; [reflexivity |].
  destruct (Rlt_dec _ _); assumption.
Qed.

Lemma metropolis_loop_total (jcoupl : matrix) (p : list R) (beta : R) (q_true : nat)
    (dt : int_dtype) (n : nat) :
  wf_matrix jcoupl -> ncols jcoupl = n -> length (rows jcoupl) = n ->
  length p = n -> (2 <= q_true)%nat -> (q_true - 1 <= n)%nat ->
  forall (Nsteps : nat) (s : list Z) (g : rng),
  length s = n ->
  exists s' g', metropolis_loop Nsteps jcoupl p beta q_true dt (s, g) = Ok (s', g') /\
                length s' = n.
Proof.
  intros Hwf Hc Hr Hp Hq Hn. induction Nsteps as [| k IH]; intros s g Hs.
  - exists s, g. split; [reflexivity | exact Hs].
  - cbn [metropolis_loop].
    destruct (metropolis_step_total jcoupl p beta q_true dt s g n)
      as (s1 & g1 & Hstep & Hs1); try assumption.
    rewrite Hstep. cbn [bind]. apply IH, Hs1.
Qed.

(** With the default start, [metropolis] returns a chain state. *)
Lemma metropolis_total (jcoupl : matrix) (p : list R) (Nsteps : nat) (beta : R)
    (q_true : nat) (g : rng) (n : nat) :
  wf_matrix jcoupl -> ncols jcoupl = n -> length (rows jcoupl) = n ->
  length p = n -> (2 <= q_true)%nat -> (q_true - 1 <= n)%nat ->
  exists s, metropolis jcoupl p Nsteps beta q_true StartNaN g = Ok ([], RetState np_int_ s) /\
            length s = n.
Proof.
  intros Hwf Hc Hr Hp Hq Hn. unfold metropolis.
  destruct (initial_config_default p g) as (g' & ->). cbn [bind].
  destruct (metropolis_loop_total jcoupl p beta q_true np_int_ n Hwf Hc Hr Hp Hq Hn
              Nsteps (repeat 0%Z (length p)) g') as (s & g1 & Hloop & Hs).
  { rewrite repeat_length. exact Hp. }
  rewrite Hloop. cbn [bind]. exists s. split; [reflexivity | exact Hs].
Qed.

Local Close Scope R_scope.

(** ** Totality on well-formed inputs *)

Lemma length_mapM {A B : Type} (f : A -> res B) (l : list A) (l' : list B) :
  mapM f l = Ok l' -> length l' = length l.
Proof.
  revert l'. induction l as [| x l IH]; intros l' H; cbn [mapM] in H.
  - injection H as <-. reflexivity.
  - destruct (f x) as [y | e]; cbn [bind] in H; [| discriminate].
    destruct (mapM f l) as [ys | e]; cbn [bind] in H; [| discriminate].
    injection H as <-. cbn. f_equal. apply IH. reflexivity.
Qed.

Lemma encode_str_total (s : string) :
  over_alphabet s ->
  exists row, encode_str s = Ok row /\ length row = length (list_ascii_of_string s).
Proof.
  intros Hs. destruct (encode_decode_chars _ Hs) as (row & Henc & _).
  exists row. split; [exact Henc |]. eapply length_mapM, Henc.
Qed.

Lemma encode_alignment_total (l : list string) (N : nat) :
  Forall over_alphabet l ->
  Forall (fun s => length (list_ascii_of_string s) = N) l ->
  exists rows, mapM encode_str l = Ok rows /\ length rows = length l /\
               Forall (fun r => length r = N) rows.
Proof.
  induction l as [| s l IH]; intros Halpha Hlen.
  - exists []. repeat split; constructor.
  - inversion Halpha as [| ? ? Hs Hl]; subst. inversion Hlen as [| ? ? Hn Hln]; subst.
    destruct (encode_str_total s Hs) as (row & Hrow & Hrl).
    destruct (IH Hl Hln) as (rows & Hrows & Hrsl & Hall).
    exists (row :: rows). cbn [mapM]. rewrite Hrow. cbn [bind]. rewrite Hrows. cbn [bind].
    repeat split; [cbn; congruence |]. constructor; assumption.
Qed.

(** On an alignment of equal-length sequences over the alphabet
    [seq2occurrence] returns one row per sequence. *)
Lemma seq2occurrence_total (l : list string) (q_true N : nat) :
  l <> [] ->
  Forall over_alphabet l ->
  Forall (fun s => length (list_ascii_of_string s) = N) l ->
  exists M, seq2occurrence (PyList l) q_true = Ok M /\ length M = length l.
Proof.
  intros Hne Halpha Hlen.
  destruct (encode_alignment_total l N Halpha Hlen) as (rows & Hrows & Hrl & Hall).
  unfold seq2occurrence, seq2num. rewrite Hrows. cbn [bind].
  destruct rows as [| r rows]; [destruct l; [contradiction | discriminate] |].
  unfold np_array.
  assert (Hfb : forallb (fun r' => length r' =? length r) rows = true).
  { apply forallb_forall. intros r' Hr'. apply Nat.eqb_eq.
    rewrite Forall_forall in Hall.
    rewrite (Hall r' (or_intror Hr')), (Hall r (or_introl eq_refl)). reflexivity. }
  rewrite Hfb. cbn [bind]. eexists. split; [reflexivity |].
  set (colf := fun i a => eq_mask (column (r :: rows) i) a).
  destruct (occurrence_loop_row colf (q_true - 1) 0 (seq 0 (length (hd [] (r :: rows))))
              (repeat (repeat 0%Z (length (hd [] (r :: rows)) * (q_true - 1)))
                      (length (r :: rows)))) as [Hl _].
  { intros i a. unfold colf, eq_mask, column. rewrite !length_map, repeat_length.
    reflexivity. }
  unfold colf in Hl. cbn beta in Hl. rewrite Hl, repeat_length. exact Hrl.
Qed.

Lemma choice_total (q : nat) (probs : list R) (g : rng) :
  q <> 0 -> length probs = q ->
  choice q probs g
  = Ok (ints g 0 mod q, {| ints := fun k => ints g (S k); unifs := unifs g |}).
Proof.
  intros Hq Hl. unfold choice. rewrite Hl, Nat.eqb_refl.
  destruct (Nat.eqb_spec q 0); [contradiction | reflexivity].
Qed.

Lemma length_site_probs (beta : R) (block_fields : list R) :
  length (site_probs beta block_fields) = length block_fields + 1.
Proof.
  unfold site_probs. rewrite length_map, length_app, length_map. reflexivity.
Qed.

Lemma sample_loop_total (fields : list R) (beta : R) (q : nat) :
  2 <= q ->
  forall (len start : nat) (v : list R) (g : rng),
  (start + len) * (q - 1) <= length fields ->
  exists v' g',
    foldM (fun (st : list R * rng) i =>
             let (new_data, g0) := st in
             let freqs := site_probs beta (slice fields (i * (q - 1)) ((i + 1) * (q - 1))) in
             ' (a, g1) <- choice q freqs g0 ;;
             if negb (a =? q - 1)
             then Ok (set_nth (i * (q - 1) + a) 1%R new_data, g1)
             else Ok (new_data, g1))
          (seq start len) (v, g) = Ok (v', g').
Proof.
  intros Hq. induction len as [| len IH]; intros start v g Hlen.
  - exists v, g. reflexivity.
  - cbn [seq foldM]. cbn zeta.
    rewrite choice_total
      by (try lia; rewrite length_site_probs, length_full_block by nia; lia).
    cbn [bind].
    destruct (negb _); cbn [bind]; apply IH; nia.
Qed.

(** [sample_data_indip] returns a vector for every field vector. *)
Lemma sample_data_indip_total (fields : list R) (beta : R) (q : nat) (g : rng) :
  2 <= q -> exists v g', sample_data_indip fields beta q g = Ok (v, g').
Proof.
  intros Hq. unfold sample_data_indip.
  destruct (Nat.eqb_spec (q - 1) 0); [lia |].
  apply sample_loop_total; [exact Hq |].
  pose proof (Nat.Div0.mul_div_le (length fields) (q - 1)). lia.
Qed.

(** C7: every occurrence vector the program produces keeps the one-hot block
    invariant, each block of [q - 1] entries holding at most one 1: every row
    returned by [seq2occurrence], every vector returned by
    [sample_data_indip], and the state [metropolis] returns after any number
    of steps, provided a start configuration given by the caller satisfies
    the invariant (the default start always does). *)
Theorem one_hot_block_invariant
    (seqs_AA : seq_arg) (q_true : nat)
    (fields : list R) (beta : R) (g : rng)
    (jcoupl : matrix) (p : list R) (Nsteps : nat) (start_conf : start_arg) (g2 : rng) :
  1 <= q_true ->
  (forall M, seq2occurrence seqs_AA q_true = Ok M ->
             Forall (one_hot_blocks Z.eq_dec 1%Z (q_true - 1)) M) /\
  (forall v g', sample_data_indip fields beta q_true g = Ok (v, g') ->
                one_hot_blocks Req_EM_T 1%R (q_true - 1) v) /\
  (forall out dt s,
     (forall dt0 v, start_conf = StartInts dt0 v ->
                    one_hot_blocks Z.eq_dec 1%Z (q_true - 1) v) ->
     metropolis jcoupl p Nsteps beta q_true start_conf g2 = Ok (out, RetState dt s) ->
     one_hot_blocks Z.eq_dec 1%Z (q_true - 1) s).
Proof.
  intros _. split; [| split].
  - intros M HM. eapply seq2occurrence_one_hot, HM.
  - intros v g' Hv. eapply sample_data_indip_one_hot, Hv.
  - intros out dt s Hstart Hrun. eapply metropolis_one_hot; eassumption.
Qed.

Lemma one_hot_block_invariant_witness :
  Forall (one_hot_blocks Z.eq_dec 1%Z (2 - 1)) [[0%Z; 1%Z]; [1%Z; 0%Z]] /\
  one_hot_blocks Req_EM_T 1%R (2 - 1) [1%R] /\
  one_hot_blocks Z.eq_dec 1%Z (2 - 1) [1%Z].
Proof.
  destruct (one_hot_block_invariant
              (PyList ["A-"%string; "-A"%string]) 2
              [0%R] 1%R zero_rng
              {| ncols := 1; rows := [[0%R]] |} [0%R] 1 StartNaN zero_rng
              ltac:(lia))
    as (Hrows & Hsample & Hchain).
  split; [apply Hrows; reflexivity |].
  split; [eapply Hsample; reflexivity |].
  eapply (Hchain [] np_int_).
  - intros dt0 v H. discriminate H.
  - exact metropolis_example_run.
Defined.

(** The state proposed by a Metropolis step is an occurrence state that
    differs from the current one only in the block of the drawn position. *)
Lemma proposal_state_valid (s : list Z) (q_true pos_t t_n : nat) (s_t : list Z) :
  2 <= q_true ->
  Forall (fun z => z = 0 \/ z = 1)%Z s ->
  set_slice s (pos_t * (q_true - 1)) ((pos_t + 1) * (q_true - 1))
            (proposal_block q_true t_n) = Ok s_t ->
  length s_t = length s /\
  Forall (fun z => z = 0 \/ z = 1)%Z s_t /\
  forall j, ~ (pos_t * (q_true - 1) <= j < (pos_t + 1) * (q_true - 1)) ->
            nth j s_t 0%Z = nth j s 0%Z.
Proof.
  intros Hq H01 Hset.
  apply set_slice_spec in Hset; [| lia | rewrite length_proposal_block; lia].
  destruct Hset as [Hlen Hnth]. split; [exact Hlen |]. split.
  - apply Forall_nth_error_iff. intros j x Hj. rewrite Hnth in Hj.
    destruct ((pos_t * (q_true - 1) <=? j) && (j <? (pos_t + 1) * (q_true - 1))
              && ((pos_t + 1) * (q_true - 1) <=? length s)).
    + apply nth_error_In in Hj. unfold proposal_block in Hj.
      destruct (t_n =? q_true - 1).
      * apply repeat_spec in Hj. auto.
      * apply In_nth_error in Hj. destruct Hj as (k & Hk).
        rewrite nth_error_set_nth in Hk.
        destruct ((k =? t_n) && (t_n <? length (repeat 0%Z (q_true - 1)))).
        -- injection Hk as <-. auto.
        -- apply nth_error_In, repeat_spec in Hk. auto.
    + rewrite Forall_nth_error_iff in H01. eapply H01, Hj.
  - intros j Hj. rewrite !nth_as_nth_error, Hnth.
    destruct (Nat.leb_spec (pos_t * (q_true - 1)) j),
      (Nat.ltb_spec j ((pos_t + 1) * (q_true - 1))); cbn [andb]; try reflexivity.
    lia.
Qed.

(* ===================================================================== *)
(** * Further properties of the notebook's functions *)
(* ===================================================================== *)

(** ** [read_fasta] *)

Lemma foldM_app {A B : Type} (f : A -> B -> res A) (l1 l2 : list B) (a : A) :
  foldM f (l1 ++ l2) a = (a' <- foldM f l1 a ;; foldM f l2 a').
Proof.
  revert a. induction l1 as [| x l1 IH]; intros a; cbn [app foldM bind]; [reflexivity |].
  destruct (f a x) as [a1 | e]; cbn [bind]; [apply IH | reflexivity].
Qed.

Lemma rstrip_app_space (s : string) (c : ascii) :
  is_space c = true -> rstrip (s ++ String c EmptyString) = rstrip s.
Proof.
  intros Hc. induction s as [| a s IH]; cbn [String.append rstrip].
  - rewrite Hc. reflexivity.
  - rewrite IH. reflexivity.
Qed.

Lemma rstrip_cons (c : ascii) (s : string) :
  is_space c = false -> rstrip (String c s) = String c (rstrip s).
Proof.
  intros Hc. cbn [rstrip]. destruct (rstrip s); [rewrite Hc |]; reflexivity.
Qed.

Lemma header_line_step (seqs labels : list string) (t_s lab : string) :
  rstrip lab = lab ->
  read_fasta_line (seqs, labels, t_s) (String ">" lab ++ String "010" EmptyString)
  = Ok (if 0 <? String.length t_s then seqs ++ [t_s] else seqs,
        labels ++ [lab], EmptyString).
Proof.
  intros Hlab. unfold read_fasta_line.
  rewrite rstrip_app_space by reflexivity.
  rewrite rstrip_cons by reflexivity. rewrite Hlab. reflexivity.
Qed.

Lemma sequence_line_step (seqs labels : list string) (t_s c : string) :
  sequence_line c ->
  read_fasta_line (seqs, labels, t_s) (c ++ String "010" EmptyString)
  = Ok (seqs, labels, (t_s ++ c)%string).
Proof.
  intros [Hstrip Hhead]. unfold read_fasta_line.
  rewrite rstrip_app_space by reflexivity. rewrite Hstrip.
  destruct c as [| a c]; [contradiction |].
  destruct (Ascii.eqb_spec a ">"); [contradiction | reflexivity].
Qed.

Lemma string_append_assoc (a b c : string) :
  ((a ++ b) ++ c = a ++ (b ++ c))%string.
Proof. induction a as [| x a IH]; cbn; [| rewrite IH]; reflexivity. Qed.

Lemma string_append_nil_r (a : string) : (a ++ EmptyString)%string = a.
Proof. induction a as [| x a IH]; cbn; [| rewrite IH]; reflexivity. Qed.

Lemma sequence_lines_steps (seqs labels : list string) (chunks : list string) :
  Forall sequence_line chunks ->
  forall t_s,
  foldM read_fasta_line (map (fun c => (c ++ String "010" EmptyString)%string) chunks)
        (seqs, labels, t_s)
  = Ok (seqs, labels, (t_s ++ fold_right String.append EmptyString chunks)%string).
Proof.
  induction 1 as [| c chunks Hc _ IH]; intros t_s; cbn [map foldM fold_right].
  - rewrite string_append_nil_r. reflexivity.
  - rewrite sequence_line_step by exact Hc. cbn [bind].
    rewrite IH, string_append_assoc. reflexivity.
Qed.

Lemma record_seq_nonempty (r : string * list string) :
  well_formed_record r -> 0 < String.length (record_seq r).
Proof.
  intros (_ & Hne & Hall). unfold record_seq.
  destruct (snd r) as [| c chunks]; [contradiction |].
  inversion Hall as [| ? ? [_ Hc] _]; subst.
  destruct c; [contradiction |]. cbn. lia.
Qed.

Lemma read_fasta_records_from (records : list (string * list string)) :
  Forall well_formed_record records ->
  forall seqs labels t_s,
  (' (seqs', labels', t_s') <-
     foldM read_fasta_line (flat_map record_lines records) (seqs, labels, t_s) ;;
   Ok (labels', seqs' ++ [t_s']))
  = Ok (labels ++ map fst records,
        seqs ++ match records with
                | [] => [t_s]
                | _ :: _ => (if 0 <? String.length t_s then [t_s] else [])
                            ++ map record_seq records
                end).
Proof.
  induction 1 as [| r records Hr _ IH]; intros seqs labels t_s.
  - cbn. rewrite app_nil_r. reflexivity.
  - cbn [flat_map]. rewrite foldM_app.
    destruct Hr as (Hlab & Hne & Hall). unfold record_lines at 1. cbn [foldM].
    rewrite header_line_step by exact Hlab. cbn [bind].
    rewrite sequence_lines_steps by exact Hall. cbn [bind String.append].
    rewrite IH. cbn [map]. f_equal. f_equal; [rewrite <- app_assoc; reflexivity |].
    fold (record_seq r).
    pose proof (record_seq_nonempty r (conj Hlab (conj Hne Hall))) as Hpos.
    apply Nat.ltb_lt in Hpos.
    destruct (0 <? String.length t_s); cbn [app];
      destruct records; rewrite ?Hpos, <- ?app_assoc; reflexivity.
Qed.

(** X1: on a file made of well-formed records (a header line, then one or
    more non-empty lines of sequence text without trailing whitespace)
    [read_fasta] returns the labels and the sequences, each sequence the
    concatenation of its lines, in file order. *)
Theorem read_fasta_records (records : list (string * list string)) :
  records <> [] ->
  Forall well_formed_record records ->
  read_fasta (flat_map record_lines records)
  = Ok (map fst records, map record_seq records).
Proof.
  intros Hne Hwf. unfold read_fasta.
  rewrite (read_fasta_records_from records Hwf [] [] EmptyString).
  destruct records; [contradiction | reflexivity].
Qed.

Lemma read_fasta_records_witness :
  read_fasta (flat_map record_lines
                [("seq1"%string, ["AC"%string; "DE"%string]); ("seq2"%string, ["-Y"%string])])
  = Ok (map fst [("seq1"%string, ["AC"%string; "DE"%string]); ("seq2"%string, ["-Y"%string])],
        map record_seq
            [("seq1"%string, ["AC"%string; "DE"%string]); ("seq2"%string, ["-Y"%string])]).
Proof.
  apply (read_fasta_records
           [("seq1"%string, ["AC"%string; "DE"%string]); ("seq2"%string, ["-Y"%string])]).
  - discriminate.
  - repeat constructor; try discriminate; simpl; intros H; discriminate H.
Defined.

Lemma read_fasta_line_blank (st : list string * list string * string) (l : string) :
  rstrip l = EmptyString -> read_fasta_line st l = Raise IndexError.
Proof.
  intros H. destruct st as [[seqs labels] t_s]. unfold read_fasta_line.
  rewrite H. reflexivity.
Qed.

Lemma read_fasta_line_raises (st : list string * list string * string) (l : string)
    (e : exn) :
  read_fasta_line st l = Raise e -> e = IndexError.
Proof.
  destruct st as [[seqs labels] t_s]. unfold read_fasta_line.
  destruct (rstrip l) as [| c rest]; [congruence |].
  destruct (Ascii.eqb c ">"); discriminate.
Qed.

(** X2: a line that is empty once stripped (a blank line, also at the end of
    the file) makes [read_fasta] raise [IndexError], whatever the rest of the
    file holds. *)
Theorem read_fasta_blank_line (lines : list string) :
  Exists (fun l => rstrip l = EmptyString) lines ->
  read_fasta lines = Raise IndexError.
Proof.
  intros Hex. unfold read_fasta.
  generalize (@nil string, @nil string, EmptyString) as st.
  induction Hex as [l lines Hl | l lines _ IH]; intros st; cbn [foldM].
  - rewrite read_fasta_line_blank by exact Hl. reflexivity.
  - destruct (read_fasta_line st l) as [st' | e] eqn:E; cbn [bind].
    + apply IH.
    + apply read_fasta_line_raises in E. subst e. reflexivity.
Qed.

Lemma read_fasta_blank_line_witness :
  read_fasta [">a"%string; "AC"%string; String "010" EmptyString] = Raise IndexError.
Proof.
  apply (read_fasta_blank_line [">a"%string; "AC"%string; String "010" EmptyString]).
  right. right. left. reflexivity.
Defined.

Lemma read_fasta_loop_counts (lines : list string) :
  Forall (fun l => rstrip l <> EmptyString) lines ->
  forall seqs labels t_s,
  length seqs <= length labels ->
  exists seqs' labels' t_s',
    foldM read_fasta_line lines (seqs, labels, t_s) = Ok (seqs', labels', t_s') /\
    length labels' = length labels + length (filter is_header lines) /\
    length seqs' <= length labels'.
Proof.
  induction 1 as [| l lines Hl _ IH]; intros seqs labels t_s Hle.
  - exists seqs, labels, t_s. cbn. repeat split; [lia | exact Hle].
  - cbn [foldM filter]. unfold read_fasta_line at 1, is_header at 1.
    destruct (rstrip l) as [| c rest]; [contradiction |].
    destruct (Ascii.eqb c ">"); cbn [bind].
    + edestruct (IH (if 0 <? String.length t_s then seqs ++ [t_s] else seqs)
                    (labels ++ [rest]) EmptyString) as (s' & l' & t' & Hrun & Hlab & Hseq).
      { destruct (0 <? String.length t_s); rewrite !length_app; cbn [length]; lia. }
      exists s', l', t'. rewrite Hrun. rewrite length_app in Hlab. cbn [length] in *.
      repeat split; [lia | exact Hseq].
    + edestruct (IH seqs labels (t_s ++ String c rest)%string Hle)
        as (s' & l' & t' & Hrun & Hlab & Hseq).
      exists s', l', t'. rewrite Hrun. repeat split; assumption.
Qed.

(** X3: on a file without blank lines [read_fasta] returns; there is one
    label per header line, and between one sequence and one more than there
    are labels, so the two lists need not line up (the empty file gives no
    label and one empty sequence). *)
Theorem read_fasta_counts (lines : list string) :
  Forall (fun l => rstrip l <> EmptyString) lines ->
  exists labels seqs,
    read_fasta lines = Ok (labels, seqs) /\
    length labels = length (filter is_header lines) /\
    1 <= length seqs <= length labels + 1.
Proof.
  intros Hlines. unfold read_fasta.
  destruct (read_fasta_loop_counts lines Hlines [] [] EmptyString (le_n _))
    as (seqs & labels & t_s & Hrun & Hlab & Hseq).
  rewrite Hrun. cbn [bind]. exists labels, (seqs ++ [t_s]).
  rewrite length_app. cbn [length] in *. repeat split; lia.
Qed.

Lemma read_fasta_counts_witness :
  exists labels seqs,
    read_fasta [">a"%string; ">b"%string; "AC"%string] = Ok (labels, seqs) /\
    length labels = length (filter is_header [">a"%string; ">b"%string; "AC"%string]) /\
    1 <= length seqs <= length labels + 1.
Proof.
  apply (read_fasta_counts [">a"%string; ">b"%string; "AC"%string]).
  repeat constructor; discriminate.
Defined.

(** ** Errors and bounds of the codec *)

Lemma dict_get_raises (d : list (ascii * Z)) (c : ascii) (e : exn) :
  dict_get d c = Raise e -> e = KeyError.
Proof.
  induction d as [| [k v] d IH]; cbn [dict_get]; [congruence |].
  destruct (Ascii.eqb k c); [discriminate | exact IH].
Qed.

Lemma dict_get_unknown (c : ascii) : ~ In c AAs -> dict_get ntdict c = Raise KeyError.
Proof.
  intros H. unfold AAs in H. cbn [list_ascii_of_string In] in H.
  let d := eval vm_compute in ntdict in change ntdict with d.
  cbn [dict_get].
  repeat match goal with
         | |- context [Ascii.eqb ?k c] =>
             destruct (Ascii.eqb_spec k c) as [E | _]; [exfalso; apply H; tauto |]
         end.
  reflexivity.
Qed.

Lemma encode_chars_unknown (cs : list ascii) :
  Exists (fun c => ~ In c AAs) cs -> mapM (dict_get ntdict) cs = Raise KeyError.
Proof.
  induction 1 as [c cs Hc | c cs _ IH]; cbn [mapM].
  - rewrite dict_get_unknown by exact Hc. reflexivity.
  - destruct (dict_get ntdict c) as [k | e] eqn:E; cbn [bind].
    + rewrite IH. reflexivity.
    + apply dict_get_raises in E. subst e. reflexivity.
Qed.

Lemma encode_str_raises (s : string) (e : exn) : encode_str s = Raise e -> e = KeyError.
Proof.
  unfold encode_str. generalize (list_ascii_of_string s) as cs.
  induction cs as [| c cs IH]; cbn [mapM]; [discriminate |].
  destruct (dict_get ntdict c) as [k | e1] eqn:E; cbn [bind].
  - destruct (mapM (dict_get ntdict) cs) as [ks | e2]; cbn [bind]; [discriminate |].
    intros H. injection H as <-. apply IH. reflexivity.
  - intros H. injection H as <-. eapply dict_get_raises, E.
Qed.

Lemma encode_list_unknown (l : list string) :
  Exists unknown_symbol_in l -> mapM encode_str l = Raise KeyError.
Proof.
  induction 1 as [s l Hs | s l _ IH]; cbn [mapM].
  - unfold encode_str at 1. rewrite encode_chars_unknown by exact Hs. reflexivity.
  - destruct (encode_str s) as [r | e] eqn:E; cbn [bind].
    + rewrite IH. reflexivity.
    + apply encode_str_raises in E. subst e. reflexivity.
Qed.

(** X4: a character outside the 21-symbol alphabet (a lower-case letter, a
    blank, an X) anywhere in the input makes [seq2num], and with it
    [seq2occurrence], raise [KeyError]. *)
Theorem seq2num_unknown_symbol (seq : seq_arg) (q_true : nat) :
  has_unknown_symbol seq ->
  seq2num seq = Raise KeyError /\ seq2occurrence seq q_true = Raise KeyError.
Proof.
  intros H.
  assert (Hnum : seq2num seq = Raise KeyError).
  { destruct seq as [s | l]; cbn [has_unknown_symbol] in H; unfold seq2num.
    - unfold encode_str. rewrite encode_chars_unknown by exact H. reflexivity.
    - rewrite encode_list_unknown by exact H. reflexivity. }
  split; [exact Hnum |]. unfold seq2occurrence. rewrite Hnum. reflexivity.
Qed.

Lemma seq2num_unknown_symbol_witness :
  seq2num (PyList ["AC"%string; "Ax"%string]) = Raise KeyError /\
  seq2occurrence (PyList ["AC"%string; "Ax"%string]) 21 = Raise KeyError.
Proof.
  apply (seq2num_unknown_symbol (PyList ["AC"%string; "Ax"%string]) 21).
  right. left. right. left.
  unfold AAs. simpl. intros H.
  repeat (destruct H as [H | H]; [discriminate H |]). exact H.
Defined.

Lemma mapM_Forall2 {A B : Type} (f : A -> res B) (l : list A) (l2 : list B) :
  mapM f l = Ok l2 -> Forall2 (fun x y => f x = Ok y) l l2.
Proof.
  revert l2. induction l as [| x l IH]; intros l2 H; cbn [mapM] in H.
  - injection H as <-. constructor.
  - destruct (f x) as [y | e] eqn:E; cbn [bind] in H; [| discriminate].
    destruct (mapM f l) as [ys | e]; cbn [bind] in H; [| discriminate].
    injection H as <-. constructor; [exact E | apply IH; reflexivity].
Qed.

Lemma length_chars (s : string) : length (list_ascii_of_string s) = String.length s.
Proof. induction s as [| c s IH]; cbn; [| rewrite IH]; reflexivity. Qed.

Lemma encode_str_length (s : string) (r : list Z) :
  encode_str s = Ok r -> length r = String.length s.
Proof.
  intros H. apply length_mapM in H. rewrite H. apply length_chars.
Qed.

(** X5: an alignment over the alphabet holding two sequences of different
    lengths makes [seq2num], and with it [seq2occurrence], raise
    [ValueError]. *)
Theorem seq2num_unequal_lengths (l : list string) (q_true : nat) (s1 s2 : string) :
  Forall over_alphabet l ->
  In s1 l -> In s2 l -> String.length s1 <> String.length s2 ->
  seq2num (PyList l) = Raise ValueError /\
  seq2occurrence (PyList l) q_true = Raise ValueError.
Proof.
  intros Halpha H1 H2 Hlen.
  assert (Hnum : seq2num (PyList l) = Raise ValueError).
  { unfold seq2num.
    assert (Hrows : exists rows, mapM encode_str l = Ok rows).
    { clear -Halpha. induction Halpha as [| s l Hs _ (rows & IH)].
      - exists []. reflexivity.
      - destruct (encode_str_total s Hs) as (r & Hr & _).
        exists (r :: rows). cbn [mapM]. rewrite Hr. cbn [bind]. rewrite IH. reflexivity. }
    destruct Hrows as (rows & Hrows). rewrite Hrows. cbn [bind].
    pose proof (mapM_Forall2 _ _ _ Hrows) as HF.
    assert (Hrow : forall s, In s l ->
              exists r, In r rows /\ length r = String.length s).
    { clear -HF. induction HF as [| s r l rows Hsr _ IH]; intros s0 [].
      - subst s0. exists r. split; [left; reflexivity | eapply encode_str_length, Hsr].
      - destruct (IH s0 H) as (r0 & Hin & Hl). exists r0. split; [right |]; assumption. }
    destruct (Hrow s1 H1) as (r1 & Hr1 & Hl1).
    destruct (Hrow s2 H2) as (r2 & Hr2 & Hl2).
    unfold np_array. destruct rows as [| r rs]; [contradiction |].
    destruct (forallb (fun r0 => length r0 =? length r) rs) eqn:Hfb; [| reflexivity].
    exfalso. rewrite forallb_forall in Hfb.
    assert (Hall : forall r0, In r0 (r :: rs) -> length r0 = length r).
    { intros r0 [<- | Hin]; [reflexivity | apply Nat.eqb_eq, Hfb, Hin]. }
    rewrite <- Hl1, <- Hl2, (Hall r1 Hr1), (Hall r2 Hr2) in Hlen. contradiction. }
  split; [exact Hnum |]. unfold seq2occurrence. rewrite Hnum. reflexivity.
Qed.

Lemma seq2num_unequal_lengths_witness :
  seq2num (PyList ["AC"%string; "A"%string]) = Raise ValueError /\
  seq2occurrence (PyList ["AC"%string; "A"%string]) 21 = Raise ValueError.
Proof.
  apply (seq2num_unequal_lengths ["AC"%string; "A"%string] 21 "AC" "A").
  - unfold over_alphabet, AAs. simpl. repeat constructor; simpl; tauto.
  - left. reflexivity.
  - right. left. reflexivity.
  - simpl. lia.
Defined.

Lemma list_getitem_AAs (x : Z) :
  (-21 <= x < 21)%Z -> list_getitem AAs x = Ok (decode_symbol x).
Proof.
  intros Hx. unfold list_getitem, decode_symbol.
  change (Z.of_nat (length AAs)) with 21%Z.
  assert (Hk : ((if x <? 0 then x + 21 else x) = x mod 21)%Z).
  { destruct (Z.ltb_spec x 0).
    - apply (Z.mod_unique x 21 (-1) (x + 21)); lia.
    - symmetry. apply Z.mod_small. lia. }
  rewrite Hk.
  pose proof (Z.mod_pos_bound x 21 ltac:(lia)) as Hb.
  destruct (Z.leb_spec 0 (x mod 21)); [| lia].
  destruct (Z.ltb_spec (x mod 21) 21); [| lia]. cbn [andb].
  rewrite (nth_error_nth' AAs "-"%char); [reflexivity |].
  change (length AAs) with 21. lia.
Qed.

Lemma list_getitem_out_of_range {A : Type} (l : list A) (x : Z) :
  (x < - Z.of_nat (length l) \/ Z.of_nat (length l) <= x)%Z ->
  list_getitem l x = Raise IndexError.
Proof.
  intros Hx. unfold list_getitem.
  destruct (Z.ltb_spec x 0);
    [destruct (Z.leb_spec 0 (x + Z.of_nat (length l)))
    | destruct (Z.leb_spec 0 x)]; cbn [andb]; try reflexivity; try lia.
  destruct (Z.ltb_spec x (Z.of_nat (length l))); [lia | reflexivity].
Qed.

Lemma list_getitem_raises {A : Type} (l : list A) (x : Z) (e : exn) :
  list_getitem l x = Raise e -> e = IndexError.
Proof.
  unfold list_getitem. destruct (_ && _); [| congruence].
  destruct (nth_error l _); congruence.
Qed.

(** X6: [num2seq] accepts every list (or one-dimensional array) of codes in
    [[-21, 21)] and decodes it symbol by symbol; a negative code is not
    refused but counts from the end of the alphabet, so that [-1] decodes
    like [20]. *)
Theorem num2seq_codes_in_range (l : list Z) :
  Forall (fun x => -21 <= x < 21)%Z l ->
  num2seq (NumList l) = Ok (string_of_list_ascii (map decode_symbol l)) /\
  num2seq (NumArr (Arr1 l)) = Ok (string_of_list_ascii (map decode_symbol l)) /\
  map decode_symbol l = map decode_symbol (map (fun x => x mod 21)%Z l).
Proof.
  intros H.
  assert (Hm : mapM (list_getitem AAs) l = Ok (map decode_symbol l)).
  { induction H as [| x l Hx _ IH]; [reflexivity |].
    cbn [mapM map]. rewrite list_getitem_AAs by exact Hx. cbn [bind]. rewrite IH.
    reflexivity. }
  cbn [num2seq]. rewrite Hm. cbn [bind]. repeat split.
  rewrite map_map. apply map_ext. intros x. unfold decode_symbol.
  rewrite Z.mod_mod by lia. reflexivity.
Qed.

Lemma num2seq_codes_in_range_witness :
  num2seq (NumList [1; -1; 20]%Z)
  = Ok (string_of_list_ascii (map decode_symbol [1; -1; 20]%Z)) /\
  num2seq (NumArr (Arr1 [1; -1; 20]%Z))
  = Ok (string_of_list_ascii (map decode_symbol [1; -1; 20]%Z)) /\
  map decode_symbol [1; -1; 20]%Z
  = map decode_symbol (map (fun x => x mod 21)%Z [1; -1; 20]%Z).
Proof.
  apply (num2seq_codes_in_range [1; -1; 20]%Z).
  repeat constructor; lia.
Defined.

(** X7: a code below [-21] or above [20] makes [num2seq] raise
    [IndexError]. *)
Theorem num2seq_code_out_of_range (l : list Z) :
  Exists (fun x => x < -21 \/ 21 <= x)%Z l ->
  num2seq (NumList l) = Raise IndexError /\
  num2seq (NumArr (Arr1 l)) = Raise IndexError.
Proof.
  intros H.
  assert (Hm : mapM (list_getitem AAs) l = Raise IndexError).
  { induction H as [x l Hx | x l _ IH]; cbn [mapM].
    - rewrite list_getitem_out_of_range by exact Hx. reflexivity.
    - destruct (list_getitem AAs x) as [c | e] eqn:E; cbn [bind].
      + rewrite IH. reflexivity.
      + apply list_getitem_raises in E. subst e. reflexivity. }
  cbn [num2seq]. rewrite Hm. split; reflexivity.
Qed.

Lemma num2seq_code_out_of_range_witness :
  num2seq (NumList [3; 21]%Z) = Raise IndexError /\
  num2seq (NumArr (Arr1 [3; 21]%Z)) = Raise IndexError.
Proof.
  apply (num2seq_code_out_of_range [3; 21]%Z).
  right. left. lia.
Defined.

(** ** Decoding occurrence vectors *)

(** The cells of the occurrence matrix: cell [i (q-1) + a] of row [b] tells
    whether sequence [b] has symbol [a] at position [i]. *)
Lemma seq2occurrence_cells (seqs_AA : seq_arg) (q_true : nat) (rows : list (list Z)) :
  seq2num seqs_AA = Ok (Arr2 rows) -> 2 <= q_true ->
  exists M,
    seq2occurrence seqs_AA q_true = Ok M /\
    length M = length rows /\
    forall b, b < length rows ->
      length (nth b M []) = length (hd [] rows) * (q_true - 1) /\
      forall i a, i < length (hd [] rows) -> a < q_true - 1 ->
        nth (i * (q_true - 1) + a) (nth b M []) 0%Z
        = if (nth i (nth b rows []) 0 =? Z.of_nat a)%Z then 1%Z else 0%Z.
Proof.
  intros Hnum Hq. unfold seq2occurrence. rewrite Hnum. cbn [bind].
  set (qg := q_true - 1). set (N := length (hd [] rows)).
  assert (Hqg : 0 < qg) by (subst qg; lia).
  eexists. split; [reflexivity |].
  pose (colf := fun i a => eq_mask (column rows i) a).
  assert (Hcol : forall i a, length (colf i a)
                             = length (repeat (repeat 0%Z (N * qg)) (length rows))).
  { intros i a. unfold colf, eq_mask, column. rewrite !length_map, repeat_length.
    reflexivity. }
  split.
  { destruct (occurrence_loop_row colf qg 0 (seq 0 N) _ Hcol) as [Hlen _].
    unfold colf in Hlen. cbn beta in Hlen. rewrite Hlen, repeat_length. reflexivity. }
  intros b Hb.
  destruct (occurrence_loop_row colf qg b (seq 0 N) _ Hcol) as [_ Hrow].
  unfold colf in Hrow. cbn beta in Hrow. rewrite Hrow.
  rewrite (nth_indep _ [] (repeat 0%Z (N * qg))), nth_repeat
    by (rewrite repeat_length; exact Hb).
  destruct (block_loop_spec (fun i a => nth b (eq_mask (column rows i) a) 0%Z)
              qg Hqg N 0 (repeat 0%Z (N * qg))) as [Hlen Hnth].
  cbn zeta in Hlen, Hnth. rewrite repeat_length in Hlen, Hnth.
  split; [exact Hlen |]. intros i a Hi Ha.
  rewrite nth_as_nth_error, Hnth.
  replace ((i * qg + a) / qg) with i by (apply (Nat.div_unique _ qg i a); lia).
  replace ((i * qg + a) mod qg) with a by (apply (Nat.mod_unique _ qg i a); lia).
  destruct (Nat.leb_spec 0 i); [| lia]. destruct (Nat.ltb_spec i (0 + N)); [| lia].
  destruct (Nat.ltb_spec (i * qg + a) (N * qg)); [| nia]. cbn [andb].
  rewrite nth_eq_mask by (unfold column; rewrite length_map; exact Hb).
  unfold column.
  rewrite (nth_indep _ 0%Z ((fun r => nth i r 0%Z) [])) by (rewrite length_map; exact Hb).
  rewrite (map_nth (fun r => nth i r 0%Z)). reflexivity.
Qed.

Section Decoder.
Context {A : Type} (is_one : A -> bool) (seq1hot : list A) (q_true : nat).

(** The number of entries of block [i] that test as 1. *)
Let ones (i : nat) : nat :=
  length (filter (fun b : bool => b)
                 (map is_one (slice seq1hot (i * (q_true - 1)) ((i + 1) * (q_true - 1))))).

Let body (st : list string * list Z) (i : nat) : list string * list Z :=
  let t_piece := slice seq1hot (i * (q_true - 1)) ((i + 1) * (q_true - 1)) in
  let where_ := map is_one t_piece in
  let n := length (filter (fun b : bool => b) where_) in
  if n =? 0 then (fst st, snd st ++ [Z.of_nat (q_true - 1)])
  else if n =? 1 then (fst st, snd st ++ [Z.of_nat (first_true where_)])
  else (fst st ++ ["problem!"%string], snd st).

Lemma first_true_le (w : list bool) : first_true w <= length w.
Proof. induction w as [| [|] w IH]; cbn; lia. Qed.

Lemma decoder_loop_counts (len : nat) :
  forall (start : nat) (st : list string * list Z),
  let st' := fold_left body (seq start len) st in
  length (fst st') + length (snd st') = length (fst st) + length (snd st) + len /\
  (Forall (fun x => 0 <= x <= Z.of_nat (q_true - 1))%Z (snd st) ->
   Forall (fun x => 0 <= x <= Z.of_nat (q_true - 1))%Z (snd st')) /\
  ((forall i, start <= i < start + len -> ones i <= 1) -> fst st' = fst st).
Proof.
  induction len as [| len IH]; intros start st; cbn zeta.
  - cbn [seq fold_left]. repeat split; auto; lia.
  - cbn [seq fold_left].
    specialize (IH (S start) (body st start)). cbn zeta in IH.
    destruct IH as (Hcount & Hcodes & Hout).
    assert (Hstep : length (fst (body st start)) + length (snd (body st start))
                    = length (fst st) + length (snd st) + 1 /\
                    (Forall (fun x => 0 <= x <= Z.of_nat (q_true - 1))%Z (snd st) ->
                     Forall (fun x => 0 <= x <= Z.of_nat (q_true - 1))%Z
                            (snd (body st start))) /\
                    (ones start <= 1 -> fst (body st start) = fst st)).
    { unfold body, ones.
      set (w := map is_one _).
      pose proof (first_true_le w) as Hft.
      assert (Hw : length w <= q_true - 1).
      { subst w. rewrite length_map, length_slice. lia. }
      destruct (Nat.eqb_spec (length (filter (fun b : bool => b) w)) 0) as [E0 | E0];
        [| destruct (Nat.eqb_spec (length (filter (fun b : bool => b) w)) 1) as [E1 | E1]];
        cbn [fst snd]; rewrite ?length_app; cbn [length].
      - split; [lia |]. split; [| reflexivity].
        intros Hall. apply Forall_app. split; [exact Hall |].
        constructor; [lia | constructor].
      - split; [lia |]. split; [| reflexivity].
        intros Hall. apply Forall_app. split; [exact Hall |].
        constructor; [lia | constructor].
      - split; [lia |]. split; [intros Hall; exact Hall |].
        intros Hle. exfalso. lia. }
    destruct Hstep as (Hs1 & Hs2 & Hs3).
    split; [lia |]. split; [auto |].
    intros Hones. rewrite Hout by (intros i Hi; apply Hones; lia).
    apply Hs3, Hones. lia.
Qed.

(** When every block spells a code, the loop collects the codes. *)
Lemma decoder_loop_exact (code : nat -> Z) (len : nat) :
  forall (start : nat) (st : list string * list Z),
  (forall i, start <= i < start + len ->
     (ones i = 0 /\ code i = Z.of_nat (q_true - 1)) \/
     (ones i = 1 /\
      code i = Z.of_nat (first_true
                 (map is_one (slice seq1hot (i * (q_true - 1)) ((i + 1) * (q_true - 1))))))) ->
  fold_left body (seq start len) st = (fst st, snd st ++ map code (seq start len)).
Proof.
  induction len as [| len IH]; intros start st Hblocks.
  - cbn. rewrite app_nil_r. destruct st; reflexivity.
  - cbn [seq fold_left map]. rewrite IH by (intros i Hi; apply Hblocks; lia).
    assert (Hstep : body st start = (fst st, snd st ++ [code start])).
    { unfold body. destruct (Hblocks start ltac:(lia)) as [[H0 ->] | [H1 ->]];
        unfold ones in *; [rewrite H0 | rewrite H1]; reflexivity. }
    rewrite Hstep. cbn [fst snd]. rewrite <- app_assoc. reflexivity.
Qed.

Let code (i : nat) : Z :=
  if ones i =? 0 then Z.of_nat (q_true - 1)
  else Z.of_nat (first_true
                   (map is_one (slice seq1hot (i * (q_true - 1)) ((i + 1) * (q_true - 1))))).

(** The loop, position by position: a block with more than one hit adds a
    printed line, every other block adds its code. *)
Lemma decoder_loop_spec (len : nat) :
  forall (start : nat) (st : list string * list Z),
  fold_left body (seq start len) st
  = (fst st ++ repeat "problem!"%string
                      (length (filter (fun i => 1 <? ones i) (seq start len))),
     snd st ++ map code (filter (fun i => ones i <=? 1) (seq start len))).
Proof.
  induction len as [| len IH]; intros start st.
  - cbn. rewrite !app_nil_r. destruct st; reflexivity.
  - cbn [seq fold_left filter]. rewrite IH.
    assert (Hstep : body st start
                    = if ones start <=? 1
                      then (fst st, snd st ++ [code start])
                      else (fst st ++ ["problem!"%string], snd st)).
    { unfold body, code, ones.
      set (n := length (filter (fun b : bool => b) _)).
      destruct n as [| [| n]]; reflexivity. }
    rewrite Hstep.
    destruct (Nat.leb_spec (ones start) 1) as [Hle | Hgt].
    + destruct (Nat.ltb_spec 1 (ones start)); [lia |].
      cbn [fst snd map]. rewrite <- app_assoc. reflexivity.
    + destruct (Nat.ltb_spec 1 (ones start)); [| lia].
      cbn [fst snd length repeat]. rewrite <- app_assoc. reflexivity.
Qed.

Lemma seq_from_1hot_gauged_unfold :
  seq_from_1hot_gauged is_one seq1hot q_true
  = if q_true - 1 =? 0 then Raise ZeroDivisionError
    else let st := fold_left body (seq 0 (length seq1hot / (q_true - 1))) ([], []) in
         s <- num2seq (NumList (snd st)) ;; Ok (fst st, s).
Proof.
  unfold seq_from_1hot_gauged. destruct (q_true - 1 =? 0); [reflexivity |].
  fold body. destruct (fold_left body _ _). reflexivity.
Qed.
End Decoder.

Lemma dict_get_range (c : ascii) (k : Z) : dict_get ntdict c = Ok k -> (0 <= k <= 20)%Z.
Proof.
  let d := eval vm_compute in ntdict in change ntdict with d.
  cbn [dict_get].
  repeat match goal with
         | |- context [Ascii.eqb ?a c] =>
             destruct (Ascii.eqb a c); [intros H; injection H as <-; lia |]
         end.
  discriminate.
Qed.

Lemma encode_str_range (s : string) (codes : list Z) :
  encode_str s = Ok codes -> Forall (fun k => 0 <= k <= 20)%Z codes.
Proof.
  unfold encode_str. intros H. apply mapM_Forall2 in H.
  induction H as [| c k cs ks Hck _ IH]; constructor; [| exact IH].
  eapply dict_get_range, Hck.
Qed.

Lemma map_nth_seq {A : Type} (l : list A) (d : A) :
  map (fun i => nth i l d) (seq 0 (length l)) = l.
Proof.
  apply (nth_ext _ _ d d).
  - rewrite length_map, length_seq. reflexivity.
  - intros n Hn. rewrite length_map, length_seq in Hn.
    rewrite (nth_indep _ d ((fun i => nth i l d) 0)) by (rewrite length_map, length_seq; exact Hn).
    rewrite (map_nth (fun i => nth i l d)), seq_nth by exact Hn. reflexivity.
Qed.

(** The mask of a block that spells the code [c]: one hit at [c], or none
    when [c] is beyond the block. *)
Lemma indicator_mask (c : Z) (len : nat) :
  forall start,
  let w := map (fun a => (c =? Z.of_nat a)%Z) (seq start len) in
  ((Z.of_nat start <= c < Z.of_nat (start + len))%Z ->
   length (filter (fun b : bool => b) w) = 1 /\ first_true w = Z.to_nat c - start) /\
  (~ (Z.of_nat start <= c < Z.of_nat (start + len))%Z ->
   length (filter (fun b : bool => b) w) = 0).
Proof.
  induction len as [| len IH]; intros start; cbn zeta.
  - cbn. split; [lia | auto].
  - cbn [seq map filter first_true].
    destruct (IH (S start)) as [Hin Hout]. cbn zeta in Hin, Hout.
    destruct (Z.eqb_spec c (Z.of_nat start)) as [-> | Hne].
    + split; [| lia]. intros _. cbn [length].
      rewrite Hout by lia. split; [reflexivity | lia].
    + split.
      * intros Hc. destruct Hin as [H1 H2]; [lia |]. split; [exact H1 | lia].
      * intros Hc. apply Hout. lia.
Qed.

(** X8: decoding inverts the one-hot expansion.  For every sequence [s] over
    the alphabet, [seq2occurrence] returns a single row and
    [seq_from_1hot_gauged] turns that row back into [s], printing nothing. *)
Theorem seq_from_1hot_gauged_seq2occurrence (s : string) :
  over_alphabet s ->
  exists row,
    seq2occurrence (PyStr s) 21 = Ok [row] /\
    length row = String.length s * 20 /\
    seq_from_1hot_gauged is_one_Z row 21 = Ok ([], s).
Proof.
  intros Hs.
  destruct (encode_decode_chars _ Hs) as (codes & Henc & Hdec).
  assert (Hnum : seq2num (PyStr s) = Ok (Arr2 [codes]))
    by (unfold seq2num, encode_str; rewrite Henc; reflexivity).
  pose proof (encode_str_range s codes Henc) as Hrange.
  pose proof (encode_str_length s codes Henc) as Hclen.
  destruct (seq2occurrence_cells (PyStr s) 21 [codes] Hnum ltac:(lia))
    as (M & HM & HMlen & Hcells).
  destruct (Hcells 0 ltac:(cbn; lia)) as [Hrowlen Hcell].
  cbn [length hd nth] in HMlen, Hrowlen, Hcell. change (21 - 1) with 20 in *.
  destruct M as [| row [| r2 M]]; try discriminate HMlen.
  cbn [nth] in Hrowlen, Hcell.
  exists row. split; [exact HM |]. split; [congruence |].
  rewrite seq_from_1hot_gauged_unfold. change (21 - 1) with 20.
  cbn [Nat.eqb]. cbv zeta.
  rewrite Hrowlen, Nat.div_mul by lia.
  rewrite (decoder_loop_exact is_one_Z row 21 (fun i => nth i codes 0%Z)).
  - cbn [fst snd app]. rewrite map_nth_seq. cbn [num2seq]. rewrite Hdec. cbn [bind].
    rewrite string_of_list_ascii_of_string. reflexivity.
  - intros i Hi. change (21 - 1) with 20.
    assert (Hblock : map is_one_Z (slice row (i * 20) ((i + 1) * 20))
                     = map (fun a => (nth i codes 0 =? Z.of_nat a)%Z) (seq 0 20)).
    { apply (nth_ext _ _ false false).
      - rewrite !length_map, length_seq, length_slice. nia.
      - intros a Ha. rewrite length_map, length_slice in Ha.
        assert (Ha20 : a < 20) by lia.
        rewrite (nth_indep _ false (is_one_Z 0%Z)) by (rewrite length_map, length_slice; lia).
        rewrite (map_nth is_one_Z), nth_slice by lia.
        rewrite Hcell by lia.
        rewrite (nth_indep _ false ((fun a0 => (nth i codes 0 =? Z.of_nat a0)%Z) 0))
          by (rewrite length_map, length_seq; lia).
        rewrite (map_nth (fun a0 => (nth i codes 0 =? Z.of_nat a0)%Z)), seq_nth by lia.
        cbn [Nat.add]. destruct (nth i codes 0 =? Z.of_nat a)%Z; reflexivity. }
    rewrite Hblock.
    assert (Hc : (0 <= nth i codes 0 <= 20)%Z).
    { rewrite Forall_forall in Hrange. apply Hrange, nth_In. lia. }
    destruct (indicator_mask (nth i codes 0%Z) 20 0) as [Hin Hout]. cbn zeta in Hin, Hout.
    destruct (Z.eq_dec (nth i codes 0%Z) 20) as [E | E].
    + left. split; [apply Hout; lia | rewrite E; reflexivity].
    + right. destruct Hin as [H1 H2]; [lia |]. split; [exact H1 |].
      rewrite H2. lia.
Qed.

Lemma seq_from_1hot_gauged_seq2occurrence_witness :
  exists row,
    seq2occurrence (PyStr "AY-") 21 = Ok [row] /\
    length row = String.length "AY-" * 20 /\
    seq_from_1hot_gauged is_one_Z row 21 = Ok ([], "AY-"%string).
Proof.
  apply (seq_from_1hot_gauged_seq2occurrence "AY-").
  unfold over_alphabet, AAs. simpl. repeat constructor; simpl; tauto.
Defined.

Lemma mapM_getitem_in_range (l : list Z) :
  Forall (fun x => -21 <= x < 21)%Z l ->
  mapM (list_getitem AAs) l = Ok (map decode_symbol l).
Proof.
  induction 1 as [| x l Hx _ IH]; [reflexivity |].
  cbn [mapM map]. rewrite list_getitem_AAs by exact Hx. cbn [bind]. rewrite IH.
  reflexivity.
Qed.

Lemma length_string_of_list_ascii (cs : list ascii) :
  String.length (string_of_list_ascii cs) = length cs.
Proof. induction cs as [| c cs IH]; cbn; [| rewrite IH]; reflexivity. Qed.

Lemma count_occ_as_mask {A : Type} (eq_dec : forall x y : A, {x = y} + {x <> y})
    (is_one : A -> bool) (one : A) (l : list A) :
  (forall x, is_one x = true <-> x = one) ->
  count_occ eq_dec l one = length (filter (fun b : bool => b) (map is_one l)).
Proof.
  intros Hone. induction l as [| x l IH]; [reflexivity |].
  cbn [count_occ map filter].
  destruct (eq_dec x one) as [E | E].
  - apply Hone in E. rewrite E. cbn [length]. rewrite IH. reflexivity.
  - destruct (is_one x) eqn:E1; [apply Hone in E1; contradiction | exact IH].
Qed.

(** With the 21-symbol alphabet the decoder returns on every vector: each
    position either contributes one symbol or is reported and skipped. *)
Lemma decoder_total {A : Type} (eq_dec : forall x y : A, {x = y} + {x <> y})
    (is_one : A -> bool) (one : A) (v : list A) :
  (forall x, is_one x = true <-> x = one) ->
  exists out s,
    seq_from_1hot_gauged is_one v 21 = Ok (out, s) /\
    length out + String.length s = length v / 20 /\
    (one_hot_blocks eq_dec one 20 v -> out = []).
Proof.
  intros Hone. rewrite seq_from_1hot_gauged_unfold.
  change (21 - 1) with 20. cbn [Nat.eqb]. cbv zeta.
  destruct (decoder_loop_counts is_one v 21 (length v / 20) 0 ([], []))
    as (Hcount & Hcodes & Hout).
  change (21 - 1) with 20 in *. cbv zeta in Hcount, Hcodes, Hout.
  set (st := fold_left _ (seq 0 (length v / 20)) ([], [])) in *.
  specialize (Hcodes (Forall_nil _)).
  assert (Hrange : Forall (fun x => -21 <= x < 21)%Z (snd st)).
  { eapply Forall_impl; [| exact Hcodes]. cbn. intros x Hx. lia. }
  cbn [num2seq]. rewrite (mapM_getitem_in_range _ Hrange). cbn [bind].
  exists (fst st), (string_of_list_ascii (map decode_symbol (snd st))).
  split; [reflexivity |]. split.
  - rewrite length_string_of_list_ascii, length_map. cbn [fst snd length] in Hcount.
    lia.
  - intros Hinv. apply Hout. intros i _.
    rewrite <- (count_occ_as_mask eq_dec is_one one _ Hone). apply Hinv.
Qed.

Lemma is_one_Z_spec (x : Z) : is_one_Z x = true <-> x = 1%Z.
Proof. unfold is_one_Z. apply Z.eqb_eq. Qed.

Lemma is_one_R_spec (x : R) : is_one_R x = true <-> x = 1%R.
Proof.
  unfold is_one_R. destruct (Req_EM_T x 1); split; auto; discriminate.
Qed.

Lemma first_true_lt (w : list bool) :
  length (filter (fun b : bool => b) w) <> 0 -> first_true w < length w.
Proof.
  induction w as [| [|] w IH]; cbn [filter first_true length]; intros H;
    [contradiction | lia | specialize (IH H); lia].
Qed.

Lemma block_code_range (v : list Z) (i : nat) :
  (0 <= block_code v 20 i <= 20)%Z.
Proof.
  unfold block_code. destruct (block_ones v 20 i =? 0); [lia |].
  pose proof (first_true_le (map is_one_Z (slice v (i * 20) ((i + 1) * 20)))) as H.
  rewrite length_map, length_slice in H. lia.
Qed.

(** X9: with [q_true = 21], [seq_from_1hot_gauged] returns on every integer
    vector, and this is what it returns.  Every position whose block holds
    more than one 1 is reported by one printed line and left out of the
    result; every other position contributes its symbol (the place of its 1,
    or the last symbol of the alphabet when the block is all zero), in order.
    So printed lines and decoded symbols together number the positions, and
    on a vector that satisfies the one-hot block invariant nothing is
    printed. *)
Theorem seq_from_1hot_gauged_positions (v : list Z) :
  let positions := seq 0 (length v / 20) in
  let bad := filter (fun i => 1 <? block_ones v 20 i) positions in
  let good := filter (fun i => block_ones v 20 i <=? 1) positions in
  seq_from_1hot_gauged is_one_Z v 21
  = Ok (repeat "problem!"%string (length bad),
        string_of_list_ascii (map (fun i => decode_symbol (block_code v 20 i)) good)) /\
  length bad + length good = length v / 20 /\
  (one_hot_blocks Z.eq_dec 1%Z 20 v -> bad = []).
Proof.
  cbv zeta.
  assert (Hones : forall i,
            length (filter (fun b : bool => b)
                           (map is_one_Z (slice v (i * 20) ((i + 1) * 20))))
            = block_ones v 20 i).
  { intros i. symmetry. apply count_occ_as_mask, is_one_Z_spec. }
  split; [| split].
  - rewrite seq_from_1hot_gauged_unfold.
    change (21 - 1) with 20. cbn [Nat.eqb]. cbv zeta.
    pose proof (decoder_loop_spec is_one_Z v 21 (length v / 20) 0 ([], [])) as Hloop.
    change (21 - 1) with 20 in Hloop. cbn [fst snd app] in Hloop.
    rewrite Hloop. cbn [fst snd].
    set (m := fun i : nat =>
                length (filter (fun b : bool => b)
                               (map is_one_Z (slice v (i * 20) ((i + 1) * 20))))).
    rewrite (filter_ext (fun i => 1 <? m i) (fun i => 1 <? block_ones v 20 i))
      by (intros i; unfold m; rewrite Hones; reflexivity).
    rewrite (filter_ext (fun i => m i <=? 1) (fun i => block_ones v 20 i <=? 1))
      by (intros i; unfold m; rewrite Hones; reflexivity).
    rewrite (map_ext (fun i => if m i =? 0 then Z.of_nat 20
                               else Z.of_nat (first_true
                                      (map is_one_Z (slice v (i * 20) ((i + 1) * 20)))))
                     (block_code v 20))
      by (intros i; unfold block_code, m; rewrite Hones; reflexivity).
    cbn [num2seq].
    rewrite mapM_getitem_in_range.
    + cbn [bind]. rewrite map_map. reflexivity.
    + apply Forall_forall. intros x Hx. apply in_map_iff in Hx.
      destruct Hx as (i & <- & _). pose proof (block_code_range v i). lia.
  - assert (Hsplit : forall l : list nat,
              length (filter (fun i => 1 <? block_ones v 20 i) l)
              + length (filter (fun i => block_ones v 20 i <=? 1) l) = length l).
    { induction l as [| i l IH]; [reflexivity |].
      cbn [filter length].
      destruct (Nat.ltb_spec 1 (block_ones v 20 i)),
               (Nat.leb_spec (block_ones v 20 i) 1); cbn [length]; lia. }
    rewrite Hsplit. apply length_seq.
  - intros Hinv.
    induction (seq 0 (length v / 20)) as [| i l IH]; [reflexivity |].
    cbn [filter]. specialize (Hinv i). fold (block_ones v 20 i) in Hinv.
    destruct (Nat.ltb_spec 1 (block_ones v 20 i)); [lia | exact IH].
Qed.

Lemma seq_from_1hot_gauged_positions_witness :
  seq_from_1hot_gauged is_one_Z
    ([1; 1] ++ repeat 0 18 ++ [0; 1] ++ repeat 0 18 ++ repeat 0 20)%Z 21
  = Ok (["problem!"%string], "AY"%string).
Proof.
  destruct (seq_from_1hot_gauged_positions
              ([1; 1] ++ repeat 0 18 ++ [0; 1] ++ repeat 0 18 ++ repeat 0 20)%Z)
    as [Hrun _].
  rewrite Hrun. vm_compute. reflexivity.
Defined.

(** X10: what the samplers return can be decoded.  With [q = 21], the vector
    of [sample_data_indip] and the state of [metropolis] (from the default
    start) decode to a sequence with one symbol per position, and no
    position is reported. *)
Theorem sampled_vectors_decode
    (fields : list R) (beta : R) (g : rng) (v : list R) (g' : rng)
    (jcoupl : matrix) (p : list R) (Nsteps : nat) (beta2 : R) (g2 : rng)
    (out : list string) (dt : int_dtype) (s : list Z) :
  (sample_data_indip fields beta 21 g = Ok (v, g') ->
   exists seq, seq_from_1hot_gauged is_one_R v 21 = Ok ([], seq) /\
               String.length seq = length fields / 20) /\
  (metropolis jcoupl p Nsteps beta2 21 StartNaN g2 = Ok (out, RetState dt s) ->
   exists seq, seq_from_1hot_gauged is_one_Z s 21 = Ok ([], seq) /\
               String.length seq = length p / 20).
Proof.
  split.
  - intros Hrun. apply sample_data_indip_one_hot in Hrun. destruct Hrun as [Hlen Hinv].
    change (21 - 1) with 20 in Hinv.
    destruct (decoder_total Req_EM_T is_one_R 1%R v is_one_R_spec)
      as (o & seq & Hdec & Hcount & Hout).
    rewrite (Hout Hinv) in Hdec, Hcount. exists seq. split; [exact Hdec |].
    rewrite <- Hlen. exact Hcount.
  - intros Hrun.
    assert (Hinv : one_hot_blocks Z.eq_dec 1%Z 20 s).
    { eapply (metropolis_one_hot jcoupl p Nsteps beta2 21 StartNaN g2 out dt s);
        [intros dt0 v0 H; discriminate H | exact Hrun]. }
    assert (Hlen : length s = length p).
    { unfold metropolis in Hrun.
      destruct (initial_config_default p g2) as (g3 & Hinit). rewrite Hinit in Hrun.
      cbn [bind] in Hrun.
      destruct (metropolis_loop _ _ _ _ _ _ _) as [[s1 g4] | e] eqn:Hloop;
        cbn [bind] in Hrun; [| discriminate].
      injection Hrun as _ _ <-.
      apply metropolis_loop_one_hot in Hloop; [| apply zeros_one_hot].
      destruct Hloop as [Hl _]. rewrite Hl, repeat_length. reflexivity. }
    destruct (decoder_total Z.eq_dec is_one_Z 1%Z s is_one_Z_spec)
      as (o & seq & Hdec & Hcount & Hout).
    rewrite (Hout Hinv) in Hdec, Hcount. exists seq. split; [exact Hdec |].
    rewrite <- Hlen. exact Hcount.
Qed.

Lemma sampled_vectors_decode_witness :
  (exists seq, seq_from_1hot_gauged is_one_R (set_nth 0 1%R (repeat 0%R 20)) 21
               = Ok ([], seq) /\
               String.length seq = length (repeat 0%R 20) / 20) /\
  (exists seq, seq_from_1hot_gauged is_one_Z (repeat 0%Z 20) 21 = Ok ([], seq) /\
               String.length seq = length (repeat 0%R 20) / 20).
Proof.
  destruct (sampled_vectors_decode
              (repeat 0%R 20) 1%R zero_rng (set_nth 0 1%R (repeat 0%R 20))
              {| ints := fun k => ints zero_rng (S k); unifs := unifs zero_rng |}
              {| ncols := 20; rows := repeat (repeat 0%R 20) 20 |} (repeat 0%R 20) 0 1%R
              zero_rng [] np_int_ (repeat 0%Z 20)) as [Hs Hm].
  split; [apply Hs; reflexivity | apply Hm; reflexivity].
Defined.

(** ** The fitted independent-site model reproduces the frequencies *)

Local Open Scope R_scope.

Lemma np_sum_app (l1 l2 : list R) : np_sum (l1 ++ l2) = np_sum l1 + np_sum l2.
Proof.
  induction l1 as [| x l1 IH]; cbn [app]; [cbn; ring |].
  rewrite !np_sum_cons, IH. ring.
Qed.

Lemma np_sum_map_div (G : R) (l : list R) :
  np_sum (map (fun y => y / G) l) = np_sum l / G.
Proof.
  induction l as [| x l IH]; cbn [map]; [cbn; unfold Rdiv; ring |].
  rewrite !np_sum_cons, IH. unfold Rdiv. ring.
Qed.

(** One position: the distribution built from the fields
    [ln f~ - ln f~_implicit] is the regularised frequency vector itself. *)
Lemma site_probs_of_fitted_block (alpha : R) (q : nat) (B : list R) :
  0 < alpha < 1 -> (2 <= q)%nat -> length B = (q - 1)%nat ->
  Forall (fun x => 0 <= x <= 1) B -> np_sum B <= 1 ->
  let G := regularized alpha q (1 - np_sum B) in
  site_probs 1 (map (fun y => ln (regularized alpha q y) - ln G) B)
  = map (regularized alpha q) B ++ [G].
Proof.
  intros Ha Hq Hlen HB Hsum G.
  assert (HG : 0 < G) by (apply regularized_pos; [assumption | lia | lra]).
  assert (Hexp : map (fun h => exp (1 * h))
                     (map (fun y => ln (regularized alpha q y) - ln G) B)
                 = map (fun y => y / G) (map (regularized alpha q) B)).
  { rewrite !map_map. apply map_ext_in. intros y Hy.
    rewrite Forall_forall in HB. specialize (HB y Hy).
    assert (0 < regularized alpha q y) by (apply regularized_pos; [assumption | lia | lra]).
    rewrite Rmult_1_l. unfold Rminus. rewrite exp_plus, exp_Ropp, !exp_ln by assumption.
    reflexivity. }
  unfold site_probs. rewrite Hexp.
  assert (Htot : np_sum (map (regularized alpha q) B) + G = 1).
  { unfold G, regularized.
    rewrite (map_ext _ (fun x => x * (1 - alpha) + alpha / INR q)) by (intros; ring).
    rewrite np_sum_map_affine, Hlen, minus_INR by lia. cbn [INR].
    assert (INR q <> 0) by (apply not_0_INR; lia). field. assumption. }
  rewrite np_sum_app, np_sum_map_div. cbn [np_sum fold_right].
  replace (np_sum (map (regularized alpha q) B) / G + (1 + 0)) with (/ G)
    by (apply (f_equal (fun t => t / G)) in Htot;
        unfold Rdiv in *; rewrite Rmult_plus_distr_r, Rinv_r in Htot by lra; lra).
  rewrite map_app, map_map. cbn [map]. f_equal.
  - rewrite <- (map_id (map (regularized alpha q) B)) at 2.
    apply map_ext. intros y. field. lra.
  - f_equal. field. lra.
Qed.

Lemma slice_seq (n a b : nat) :
  (a <= b)%nat -> (b <= n)%nat -> slice (seq 0 n) a b = seq a (b - a).
Proof.
  intros Hab Hbn. apply (nth_ext _ _ 0%nat 0%nat).
  - rewrite length_slice, !length_seq. lia.
  - intros k Hk. rewrite length_slice, length_seq in Hk.
    rewrite nth_slice, !seq_nth by lia. reflexivity.
Qed.

Lemma slice_as_map_nth {A : Type} (l : list A) (d : A) (a b : nat) :
  (a <= b)%nat -> (b <= length l)%nat ->
  slice l a b = map (fun k => nth k l d) (seq a (b - a)).
Proof.
  intros Hab Hb. apply (nth_ext _ _ d d).
  - rewrite length_slice, length_map, length_seq. lia.
  - intros k Hk. rewrite length_slice in Hk.
    rewrite nth_slice by lia.
    rewrite (nth_indep (map (fun k0 => nth k0 l d) (seq a (b - a))) d
                       ((fun k0 => nth k0 l d) 0%nat))
      by (rewrite length_map, length_seq; lia).
    rewrite (map_nth (fun k0 => nth k0 l d)), seq_nth by lia. reflexivity.
Qed.

(** X11: the fit and the sampler agree.  For a gauge-fixed frequency vector
    of [L] positions and [0 < alpha < 1] (with [q = 21]), every field
    [indip_model_fields] returns is finite, and at [beta = 1] the
    distribution [sample_data_indip] draws a position from is exactly the
    regularised frequency vector of that position, the implicit symbol
    last. *)
Theorem fitted_fields_reproduce_frequencies (freqs : list R) (alpha : R) (L : nat) :
  length freqs = (L * 20)%nat -> valid_freqs 21 freqs -> 0 < alpha < 1 ->
  exists h,
    indip_model_fields freqs alpha 21 = Ok (map Fin h) /\
    forall i, (i < L)%nat ->
      site_probs 1 (slice h (i * 20) ((i + 1) * 20))
      = map (regularized alpha 21) (slice freqs (i * 20) ((i + 1) * 20))
        ++ [regularized alpha 21 (implicit_freq freqs 20 i)].
Proof.
  intros Hlen [Hrange Hblock] Halpha.
  assert (HL : (length freqs / 20 = L)%nat) by (rewrite Hlen; apply Nat.div_mul; lia).
  destruct (indip_model_fields_entry freqs alpha 21 ltac:(lia))
    as (fields & Hok & Hflen & Hentry).
  change (21 - 1)%nat with 20%nat in *. rewrite HL in *.
  set (F := fun k => ln (regularized alpha 21 (nth k freqs 0))
                     - ln (regularized alpha 21 (implicit_freq freqs 20 (k / 20)))).
  exists (map F (seq 0 (length freqs))).
  assert (Hfields : fields = map Fin (map F (seq 0 (length freqs)))).
  { apply nth_error_ext. intros k.
    destruct (Nat.lt_ge_cases k (length freqs)) as [Hk | Hk].
    - pose proof (Nat.div_mod_eq k 20) as Hdm.
      pose proof (Nat.mod_upper_bound k 20 ltac:(lia)) as Hm.
      assert (Hi : (k / 20 < L)%nat) by (apply Nat.Div0.div_lt_upper_bound; lia).
      specialize (Hentry (k / 20)%nat (k mod 20)%nat Hi Hm).
      replace (k / 20 * 20 + k mod 20)%nat with k in Hentry by lia.
      rewrite Hentry, !nth_error_map.
      rewrite (nth_error_nth' (seq 0 (length freqs)) 0%nat)
        by (rewrite length_seq; exact Hk).
      rewrite seq_nth by exact Hk. cbn [option_map Nat.add]. f_equal.
      pose proof (block_entry_bounds freqs 20 (k / 20) (k mod 20) Hrange Hm) as Hb.
      replace (k / 20 * 20 + k mod 20)%nat with k in Hb by lia.
      specialize (Hblock (k / 20)%nat Hi).
      apply np_log_divide_pos; apply regularized_pos; try lia; try lra.
      unfold implicit_freq. lra.
    - assert (H1 : nth_error fields k = None) by (apply nth_error_None; lia).
      assert (H2 : nth_error (map Fin (map F (seq 0 (length freqs)))) k = None)
        by (apply nth_error_None; rewrite !length_map, length_seq; exact Hk).
      congruence. }
  split; [congruence |].
  intros i Hi.
  assert (Hfull : ((i + 1) * 20 <= length freqs)%nat) by lia.
  rewrite slice_map, slice_seq by lia.
  set (B := slice freqs (i * 20) ((i + 1) * 20)).
  assert (HB : B = map (fun k => nth k freqs 0) (seq (i * 20) ((i + 1) * 20 - i * 20)))
    by (apply slice_as_map_nth; lia).
  assert (HFB : map F (seq (i * 20) ((i + 1) * 20 - i * 20))
                = map (fun y => ln (regularized alpha 21 y)
                                - ln (regularized alpha 21 (1 - np_sum B))) B).
  { transitivity (map (fun y => ln (regularized alpha 21 y)
                                  - ln (regularized alpha 21 (1 - np_sum B)))
                      (map (fun k => nth k freqs 0)
                           (seq (i * 20) ((i + 1) * 20 - i * 20))));
      [| rewrite <- HB; reflexivity].
    rewrite map_map. apply map_ext_in. intros k Hk. apply in_seq in Hk.
    unfold F. f_equal. f_equal. f_equal.
    replace (k / 20)%nat with i
      by (apply (Nat.div_unique k 20 i (k - i * 20)); lia).
    reflexivity. }
  rewrite HFB.
  change (implicit_freq freqs 20 i) with (1 - np_sum B).
  apply (site_probs_of_fitted_block alpha 21 B Halpha); try lia.
  - unfold B. rewrite length_slice. change (21 - 1)%nat with 20%nat. lia.
  - apply Forall_slice, Hrange.
  - apply Hblock. lia.
Qed.

Lemma fitted_fields_reproduce_frequencies_witness :
  exists h,
    indip_model_fields (repeat (1 / 21) 20) (1 / 100) 21 = Ok (map Fin h) /\
    forall i, (i < 1)%nat ->
      site_probs 1 (slice h (i * 20) ((i + 1) * 20))
      = map (regularized (1 / 100) 21) (slice (repeat (1 / 21) 20) (i * 20) ((i + 1) * 20))
        ++ [regularized (1 / 100) 21 (implicit_freq (repeat (1 / 21) 20) 20 i)].
Proof.
  apply (fitted_fields_reproduce_frequencies (repeat (1 / 21) 20) (1 / 100) 1).
  - reflexivity.
  - split.
    + apply Forall_forall. intros x Hx. apply repeat_spec in Hx. subst x. lra.
    + intros i Hi. cbn in Hi.
      assert (i = 0%nat) by lia. subst i.
      unfold block_sum. cbn. lra.
  - lra.
Defined.

(** ** Pseudocounts and connected correlations *)

Lemma entry_map_map (g : R -> R) (c : matrix) (nc r k : nat) :
  wf_matrix c -> (r < length (rows c))%nat -> (k < ncols c)%nat ->
  entry {| ncols := nc; rows := map (map g) (rows c) |} r k = g (entry c r k).
Proof.
  intros Hwf Hr Hk. rewrite !entry_as_nth_error. cbn [rows].
  rewrite nth_error_map.
  destruct (nth_error (rows c) r) as [row |] eqn:Hrow;
    [| apply nth_error_None in Hrow; lia].
  cbn [option_map]. rewrite nth_error_map.
  assert (Hlen : length row = ncols c).
  { unfold wf_matrix in Hwf. rewrite Forall_forall in Hwf.
    apply Hwf. eapply nth_error_In. exact Hrow. }
  destruct (nth_error row k) as [x |] eqn:Hx;
    [reflexivity | apply nth_error_None in Hx; lia].
Qed.

(** Every entry of the matrix [add_pseudocounts] returns. *)
Lemma add_pseudocounts_entries
    (corr_mat : matrix) (freqs : list R) (alpha : R) (q_true : nat) :
  (2 <= q_true)%nat ->
  wf_matrix corr_mat ->
  length (rows corr_mat) = length freqs ->
  ncols corr_mat = length freqs ->
  exists c_pseudo,
    add_pseudocounts corr_mat freqs alpha q_true
    = Ok (map (fun f => (1 - alpha) * f + alpha / INR q_true) freqs, c_pseudo) /\
    wf_matrix c_pseudo /\
    length (rows c_pseudo) = length freqs /\ ncols c_pseudo = length freqs /\
    forall r k, (r < length freqs)%nat -> (k < length freqs)%nat ->
      entry c_pseudo r k
      = if (r / (q_true - 1) =? k / (q_true - 1))%nat
           && (r / (q_true - 1) <? length freqs / (q_true - 1))%nat
        then (if (r =? k)%nat
              then (1 - alpha) * nth r freqs 0 + alpha / INR q_true else 0)
        else (1 - alpha) * entry corr_mat r k + alpha / INR q_true ^ 2.
Proof.
  intros Hq Hwf Hr Hc. unfold add_pseudocounts.
  set (qg := (q_true - 1)%nat). assert (Hqg : (0 < qg)%nat) by (subst qg; lia).
  destruct (Nat.eqb_spec qg 0); [lia |].
  set (g := fun f => (1 - alpha) * f + alpha / INR q_true).
  set (fp := map g freqs).
  set (c0 := {| ncols := ncols corr_mat;
                rows := map (map (fun c => (1 - alpha) * c + alpha / INR q_true ^ 2))
                            (rows corr_mat) |}).
  assert (Hwf0 : wf_matrix c0).
  { unfold wf_matrix in *. cbn [c0 rows ncols]. rewrite Forall_map.
    eapply Forall_impl; [| exact Hwf]. intros r Hrow. rewrite length_map. exact Hrow. }
  assert (Hr0 : length (rows c0) = length freqs)
    by (cbn [c0 rows]; rewrite length_map; exact Hr).
  assert (Hc0 : ncols c0 = length freqs) by exact Hc.
  pose proof (Nat.Div0.mul_div_le (length freqs) qg) as Hdiv.
  destruct (pseudocount_loop_spec fp qg Hqg (length freqs / qg) 0 c0 Hwf0)
    as (c' & Hloop & Hwf' & Hr' & Hc' & He'); try lia.
  exists c'. rewrite Hloop. cbn [bind].
  repeat split; try congruence.
  intros r k Hrn Hkn. rewrite He' by lia.
  cbn [Nat.leb andb Nat.add].
  destruct ((r / qg =? k / qg)%nat && (r / qg <? length freqs / qg)%nat).
  - destruct (Nat.eqb_spec r k); [| reflexivity].
    unfold fp.
    rewrite (nth_indep (map g freqs) 0 (g 0)) by (rewrite length_map; exact Hrn).
    rewrite map_nth. reflexivity.
  - unfold c0. apply (entry_map_map (fun c => (1 - alpha) * c + alpha / INR q_true ^ 2));
      [exact Hwf | lia | lia].
Qed.

(** X12: away from the self-blocks [add_pseudocounts] only smooths the
    correlation matrix, [(1 - alpha) C + alpha / q^2], and a symmetric
    correlation matrix stays symmetric. *)
Theorem add_pseudocounts_off_blocks
    (corr_mat : matrix) (freqs : list R) (alpha : R) (q_true : nat) :
  (2 <= q_true)%nat ->
  wf_matrix corr_mat ->
  length (rows corr_mat) = length freqs ->
  ncols corr_mat = length freqs ->
  exists f_pseudo c_pseudo,
    add_pseudocounts corr_mat freqs alpha q_true = Ok (f_pseudo, c_pseudo) /\
    (forall r k, (r < length freqs)%nat -> (k < length freqs)%nat ->
       (r / (q_true - 1) <> k / (q_true - 1))%nat ->
       entry c_pseudo r k = (1 - alpha) * entry corr_mat r k + alpha / INR q_true ^ 2) /\
    ((forall r k, (r < length freqs)%nat -> (k < length freqs)%nat ->
        entry corr_mat r k = entry corr_mat k r) ->
     forall r k, (r < length freqs)%nat -> (k < length freqs)%nat ->
        entry c_pseudo r k = entry c_pseudo k r).
Proof.
  intros Hq Hwf Hr Hc.
  destruct (add_pseudocounts_entries corr_mat freqs alpha q_true Hq Hwf Hr Hc)
    as (c' & Hrun & _ & _ & _ & He).
  eexists. exists c'. split; [exact Hrun |]. split.
  - intros r k Hrn Hkn Hblock. rewrite He by assumption.
    destruct (Nat.eqb_spec (r / (q_true - 1)) (k / (q_true - 1))); [contradiction |].
    reflexivity.
  - intros Hsym r k Hrn Hkn. rewrite !He by assumption.
    rewrite (Nat.eqb_sym (k / (q_true - 1))), (Nat.eqb_sym k r).
    destruct (Nat.eqb_spec (r / (q_true - 1)) (k / (q_true - 1))) as [Hb | Hb].
    + rewrite <- Hb. cbn [andb].
      destruct (r / (q_true - 1) <? length freqs / (q_true - 1))%nat.
      * destruct (Nat.eqb_spec r k) as [-> | _]; reflexivity.
      * rewrite (Hsym r k) by assumption. reflexivity.
    + cbn [andb]. rewrite (Hsym r k) by assumption. reflexivity.
Qed.

Lemma add_pseudocounts_off_blocks_witness :
  exists f_pseudo c_pseudo,
    add_pseudocounts {| ncols := 2; rows := [[1; 0]; [0; 1]] |} [1; 0] (1 / 2) 2
    = Ok (f_pseudo, c_pseudo) /\
    (forall r k, (r < 2)%nat -> (k < 2)%nat -> (r / (2 - 1) <> k / (2 - 1))%nat ->
       entry c_pseudo r k
       = (1 - 1 / 2) * entry {| ncols := 2; rows := [[1; 0]; [0; 1]] |} r k
         + 1 / 2 / INR 2 ^ 2) /\
    ((forall r k, (r < 2)%nat -> (k < 2)%nat ->
        entry {| ncols := 2; rows := [[1; 0]; [0; 1]] |} r k
        = entry {| ncols := 2; rows := [[1; 0]; [0; 1]] |} k r) ->
     forall r k, (r < 2)%nat -> (k < 2)%nat -> entry c_pseudo r k = entry c_pseudo k r).
Proof.
  apply (add_pseudocounts_off_blocks
           {| ncols := 2; rows := [[1; 0]; [0; 1]] |} [1; 0] (1 / 2) 2).
  - lia.
  - repeat constructor.
  - reflexivity.
  - reflexivity.
Defined.

Lemma broadcast_dim_same (n : nat) : broadcast_dim n n = Ok n.
Proof. unfold broadcast_dim. rewrite Nat.eqb_refl. reflexivity. Qed.

(** On a square matrix of the size of the frequency vector
    [connect_correlation] subtracts the products of frequencies entry by
    entry. *)
Lemma connect_correlation_square (corr_mat : matrix) (freqs : list R) :
  length (rows corr_mat) = length freqs -> ncols corr_mat = length freqs ->
  exists cc,
    connect_correlation corr_mat freqs = Ok cc /\
    wf_matrix cc /\ length (rows cc) = length freqs /\ ncols cc = length freqs /\
    forall r k, (r < length freqs)%nat -> (k < length freqs)%nat ->
      entry cc r k = entry corr_mat r k - nth r freqs 0 * nth k freqs 0.
Proof.
  intros Hr Hc. unfold connect_correlation.
  rewrite Hr, Hc, broadcast_dim_same. cbn [bind].
  eexists. split; [reflexivity |]. cbn [rows ncols].
  split; [| split; [| split]].
  - unfold wf_matrix. cbn [rows ncols]. rewrite Forall_map.
    apply Forall_forall. intros i _. rewrite length_map, length_seq. reflexivity.
  - rewrite length_map, length_seq. reflexivity.
  - reflexivity.
  - intros r k Hrn Hkn. rewrite entry_as_nth_error. cbn [rows].
    rewrite nth_error_map, (nth_error_nth' (seq 0 (length freqs)) 0%nat)
      by (rewrite length_seq; exact Hrn).
    cbn [option_map].
    rewrite nth_error_map, (nth_error_nth' (seq 0 (length freqs)) 0%nat)
      by (rewrite length_seq; exact Hkn).
    cbn [option_map]. rewrite !seq_nth by assumption. cbn [Nat.add].
    destruct (Nat.eqb_spec (length freqs) 1) as [H1 | H1]; [| reflexivity].
    assert (r = 0%nat) by lia. assert (k = 0%nat) by lia. subst. reflexivity.
Qed.

(** X13: the connected correlations of the regularised statistics.  Chaining
    [add_pseudocounts] and [connect_correlation], the self-block of every
    position is the covariance of a single categorical draw: [f (1 - f)] on
    the diagonal and [- f_a f_b] off it, [f] the regularised frequencies. *)
Theorem connected_pseudocount_blocks
    (corr_mat : matrix) (freqs : list R) (alpha : R) (q_true : nat) :
  (2 <= q_true)%nat ->
  wf_matrix corr_mat ->
  length (rows corr_mat) = length freqs ->
  ncols corr_mat = length freqs ->
  exists f_pseudo c_pseudo cc,
    add_pseudocounts corr_mat freqs alpha q_true = Ok (f_pseudo, c_pseudo) /\
    connect_correlation c_pseudo f_pseudo = Ok cc /\
    forall i a b,
      (i < length freqs / (q_true - 1))%nat ->
      (a < q_true - 1)%nat -> (b < q_true - 1)%nat ->
      entry cc (i * (q_true - 1) + a) (i * (q_true - 1) + b)
      = if (a =? b)%nat
        then nth (i * (q_true - 1) + a) f_pseudo 0
             * (1 - nth (i * (q_true - 1) + a) f_pseudo 0)
        else - (nth (i * (q_true - 1) + a) f_pseudo 0
                * nth (i * (q_true - 1) + b) f_pseudo 0).
Proof.
  intros Hq Hwf Hr Hc.
  destruct (add_pseudocounts_entries corr_mat freqs alpha q_true Hq Hwf Hr Hc)
    as (c' & Hrun & _ & Hr' & Hc' & He).
  set (g := fun f => (1 - alpha) * f + alpha / INR q_true) in *.
  assert (Hfl : length (map g freqs) = length freqs) by apply length_map.
  destruct (connect_correlation_square c' (map g freqs)) as (cc & Hcc & _ & _ & _ & Hce);
    try congruence.
  exists (map g freqs), c', cc. split; [exact Hrun |]. split; [exact Hcc |].
  intros i a b Hi Ha Hb.
  set (qg := (q_true - 1)%nat) in *.
  pose proof (Nat.Div0.mul_div_le (length freqs) qg) as Hdiv.
  assert (Hbound : (i * qg + qg <= length freqs)%nat) by nia.
  rewrite Hce by (rewrite Hfl; lia). rewrite He by lia.
  replace ((i * qg + a) / qg)%nat with i
    by (apply (Nat.div_unique _ qg i a); lia).
  replace ((i * qg + b) / qg)%nat with i
    by (apply (Nat.div_unique _ qg i b); lia).
  rewrite Nat.eqb_refl. cbn [andb].
  destruct (Nat.ltb_spec i (length freqs / qg)); [| lia].
  destruct (Nat.eqb_spec a b) as [-> | Hab].
  - rewrite Nat.eqb_refl.
    rewrite (nth_indep (map g freqs) 0 (g 0)) by (rewrite Hfl; lia).
    rewrite map_nth. unfold g. ring.
  - destruct (Nat.eqb_spec (i * qg + a) (i * qg + b)); [lia |]. ring.
Qed.

Lemma connected_pseudocount_blocks_witness :
  exists f_pseudo c_pseudo cc,
    add_pseudocounts {| ncols := 2; rows := [[1; 0]; [0; 1]] |} [1; 0] (1 / 2) 2
    = Ok (f_pseudo, c_pseudo) /\
    connect_correlation c_pseudo f_pseudo = Ok cc /\
    forall i a b,
      (i < length [1; 0] / (2 - 1))%nat -> (a < 2 - 1)%nat -> (b < 2 - 1)%nat ->
      entry cc (i * (2 - 1) + a) (i * (2 - 1) + b)
      = if (a =? b)%nat
        then nth (i * (2 - 1) + a) f_pseudo 0 * (1 - nth (i * (2 - 1) + a) f_pseudo 0)
        else - (nth (i * (2 - 1) + a) f_pseudo 0 * nth (i * (2 - 1) + b) f_pseudo 0).
Proof.
  apply (connected_pseudocount_blocks
           {| ncols := 2; rows := [[1; 0]; [0; 1]] |} [1; 0] (1 / 2) 2).
  - lia.
  - repeat constructor.
  - reflexivity.
  - reflexivity.
Defined.

(** ** The correlation matrix of binary data *)

Lemma vdot_map_map {A : Type} (f g : A -> R) (l : list A) :
  vdot (map f l) (map g l) = np_sum (map (fun r => f r * g r) l).
Proof.
  unfold vdot. induction l as [| x l IH]; [reflexivity |].
  cbn [map combine]. rewrite !np_sum_cons, IH. reflexivity.
Qed.

Lemma np_sum_indicator {A : Type} (t : A -> bool) (l : list A) :
  np_sum (map (fun r => if t r then 1 else 0) l) = INR (length (filter t l)).
Proof.
  induction l as [| x l IH]; [reflexivity |].
  cbn [map filter]. rewrite np_sum_cons, IH.
  destruct (t x); [| ring].
  cbn [length]. rewrite S_INR. ring.
Qed.

Lemma np_sum_map_zero {A : Type} (g : A -> R) (l : list A) :
  (forall r, In r l -> g r = 0) -> np_sum (map g l) = 0.
Proof.
  induction l as [| x l IH]; intros H; [reflexivity |].
  cbn [map]. rewrite np_sum_cons, IH by (intros; apply H; right; assumption).
  rewrite (H x) by (left; reflexivity). ring.
Qed.

Lemma fentry_compute_correlation_matrix (D : int_matrix) (j k : nat) :
  (j < icols D)%nat -> (k < icols D)%nat ->
  fentry (compute_correlation_matrix D) j k
  = np_divide (np_sum (map (fun r => IZR (nth j r 0%Z) * IZR (nth k r 0%Z)) (irows D)))
              (INR (length (irows D))).
Proof.
  intros Hj Hk. unfold fentry, compute_correlation_matrix.
  set (row := fun j0 => map _ (seq 0 (icols D))).
  rewrite (nth_indep (map row (seq 0 (icols D))) [] (row 0%nat))
    by (rewrite length_map, length_seq; exact Hj).
  rewrite map_nth, seq_nth by exact Hj. cbn [Nat.add]. unfold row.
  set (cell := fun k0 => np_divide _ _).
  rewrite (nth_indep (map cell (seq 0 (icols D))) NaN (cell 0%nat))
    by (rewrite length_map, length_seq; exact Hk).
  rewrite map_nth, seq_nth by exact Hk. cbn [Nat.add]. unfold cell.
  f_equal. rewrite !map_map, vdot_map_map.
  f_equal. apply map_ext. intros r. rewrite !nth_map_IZR. reflexivity.
Qed.

Lemma binary_product (x y : Z) :
  (x = 0 \/ x = 1)%Z -> (y = 0 \/ y = 1)%Z ->
  IZR x * IZR y = if is_one_Z x && is_one_Z y then 1 else 0.
Proof. intros [-> | ->] [-> | ->]; cbn; ring. Qed.

Lemma binary_nth (r : list Z) (j : nat) :
  Forall (fun x => x = 0%Z \/ x = 1%Z) r -> (nth j r 0 = 0 \/ nth j r 0 = 1)%Z.
Proof.
  intros H. destruct (nth_in_or_default j r 0%Z) as [Hin | ->]; [| left; reflexivity].
  rewrite Forall_forall in H. apply H, Hin.
Qed.

(** X14: on a non-empty set of binary data points, entry [(j, k)] of
    [compute_correlation_matrix] is the fraction of data points in which the
    columns [j] and [k] are both set; the matrix is square of the width of
    the data, and symmetric. *)
Theorem correlation_is_pair_frequency (D : int_matrix) :
  irows D <> [] -> binary_data D ->
  length (compute_correlation_matrix D) = icols D /\
  Forall (fun r => length r = icols D) (compute_correlation_matrix D) /\
  forall j k, (j < icols D)%nat -> (k < icols D)%nat ->
    fentry (compute_correlation_matrix D) j k
    = Fin (INR (pair_count D j k) / INR (length (irows D))) /\
    fentry (compute_correlation_matrix D) j k
    = fentry (compute_correlation_matrix D) k j.
Proof.
  intros Hne Hbin.
  assert (HM : INR (length (irows D)) <> 0).
  { apply not_0_INR. destruct (irows D); [contradiction | discriminate]. }
  assert (Hcell : forall j k, (j < icols D)%nat -> (k < icols D)%nat ->
            fentry (compute_correlation_matrix D) j k
            = Fin (INR (pair_count D j k) / INR (length (irows D)))).
  { intros j k Hj Hk. rewrite fentry_compute_correlation_matrix by assumption.
    unfold np_divide. destruct (Req_EM_T (INR (length (irows D))) 0); [contradiction |].
    f_equal. f_equal. unfold pair_count. rewrite <- np_sum_indicator.
    f_equal. apply map_ext_in. intros r Hr.
    unfold binary_data in Hbin. rewrite Forall_forall in Hbin.
    destruct (Hbin r Hr) as [_ Hr01].
    apply binary_product; apply binary_nth; exact Hr01. }
  split; [| split].
  - unfold compute_correlation_matrix. rewrite length_map, length_seq. reflexivity.
  - unfold compute_correlation_matrix. rewrite Forall_map. apply Forall_forall.
    intros j _. rewrite length_map, length_seq. reflexivity.
  - intros j k Hj Hk. split; [apply Hcell; assumption |].
    rewrite !Hcell by assumption. unfold pair_count.
    do 4 f_equal. apply filter_ext. intros r. apply andb_comm.
Qed.

Lemma correlation_is_pair_frequency_witness :
  length (compute_correlation_matrix {| icols := 2; irows := [[1; 0]; [1; 1]]%Z |}) = 2%nat /\
  Forall (fun r => length r = 2%nat)
         (compute_correlation_matrix {| icols := 2; irows := [[1; 0]; [1; 1]]%Z |}) /\
  forall j k, (j < 2)%nat -> (k < 2)%nat ->
    fentry (compute_correlation_matrix {| icols := 2; irows := [[1; 0]; [1; 1]]%Z |}) j k
    = Fin (INR (pair_count {| icols := 2; irows := [[1; 0]; [1; 1]]%Z |} j k)
           / INR (length [[1; 0]; [1; 1]]%Z)) /\
    fentry (compute_correlation_matrix {| icols := 2; irows := [[1; 0]; [1; 1]]%Z |}) j k
    = fentry (compute_correlation_matrix {| icols := 2; irows := [[1; 0]; [1; 1]]%Z |}) k j.
Proof.
  apply (correlation_is_pair_frequency {| icols := 2; irows := [[1; 0]; [1; 1]]%Z |}).
  - discriminate.
  - unfold binary_data. cbn [irows icols].
    repeat (apply Forall_cons; [split; [reflexivity |] |]); try apply Forall_nil;
      apply Forall_forall; cbn; intros z Hz; intuition.
Defined.

(** X15: for data points that satisfy the one-hot block invariant (the rows
    [seq2occurrence] builds), two different symbols of one position never
    occur together: the self-blocks of the correlation matrix are zero off
    the diagonal. *)
Theorem correlation_self_blocks_diagonal (D : int_matrix) (qg : nat) :
  irows D <> [] -> binary_data D ->
  Forall (one_hot_blocks Z.eq_dec 1%Z qg) (irows D) ->
  forall i a b, (a < qg)%nat -> (b < qg)%nat -> a <> b ->
    (i * qg + a < icols D)%nat -> (i * qg + b < icols D)%nat ->
    fentry (compute_correlation_matrix D) (i * qg + a) (i * qg + b) = Fin 0.
Proof.
  intros Hne Hbin Hhot i a b Ha Hb Hab Hja Hjb.
  assert (HM : INR (length (irows D)) <> 0).
  { apply not_0_INR. destruct (irows D); [contradiction | discriminate]. }
  rewrite fentry_compute_correlation_matrix by assumption.
  assert (Hzero : np_sum (map (fun r => IZR (nth (i * qg + a) r 0%Z)
                                        * IZR (nth (i * qg + b) r 0%Z)) (irows D)) = 0).
  { apply np_sum_map_zero. intros r Hr.
    unfold binary_data in Hbin. rewrite Forall_forall in Hbin, Hhot.
    destruct (Hbin r Hr) as [Hlen Hr01]. specialize (Hhot r Hr).
    rewrite one_hot_blocks_iff in Hhot.
    rewrite binary_product by (apply binary_nth; exact Hr01).
    unfold is_one_Z.
    destruct (Z.eqb_spec (nth (i * qg + a) r 0%Z) 1) as [Ea |]; [| reflexivity].
    destruct (Z.eqb_spec (nth (i * qg + b) r 0%Z) 1) as [Eb |]; [| reflexivity].
    exfalso. apply Hab. apply (Hhot i a b Ha Hb).
    - rewrite <- Ea. apply nth_error_nth'. lia.
    - rewrite <- Eb. apply nth_error_nth'. lia. }
  rewrite Hzero. unfold np_divide.
  destruct (Req_EM_T (INR (length (irows D))) 0); [contradiction |].
  f_equal. field. exact HM.
Qed.

Lemma correlation_self_blocks_diagonal_witness :
  fentry (compute_correlation_matrix {| icols := 2; irows := [[1; 0]; [0; 1]]%Z |})
         (0 * 2 + 0) (0 * 2 + 1) = Fin 0.
Proof.
  apply (correlation_self_blocks_diagonal
           {| icols := 2; irows := [[1; 0]; [0; 1]]%Z |} 2); cbn [irows icols]; try lia.
  - discriminate.
  - unfold binary_data. cbn [irows icols].
    repeat (apply Forall_cons; [split; [reflexivity |] |]); try apply Forall_nil;
      apply Forall_forall; cbn; intros z Hz; intuition.
  - apply Forall_cons; [| apply Forall_cons; [| apply Forall_nil]];
      intros [| i]; unfold slice; cbn; rewrite ?skipn_nil, ?firstn_nil; cbn; lia.
Defined.

Lemma map_seq_const {B : Type} (c : B) (s n : nat) :
  map (fun _ : nat => c) (seq s n) = repeat c n.
Proof.
  revert s. induction n as [| n IH]; intros s; [reflexivity |].
  cbn [seq map repeat]. rewrite IH. reflexivity.
Qed.

(** X16: with no data point at all (an array of shape [(0, n)]) the result
    is the [n] by [n] matrix whose every entry is [nan]: the division is
    [0/0], which numpy answers with a warning, not an exception. *)
Theorem correlation_of_no_data (n : nat) :
  compute_correlation_matrix {| icols := n; irows := [] |} = repeat (repeat NaN n) n /\
  forall j k, (j < n)%nat -> (k < n)%nat ->
    fentry (compute_correlation_matrix {| icols := n; irows := [] |}) j k = NaN.
Proof.
  assert (Hall : compute_correlation_matrix {| icols := n; irows := [] |}
                 = repeat (repeat NaN n) n).
  { unfold compute_correlation_matrix. cbn [irows icols map length INR].
    assert (Hcell : np_divide (vdot [] []) 0 = NaN).
    { unfold np_divide. change (vdot [] []) with 0.
      destruct (Req_EM_T 0 0) as [_ | H]; [reflexivity | contradiction H; reflexivity]. }
    rewrite Hcell, !map_seq_const. reflexivity. }
  split; [exact Hall |].
  intros j k Hj Hk. rewrite Hall. unfold fentry.
  rewrite (nth_indep _ [] (repeat NaN n)) by (rewrite repeat_length; exact Hj).
  rewrite !nth_repeat. reflexivity.
Qed.

Lemma correlation_of_no_data_witness :
  compute_correlation_matrix {| icols := 3; irows := [] |} = repeat (repeat NaN 3) 3 /\
  fentry (compute_correlation_matrix {| icols := 3; irows := [] |}) 1 2 = NaN.
Proof.
  destruct (correlation_of_no_data 3) as [Hall Hentry].
  split; [exact Hall | apply Hentry; lia].
Defined.

(** ** Flattening the correlation matrix *)

Lemma fold_left_app_flat_map {A B : Type} (f : A -> list B) (l : list A) (acc : list B) :
  fold_left (fun fl a => fl ++ f a) l acc = acc ++ flat_map f l.
Proof.
  revert acc. induction l as [| x l IH]; intros acc; cbn [fold_left flat_map].
  - symmetry. apply app_nil_r.
  - rewrite IH, app_assoc. reflexivity.
Qed.

Lemma flat_map_ext_seq {B : Type} (f g : nat -> list B) (s n : nat) :
  (forall a, (s <= a < s + n)%nat -> f a = g a) ->
  flat_map f (seq s n) = flat_map g (seq s n).
Proof.
  revert s. induction n as [| n IH]; intros s H; [reflexivity |].
  cbn [seq flat_map]. rewrite (H s) by lia. f_equal.
  apply IH. intros a Ha. apply H. lia.
Qed.

Lemma flat_map_seq_shift {B : Type} (g : nat -> list B) (s n : nat) :
  flat_map g (seq s n) = flat_map (fun a => g (s + a)%nat) (seq 0 n).
Proof.
  induction n as [| n IH]; [reflexivity |].
  rewrite !seq_S, !flat_map_app, IH. reflexivity.
Qed.

Lemma flat_map_blocks {B : Type} (g : nat -> list B) (L qg : nat) :
  flat_map g (seq 0 (L * qg))
  = flat_map (fun i => flat_map (fun a => g (i * qg + a)%nat) (seq 0 qg)) (seq 0 L).
Proof.
  induction L as [| L IH]; [reflexivity |].
  replace (S L * qg)%nat with (L * qg + qg)%nat by lia.
  rewrite seq_app, seq_S, !flat_map_app, IH. cbn [flat_map Nat.add].
  rewrite app_nil_r, (flat_map_seq_shift g (L * qg) qg). reflexivity.
Qed.

(** The two loops of [flatten_correlation_matrix] as a nested concatenation. *)
Lemma flatten_correlation_matrix_nested (corr : matrix) (q : nat) :
  (2 <= q)%nat ->
  flatten_correlation_matrix corr q
  = Ok (flat_map
          (fun i => flat_map
                      (fun a => skipn ((i + 1) * (q - 1))
                                      (nth (i * (q - 1) + a) (rows corr) []))
                      (seq 0 (q - 1)))
          (seq 0 (length (rows corr) / (q - 1)))).
Proof.
  intros Hq. unfold flatten_correlation_matrix.
  destruct (Nat.eqb_spec (q - 1) 0); [lia |]. f_equal.
  set (inner := fun i a => skipn ((i + 1) * (q - 1)) (nth (i * (q - 1) + a) (rows corr) [])).
  assert (Hloop : forall l acc,
            fold_left (fun flatten i =>
                         fold_left (fun fl a => fl ++ inner i a) (seq 0 (q - 1)) flatten)
                      l acc
            = acc ++ flat_map (fun i => flat_map (inner i) (seq 0 (q - 1))) l).
  { induction l as [| i l IH]; intros acc; cbn [fold_left flat_map].
    - symmetry. apply app_nil_r.
    - rewrite IH, fold_left_app_flat_map, app_assoc. reflexivity. }
  apply (Hloop _ []).
Qed.

Lemma flatten_blocks_length (rws : list (list R)) (qg N : nat) :
  Forall (fun r => length r = (N * qg)%nat) rws ->
  length rws = (N * qg)%nat ->
  forall L, (L <= N)%nat ->
    (2 * length (flat_map
                   (fun i => flat_map
                               (fun a => skipn ((i + 1) * qg) (nth (i * qg + a) rws []))
                               (seq 0 qg))
                   (seq 0 L))
     + qg * qg * (L * (L + 1)) = 2 * (qg * qg * (L * N)))%nat.
Proof.
  intros Hwf Hrows. induction L as [| L IH]; intros HL; [cbn; lia |].
  rewrite seq_S, flat_map_app, length_app. cbn [flat_map Nat.add].
  rewrite app_nil_r.
  assert (Hinner : length (flat_map
                             (fun a => skipn ((L + 1) * qg) (nth (L * qg + a) rws []))
                             (seq 0 qg))
                   = (qg * ((N - (L + 1)) * qg))%nat).
  { rewrite (flat_map_constant_length (c := ((N - (L + 1)) * qg)%nat)).
    - rewrite length_seq. reflexivity.
    - intros a Ha. apply in_seq in Ha. rewrite length_skipn.
      rewrite Forall_forall in Hwf.
      rewrite (Hwf (nth (L * qg + a) rws [])) by (apply nth_In; nia).
      nia. }
  rewrite Hinner. specialize (IH ltac:(lia)).
  assert (HN : exists d, N = (d + L + 1)%nat) by (exists (N - L - 1)%nat; lia).
  destruct HN as [d ->]. replace (d + L + 1 - (L + 1))%nat with d by lia.
  nia.
Qed.

(** X17: what [flatten_correlation_matrix] keeps.  For [q >= 2] it returns,
    row after row, the entries to the right of the row's own position block
    (the pairs of a position with a strictly later one); on a square matrix of
    [N] positions these are [(q-1)^2 N (N-1) / 2] numbers. *)
Theorem flatten_correlation_matrix_upper_blocks (corr : matrix) (q N : nat) :
  (2 <= q)%nat ->
  exists fl,
    flatten_correlation_matrix corr q = Ok fl /\
    fl = flat_map (fun r => skipn ((r / (q - 1) + 1) * (q - 1)) (nth r (rows corr) []))
                  (seq 0 (length (rows corr) / (q - 1) * (q - 1))) /\
    (wf_matrix corr -> length (rows corr) = (N * (q - 1))%nat ->
     ncols corr = (N * (q - 1))%nat ->
     (2 * length fl = (q - 1) * (q - 1) * (N * (N - 1)))%nat).
Proof.
  intros Hq. eexists. split; [apply flatten_correlation_matrix_nested; exact Hq |].
  set (qg := (q - 1)%nat). assert (Hqg : (0 < qg)%nat) by (subst qg; lia).
  split.
  - rewrite flat_map_blocks. symmetry.
    apply flat_map_ext_seq. intros i _. apply flat_map_ext_seq. intros a Ha.
    replace ((i * qg + a) / qg)%nat with i
      by (apply (Nat.div_unique _ qg i a); lia).
    reflexivity.
  - intros Hwf Hrows Hcols.
    replace (length (rows corr) / qg)%nat with N
      by (rewrite Hrows; symmetry; apply Nat.div_mul; lia).
    pose proof (flatten_blocks_length (rows corr) qg N) as Hlen.
    unfold wf_matrix in Hwf. rewrite Hcols in Hwf.
    specialize (Hlen Hwf Hrows N (le_n N)).
    destruct N as [| N]; [cbn in *; lia |].
    replace (S N - 1)%nat with N by lia. nia.
Qed.

Lemma flatten_correlation_matrix_upper_blocks_witness :
  exists fl,
    flatten_correlation_matrix {| ncols := 2; rows := [[1; 2]; [3; 4]] |} 2 = Ok fl /\
    fl = flat_map (fun r => skipn ((r / (2 - 1) + 1) * (2 - 1)) (nth r [[1; 2]; [3; 4]] []))
                  (seq 0 (length [[1; 2]; [3; 4]] / (2 - 1) * (2 - 1))) /\
    (wf_matrix {| ncols := 2; rows := [[1; 2]; [3; 4]] |} ->
     length [[1; 2]; [3; 4]] = (2 * (2 - 1))%nat ->
     2%nat = (2 * (2 - 1))%nat ->
     (2 * length fl = (2 - 1) * (2 - 1) * (2 * (2 - 1)))%nat).
Proof.
  apply (flatten_correlation_matrix_upper_blocks
           {| ncols := 2; rows := [[1; 2]; [3; 4]] |} 2 2).
  lia.
Defined.

(** ** The Metropolis chain: acceptance rule, state space, errors *)

Lemma randint_inv (high : nat) (g : rng) (r : nat) (g' : rng) :
  randint high g = Ok (r, g') ->
  (r < high)%nat /\ unifs g' = unifs g /\
  g' = {| ints := fun k => ints g (S k); unifs := unifs g |}.
Proof.
  unfold randint. destruct (Nat.eqb_spec high 0); [discriminate |].
  cbn [next_int]. intros H. injection H as <- <-.
  split; [apply Nat.mod_upper_bound; assumption | split; reflexivity].
Qed.

(** What one successful iteration of the loop did. *)
Lemma metropolis_step_inv (jcoupl : matrix) (p : list R) (beta : R) (q_true : nat)
    (dt : int_dtype) (s : list Z) (g : rng) (s' : list Z) (g' : rng) :
  metropolis_step jcoupl p beta q_true dt (s, g) = Ok (s', g') ->
  (2 <= q_true)%nat /\
  exists pos_t t_n s_t e,
    (pos_t < length p / (q_true - 1))%nat /\ (t_n < q_true)%nat /\
    set_slice s (pos_t * (q_true - 1)) ((pos_t + 1) * (q_true - 1))
              (proposal_block q_true t_n) = Ok s_t /\
    energy_diff jcoupl p q_true pos_t dt s s_t = Ok e /\
    s' = (if Rlt_dec (unifs g 0) (Rmin 1 (exp (- beta * e))) then s_t else s).
Proof.
  unfold metropolis_step.
  destruct (Nat.eqb_spec (q_true - 1) 0) as [| Hqg]; [discriminate |].
  destruct (randint (length p / (q_true - 1)) g) as [[pos_t g1] | e1] eqn:Hpos;
    cbn [bind]; [| discriminate].
  destruct (randint q_true g1) as [[t_n g2] | e2] eqn:Htn; cbn [bind]; [| discriminate].
  destruct (set_slice s _ _ _) as [s_t | e3] eqn:Hset; cbn [bind]; [| discriminate].
  destruct (energy_diff _ _ _ _ _ _ _) as [e | e4] eqn:He; cbn [bind]; [| discriminate].
  cbn [next_unif]. intros H. injection H as Hs' _.
  apply randint_inv in Hpos, Htn.
  destruct Hpos as (Hpos & Hu1 & _), Htn as (Htn & Hu2 & _).
  split; [lia |].
  exists pos_t, t_n, s_t, e. rewrite Hu2, Hu1 in Hs'.
  repeat split; auto.
Qed.

(** X18: the acceptance rule of a Metropolis step.  A step that completes
    proposed a state [s_t] (one block of [s] overwritten by a one-hot block)
    with energy difference [e]; for a uniform draw [x] in [0, 1) the new state
    is [s_t] whenever [beta * e <= 0] (in particular always at [beta = 0]),
    and otherwise [s_t] exactly when [x < exp (- beta * e)]; it is never
    anything but [s_t] or [s]. *)
Theorem metropolis_step_acceptance (jcoupl : matrix) (p : list R) (beta : R)
    (q_true : nat) (dt : int_dtype) (s : list Z) (g : rng) (s' : list Z) (g' : rng) :
  metropolis_step jcoupl p beta q_true dt (s, g) = Ok (s', g') ->
  0 <= unifs g 0 < 1 ->
  exists pos_t t_n s_t e,
    (pos_t < length p / (q_true - 1))%nat /\ (t_n < q_true)%nat /\
    set_slice s (pos_t * (q_true - 1)) ((pos_t + 1) * (q_true - 1))
              (proposal_block q_true t_n) = Ok s_t /\
    energy_diff jcoupl p q_true pos_t dt s s_t = Ok e /\
    (s' = s_t \/ s' = s) /\
    (beta * e <= 0 -> s' = s_t) /\
    (unifs g 0 < exp (- beta * e) -> s' = s_t) /\
    (exp (- beta * e) <= unifs g 0 -> s' = s).
Proof.
  intros Hstep Hx.
  destruct (metropolis_step_inv _ _ _ _ _ _ _ _ _ Hstep)
    as (_ & pos_t & t_n & s_t & e & Hpos & Htn & Hset & He & Hs').
  exists pos_t, t_n, s_t, e. repeat split; try assumption.
  - destruct (Rlt_dec _ _) in Hs'; [left | right]; exact Hs'.
  - intros Hdown.
    assert (1 <= exp (- beta * e)).
    { rewrite <- exp_0. destruct (Req_dec (- beta * e) 0) as [-> | Hne]; [lra |].
      left. apply exp_increasing. lra. }
    rewrite Rmin_left in Hs' by assumption.
    destruct (Rlt_dec _ _) in Hs'; [exact Hs' | lra].
  - intros Hlt. destruct (Rlt_dec _ _) as [| Hn] in Hs'; [exact Hs' |].
    exfalso. apply Hn. apply Rmin_glb_lt; lra.
  - intros Hge. destruct (Rlt_dec _ _) as [Hl |] in Hs'; [| exact Hs'].
    exfalso. pose proof (Rmin_r 1 (exp (- beta * e))). lra.
Qed.

Lemma metropolis_step_acceptance_witness :
  exists s' pos_t t_n s_t e,
    (pos_t < length [0] / (2 - 1))%nat /\ (t_n < 2)%nat /\
    set_slice [0%Z] (pos_t * (2 - 1)) ((pos_t + 1) * (2 - 1)) (proposal_block 2 t_n)
    = Ok s_t /\
    energy_diff {| ncols := 1; rows := [[0]] |} [0] 2 pos_t np_int_ [0%Z] s_t = Ok e /\
    (s' = s_t \/ s' = [0%Z]) /\
    (1 * e <= 0 -> s' = s_t) /\
    (unifs zero_rng 0 < exp (- 1 * e) -> s' = s_t) /\
    (exp (- 1 * e) <= unifs zero_rng 0 -> s' = [0%Z]).
Proof.
  destruct (metropolis_step_total {| ncols := 1; rows := [[0]] |} [0] 1 2 np_int_
                                  [0%Z] zero_rng 1)
    as (s' & g' & Hstep & _);
    try reflexivity; try lia; [repeat constructor |].
  exists s'.
  apply (metropolis_step_acceptance {| ncols := 1; rows := [[0]] |} [0] 1 2 np_int_
                                    [0%Z] zero_rng s' g' Hstep).
  cbn. lra.
Defined.

(** X19: a Metropolis step is a single-position update.  A step that
    completes keeps the length of the state and its entries in {0, 1}, and
    changes nothing outside the block of one position of the model. *)
Theorem metropolis_step_single_block (jcoupl : matrix) (p : list R) (beta : R)
    (q_true : nat) (dt : int_dtype) (s : list Z) (g : rng) (s' : list Z) (g' : rng) :
  metropolis_step jcoupl p beta q_true dt (s, g) = Ok (s', g') ->
  Forall (fun z => z = 0 \/ z = 1)%Z s ->
  length s' = length s /\
  Forall (fun z => z = 0 \/ z = 1)%Z s' /\
  exists pos_t, (pos_t < length p / (q_true - 1))%nat /\
    forall j, ~ (pos_t * (q_true - 1) <= j < (pos_t + 1) * (q_true - 1))%nat ->
              nth j s' 0%Z = nth j s 0%Z.
Proof.
  intros Hstep Hbin.
  destruct (metropolis_step_inv _ _ _ _ _ _ _ _ _ Hstep)
    as (Hq & pos_t & t_n & s_t & e & Hpos & Htn & Hset & He & Hs').
  destruct (proposal_state_valid s q_true pos_t t_n s_t Hq Hbin Hset)
    as (Hlen & Hbin' & Hout).
  destruct (Rlt_dec _ _) in Hs'; subst s'.
  - split; [exact Hlen |]. split; [exact Hbin' |]. exists pos_t. split; assumption.
  - split; [reflexivity |]. split; [exact Hbin |]. exists pos_t.
    split; [exact Hpos | reflexivity].
Qed.

Lemma metropolis_step_single_block_witness :
  exists s',
    length s' = length [0%Z] /\
    Forall (fun z => z = 0 \/ z = 1)%Z s' /\
    exists pos_t, (pos_t < length [0] / (2 - 1))%nat /\
      forall j, ~ (pos_t * (2 - 1) <= j < (pos_t + 1) * (2 - 1))%nat ->
                nth j s' 0%Z = nth j [0%Z] 0%Z.
Proof.
  destruct (metropolis_step_total {| ncols := 1; rows := [[0]] |} [0] 1 2 np_int_
                                  [0%Z] zero_rng 1)
    as (s' & g' & Hstep & _);
    try reflexivity; try lia; [repeat constructor |].
  exists s'.
  apply (metropolis_step_single_block {| ncols := 1; rows := [[0]] |} [0] 1 2 np_int_
                                      [0%Z] zero_rng s' g' Hstep).
  repeat constructor.
Defined.

Lemma metropolis_loop_binary (jcoupl : matrix) (p : list R) (beta : R) (q_true : nat)
    (dt : int_dtype) :
  forall (Nsteps : nat) (s : list Z) (g : rng) (s' : list Z) (g' : rng),
  metropolis_loop Nsteps jcoupl p beta q_true dt (s, g) = Ok (s', g') ->
  Forall (fun z => z = 0 \/ z = 1)%Z s ->
  Forall (fun z => z = 0 \/ z = 1)%Z s'.
Proof.
  induction Nsteps as [| k IH]; intros s g s' g' Hrun Hbin.
  - cbn in Hrun. injection Hrun as <- _. exact Hbin.
  - cbn [metropolis_loop] in Hrun.
    destruct (metropolis_step jcoupl p beta q_true dt (s, g)) as [[s1 g1] | e] eqn:Hstep;
      cbn [bind] in Hrun; [| discriminate].
    destruct (metropolis_step_inv _ _ _ _ _ _ _ _ _ Hstep)
      as (Hq & pos_t & t_n & s_t & e & _ & _ & Hset & _ & Hs1).
    destruct (proposal_state_valid s q_true pos_t t_n s_t Hq Hbin Hset)
      as (_ & Hbin' & _).
    apply (IH s1 g1 s' g' Hrun).
    destruct (Rlt_dec _ _) in Hs1; subst s1; assumption.
Qed.

(** X20: on a model of consistent shape (an [n] by [n] coupling matrix and
    [n] frequencies, [n] at least one block) the chain from the default start
    never fails: for every number of steps, temperature and random stream
    [metropolis] prints nothing and returns a vector of length [n] with
    entries in {0, 1} and at most one 1 per block. *)
Theorem metropolis_default_chain_valid (jcoupl : matrix) (p : list R) (Nsteps : nat)
    (beta : R) (q_true : nat) (g : rng) (n : nat) :
  wf_matrix jcoupl -> ncols jcoupl = n -> length (rows jcoupl) = n ->
  length p = n -> (2 <= q_true)%nat -> (q_true - 1 <= n)%nat ->
  exists s,
    metropolis jcoupl p Nsteps beta q_true StartNaN g = Ok ([], RetState np_int_ s) /\
    length s = n /\
    Forall (fun z => z = 0 \/ z = 1)%Z s /\
    one_hot_blocks Z.eq_dec 1%Z (q_true - 1) s.
Proof.
  intros Hwf Hc Hr Hp Hq Hn.
  destruct (metropolis_total jcoupl p Nsteps beta q_true g n Hwf Hc Hr Hp Hq Hn)
    as (s & Hrun & Hlen).
  exists s. split; [exact Hrun |]. split; [exact Hlen |]. split.
  - unfold metropolis in Hrun.
    destruct (initial_config_default p g) as (g0 & Hinit).
    rewrite Hinit in Hrun. cbn [bind] in Hrun.
    destruct (metropolis_loop _ _ _ _ _ _ _) as [[s1 g1] | e] eqn:Hloop;
      cbn [bind] in Hrun; [| discriminate].
    injection Hrun as <-.
    apply (metropolis_loop_binary _ _ _ _ _ _ _ _ _ _ Hloop).
    apply Forall_forall. intros z Hz. apply repeat_spec in Hz. left. exact Hz.
  - apply (metropolis_one_hot jcoupl p Nsteps beta q_true StartNaN g [] np_int_ s);
      [discriminate | exact Hrun].
Qed.

Lemma metropolis_default_chain_valid_witness :
  exists s,
    metropolis {| ncols := 1; rows := [[0]] |} [0] 5 1 2 StartNaN zero_rng
    = Ok ([], RetState np_int_ s) /\
    length s = 1%nat /\
    Forall (fun z => z = 0 \/ z = 1)%Z s /\
    one_hot_blocks Z.eq_dec 1%Z (2 - 1) s.
Proof.
  apply (metropolis_default_chain_valid {| ncols := 1; rows := [[0]] |} [0] 5 1 2
                                        zero_rng 1);
    try reflexivity; try lia.
  repeat constructor.
Defined.

(** X21: degenerate models make the first step fail.  With at least one
    step, an alphabet of a single symbol raises [ZeroDivisionError]
    ([len(p) // 0]), and a frequency vector shorter than one block raises
    [ValueError] ([randint(0)]); neither is caught. *)
Theorem metropolis_degenerate_model (jcoupl : matrix) (p : list R) (Nsteps : nat)
    (beta : R) (q_true : nat) (g : rng) :
  (1 <= Nsteps)%nat ->
  metropolis jcoupl p Nsteps beta 1 StartNaN g = Raise ZeroDivisionError /\
  ((2 <= q_true)%nat -> (length p < q_true - 1)%nat ->
   metropolis jcoupl p Nsteps beta q_true StartNaN g = Raise ValueError).
Proof.
  intros HN. destruct Nsteps as [| k]; [lia |].
  destruct (initial_config_default p g) as (g0 & Hinit).
  unfold metropolis. rewrite Hinit. cbn [bind metropolis_loop].
  split.
  - reflexivity.
  - intros Hq Hshort. unfold metropolis_step.
    destruct (Nat.eqb_spec (q_true - 1) 0); [lia |].
    rewrite Nat.div_small by exact Hshort. reflexivity.
Qed.

Lemma metropolis_degenerate_model_witness :
  metropolis {| ncols := 0; rows := [] |} [] 1 1 1 StartNaN zero_rng
  = Raise ZeroDivisionError /\
  ((2 <= 21)%nat -> (length (@nil R) < 21 - 1)%nat ->
   metropolis {| ncols := 0; rows := [] |} [] 1 1 21 StartNaN zero_rng = Raise ValueError).
Proof.
  apply (metropolis_degenerate_model {| ncols := 0; rows := [] |} [] 1 1 21 zero_rng).
  lia.
Defined.

(** ** From an alignment to its pair frequencies *)

Lemma seq2num_rows_nonempty (seqs_AA : seq_arg) (codes : list (list Z)) :
  seq2num seqs_AA = Ok (Arr2 codes) -> codes <> [].
Proof.
  destruct seqs_AA as [s | l]; cbn [seq2num].
  - destruct (encode_str s); cbn [bind]; [| discriminate].
    intros H. injection H as <-. discriminate.
  - destruct (mapM encode_str l) as [rows | e]; cbn [bind]; [| discriminate].
    destruct rows as [| r rs]; cbn [np_array]; [discriminate |].
    destruct (forallb _ rs); [| discriminate].
    intros H. injection H as <-. discriminate.
Qed.

Lemma np_sum_map_rows {A B : Type} (F : A -> R) (G : B -> R)
    (M : list A) (codes : list B) (dA : A) (dB : B) :
  length M = length codes ->
  (forall b, (b < length codes)%nat -> F (nth b M dA) = G (nth b codes dB)) ->
  np_sum (map F M) = np_sum (map G codes).
Proof.
  intros Hlen H.
  rewrite <- (map_nth_seq M dA) at 1. rewrite <- (map_nth_seq codes dB) at 1.
  rewrite !map_map, Hlen. f_equal.
  apply map_ext_in. intros b Hb. apply in_seq in Hb. apply H. lia.
Qed.

(** X22: the statistics pipeline.  For an encoded alignment ([seq2num]
    succeeded with [B] rows of codes), the correlation matrix of its
    occurrence matrix holds at [(i, a), (j, b)] the fraction of the [B]
    sequences that carry symbol [a] at position [i] and symbol [b] at
    position [j]. *)
Theorem alignment_pair_frequencies (seqs_AA : seq_arg) (q_true : nat)
    (codes : list (list Z)) :
  seq2num seqs_AA = Ok (Arr2 codes) -> (2 <= q_true)%nat ->
  exists M,
    seq2occurrence seqs_AA q_true = Ok M /\
    forall i a j b,
      (i < length (hd [] codes))%nat -> (j < length (hd [] codes))%nat ->
      (a < q_true - 1)%nat -> (b < q_true - 1)%nat ->
      fentry (compute_correlation_matrix
                {| icols := length (hd [] codes) * (q_true - 1); irows := M |})
             (i * (q_true - 1) + a) (j * (q_true - 1) + b)
      = Fin (INR (code_pair_count codes i a j b) / INR (length codes)).
Proof.
  intros Hnum Hq.
  destruct (seq2occurrence_cells seqs_AA q_true codes Hnum Hq) as (M & Hocc & HB & Hcell).
  exists M. split; [exact Hocc |].
  intros i a j b Hi Hj Ha Hb.
  set (qg := (q_true - 1)%nat) in *.
  rewrite fentry_compute_correlation_matrix by (cbn [icols]; nia).
  cbn [irows].
  assert (HM : INR (length M) <> 0).
  { apply not_0_INR. rewrite HB. pose proof (seq2num_rows_nonempty _ _ Hnum).
    destruct codes; [contradiction | discriminate]. }
  unfold np_divide. destruct (Req_EM_T (INR (length M)) 0); [contradiction |].
  rewrite HB. f_equal. f_equal.
  unfold code_pair_count. rewrite <- np_sum_indicator.
  apply (np_sum_map_rows _ _ M codes [] [] HB).
  intros r Hr. destruct (Hcell r Hr) as [_ Hval].
  cbn beta. rewrite (Hval i a Hi Ha), (Hval j b Hj Hb).
  destruct (nth i (nth r codes []) 0 =? Z.of_nat a)%Z,
           (nth j (nth r codes []) 0 =? Z.of_nat b)%Z; cbn [andb]; lra.
Qed.

Lemma alignment_pair_frequencies_witness :
  exists M,
    seq2occurrence (PyList ["AC"; "AD"]%string) 21 = Ok M /\
    forall i a j b,
      (i < length (hd [] [[1; 2]; [1; 3]]%Z))%nat ->
      (j < length (hd [] [[1; 2]; [1; 3]]%Z))%nat ->
      (a < 21 - 1)%nat -> (b < 21 - 1)%nat ->
      fentry (compute_correlation_matrix
                {| icols := length (hd [] [[1; 2]; [1; 3]]%Z) * (21 - 1); irows := M |})
             (i * (21 - 1) + a) (j * (21 - 1) + b)
      = Fin (INR (code_pair_count [[1; 2]; [1; 3]]%Z i a j b)
             / INR (length [[1; 2]; [1; 3]]%Z)).
Proof.
  apply (alignment_pair_frequencies (PyList ["AC"; "AD"]%string) 21 [[1; 2]; [1; 3]]%Z).
  - reflexivity.
  - lia.
Defined.

(** ** A frequency vector with an incomplete last position *)

(** X23: when the length of the frequency vector is not a multiple of
    [q - 1], [conservation_1hot] raises [ValueError] (the reshape fails),
    while [indip_model_fields] raises nothing and returns, for the entries
    after the last complete position, values that are not finite (the gauge
    frequency there is left at zero).  The vector is given as the float64
    array [conservation_1hot] takes and by the values [indip_model_fields]
    computes with; only its length matters. *)
Theorem incomplete_last_position (freqs64 : list f64) (freqs : list R) (alpha : R)
    (q : nat) :
  (2 <= q)%nat -> length freqs64 = length freqs ->
  (length freqs mod (q - 1) <> 0)%nat ->
  conservation_1hot freqs64 q = Raise ValueError /\
  exists fields,
    indip_model_fields freqs alpha q = Ok fields /\
    length fields = length freqs /\
    forall k, (length freqs / (q - 1) * (q - 1) <= k < length freqs)%nat ->
      is_finite (nth k fields NaN) = false.
Proof.
  intros Hq Hsame Hmod.
  set (qg := (q - 1)%nat) in *. assert (Hqg : (0 < qg)%nat) by (subst qg; lia).
  pose proof (Nat.div_mod_eq (length freqs) qg) as Hdm.
  split.
  - unfold conservation_1hot. fold qg.
    destruct (Nat.eqb_spec qg 0); [lia |].
    unfold np_reshape. rewrite Hsame.
    destruct (Nat.eqb_spec (length freqs / qg * qg) (length freqs)); [lia |].
    reflexivity.
  - unfold indip_model_fields. fold qg.
    destruct (Nat.eqb_spec qg 0); [lia |].
    set (pc := map (fun f => f * (1 - alpha) + alpha / INR q) freqs).
    set (G := fun i : nat => 1 - np_sum (slice pc (i * qg) ((i + 1) * qg))).
    destruct (gauge_loop_spec G qg Hqg (length freqs / qg) 0 (repeat 0 (length pc)))
      as [Hlen Hnth].
    set (fg := fold_left _ _ _) in *.
    assert (Hpc : length pc = length freqs) by (subst pc; apply length_map).
    rewrite repeat_length in Hlen, Hnth.
    eexists. split; [reflexivity |]. split.
    + rewrite length_map, length_combine, Hlen, Hpc. apply Nat.min_id.
    + intros k Hk.
      assert (Hblock : (length freqs / qg <= k / qg)%nat)
        by (apply Nat.div_le_lower_bound; lia).
      rewrite nth_as_nth_error, nth_error_map, nth_error_combine.
      rewrite Hnth by lia.
      destruct (Nat.ltb_spec (k / qg) (0 + length freqs / qg)); [lia |].
      rewrite andb_false_r.
      rewrite (nth_error_nth' pc 0) by lia.
      rewrite (nth_error_nth' (repeat 0 (length pc)) 0) by (rewrite repeat_length; lia).
      cbn [option_map fst snd].
      rewrite nth_repeat. apply np_log_divide_zero_den.
Qed.

Lemma incomplete_last_position_witness :
  conservation_1hot [PrimFloat.div (f64_of_int 1) (f64_of_int 2);
                     PrimFloat.div (f64_of_int 1) (f64_of_int 4);
                     PrimFloat.div (f64_of_int 1) (f64_of_int 4)] 3
  = Raise ValueError /\
  exists fields,
    indip_model_fields [1 / 2; 1 / 4; 1 / 4] (1 / 10) 3 = Ok fields /\
    length fields = length [1 / 2; 1 / 4; 1 / 4] /\
    forall k, (length [1 / 2; 1 / 4; 1 / 4] / (3 - 1) * (3 - 1) <= k
               < length [1 / 2; 1 / 4; 1 / 4])%nat ->
      is_finite (nth k fields NaN) = false.
Proof.
  apply (incomplete_last_position
           [PrimFloat.div (f64_of_int 1) (f64_of_int 2);
            PrimFloat.div (f64_of_int 1) (f64_of_int 4);
            PrimFloat.div (f64_of_int 1) (f64_of_int 4)]
           [1 / 2; 1 / 4; 1 / 4] (1 / 10) 3).
  - lia.
  - reflexivity.
  - cbn. lia.
Defined.

(** ** The energy of the independent-site model *)

Lemma vdot_selected (seq fields : list R) :
  Forall (fun x => x = 0 \/ x = 1) seq ->
  vdot seq fields = np_sum (selected_fields fields seq).
Proof.
  unfold vdot, selected_fields. revert fields.
  induction seq as [| x seq IH]; intros fields Hbin; [reflexivity |].
  destruct fields as [| h fields]; [reflexivity |].
  inversion Hbin as [| ? ? Hx Hrest]; subst.
  cbn [combine map filter fst snd]. rewrite np_sum_cons, (IH fields Hrest).
  assert (E : is_one_R x = true /\ x = 1 \/ is_one_R x = false /\ x = 0).
  { unfold is_one_R. destruct Hx as [-> | ->]; destruct (Req_EM_T _ 1); auto; lra. }
  destruct E as [[-> ->] | [-> ->]].
  - cbn [map snd]. rewrite np_sum_cons. ring.
  - ring.
Qed.

(** X24: [energy_indip_model] on a matrix of sequences returns, row by row,
    what it returns on each row alone; and the energy of an occurrence vector
    is minus the sum of the fields of the symbols it has set. *)
Theorem energy_indip_model_rows (fields : list R) (M : matrix) :
  wf_matrix M -> ncols M = length fields ->
  exists es,
    energy_indip_model fields (ManySeqs M) = Ok (Energies es) /\
    length es = length (rows M) /\
    forall i row, nth_error (rows M) i = Some row ->
      energy_indip_model fields (OneSeq row) = Ok (Energy (nth i es 0)) /\
      (Forall (fun x => x = 0 \/ x = 1) row ->
       nth i es 0 = - np_sum (selected_fields fields row)).
Proof.
  intros Hwf Hc. unfold energy_indip_model at 1. unfold np_dot_mv.
  rewrite Hc, Nat.eqb_refl. cbn [bind].
  eexists. split; [reflexivity |]. split; [rewrite !length_map; reflexivity |].
  intros i row Hrow.
  assert (Hval : nth i (map Ropp (map (fun r => vdot r fields) (rows M))) 0
                 = - vdot row fields).
  { rewrite nth_as_nth_error, !nth_error_map, Hrow. reflexivity. }
  rewrite Hval. split.
  - unfold energy_indip_model, np_dot_vv.
    unfold wf_matrix in Hwf. rewrite Forall_forall in Hwf.
    rewrite (Hwf row (nth_error_In _ _ Hrow)), Hc, Nat.eqb_refl. reflexivity.
  - intros Hbin. rewrite (vdot_selected row fields Hbin). reflexivity.
Qed.

Lemma energy_indip_model_rows_witness :
  exists es,
    energy_indip_model [2; 3] (ManySeqs {| ncols := 2; rows := [[1; 0]; [0; 0]] |})
    = Ok (Energies es) /\
    length es = length [[1; 0]; [0; 0]] /\
    forall i row, nth_error [[1; 0]; [0; 0]] i = Some row ->
      energy_indip_model [2; 3] (OneSeq row) = Ok (Energy (nth i es 0)) /\
      (Forall (fun x => x = 0 \/ x = 1) row ->
       nth i es 0 = - np_sum (selected_fields [2; 3] row)).
Proof.
  apply (energy_indip_model_rows [2; 3] {| ncols := 2; rows := [[1; 0]; [0; 0]] |}).
  - repeat constructor.
  - reflexivity.
Defined.

(** ** What [sample_data_indip] returns *)

Lemma foldM_invariant {A B : Type} (P : A -> Prop) (f : A -> B -> res A) (l : list B) :
  (forall a x a', In x l -> P a -> f a x = Ok a' -> P a') ->
  forall a a', P a -> foldM f l a = Ok a' -> P a'.
Proof.
  induction l as [| x l IH]; intros Hstep a a' Ha Hrun.
  - cbn in Hrun. injection Hrun as <-. exact Ha.
  - cbn [foldM] in Hrun. destruct (f a x) as [a1 | e] eqn:Hf; cbn [bind] in Hrun;
      [| discriminate].
    apply (IH (fun a0 y a0' Hy => Hstep a0 y a0' (or_intror Hy)) a1 a');
      [| exact Hrun].
    apply (Hstep a x a1); [left; reflexivity | exact Ha | exact Hf].
Qed.

(** X25: for [q >= 2] and any fields, inverse temperature and random stream,
    [sample_data_indip] returns a vector of the length of the fields whose
    entries are 0 or 1, with at most one 1 per block; entries after the last
    complete block are never set. *)
Theorem sample_data_indip_valid (fields : list R) (beta : R) (q : nat) (g : rng) :
  (2 <= q)%nat ->
  exists v g',
    sample_data_indip fields beta q g = Ok (v, g') /\
    length v = length fields /\
    Forall (fun x => x = 0 \/ x = 1) v /\
    one_hot_blocks Req_EM_T 1 (q - 1) v /\
    forall k, (length fields / (q - 1) * (q - 1) <= k)%nat -> nth k v 0 = 0.
Proof.
  intros Hq.
  destruct (sample_data_indip_total fields beta q g Hq) as (v & g' & Hrun).
  destruct (sample_data_indip_one_hot fields beta q g v g' Hrun) as [Hlen Hhot].
  exists v, g'. split; [exact Hrun |]. split; [exact Hlen |].
  assert (Hinv : Forall (fun x => x = 0 \/ x = 1) v /\
                 forall k, (length fields / (q - 1) * (q - 1) <= k)%nat -> nth k v 0 = 0).
  { unfold sample_data_indip in Hrun.
    destruct (Nat.eqb_spec (q - 1) 0); [lia |].
    set (qg := (q - 1)%nat) in *. set (L := (length fields / qg)%nat) in *.
    apply (foldM_invariant
             (fun st : list R * rng =>
                Forall (fun x => x = 0 \/ x = 1) (fst st) /\
                forall k, (L * qg <= k)%nat -> nth k (fst st) 0 = 0)
             _ _) with (a' := (v, g')) (3 := Hrun).
    - intros [v0 g0] i [v1 g1] Hi [Hbin Htail]. cbn [fst] in *. cbn zeta.
      apply in_seq in Hi.
      destruct (choice q _ g0) as [[a g2] | e] eqn:Hch; cbn [bind]; [| discriminate].
      pose proof (choice_range _ _ _ _ _ Hch) as Ha.
      destruct (Nat.eqb_spec a qg); cbn [negb]; intros H; injection H as <- _.
      + split; assumption.
      + split.
        * apply Forall_nth_error_iff. intros j x Hj.
          rewrite nth_error_set_nth in Hj.
          destruct ((j =? i * qg + a)%nat && (i * qg + a <? length v0)%nat).
          -- injection Hj as <-. right. reflexivity.
          -- rewrite Forall_forall in Hbin. apply Hbin. eapply nth_error_In. exact Hj.
        * intros k Hk. rewrite nth_as_nth_error, nth_error_set_nth.
          destruct (Nat.eqb_spec k (i * qg + a)); [subst qg; nia |].
          cbn [andb]. rewrite <- nth_as_nth_error. apply Htail. exact Hk.
    - cbn [fst]. split.
      + apply Forall_forall. intros x Hx. apply repeat_spec in Hx. left. exact Hx.
      + intros k _. apply nth_repeat. }
  destruct Hinv as [Hbin Htail]. repeat split; assumption.
Qed.

Lemma sample_data_indip_valid_witness :
  exists v g',
    sample_data_indip [0; 0; 0] 1 3 zero_rng = Ok (v, g') /\
    length v = length [0; 0; 0] /\
    Forall (fun x => x = 0 \/ x = 1) v /\
    one_hot_blocks Req_EM_T 1 (3 - 1) v /\
    forall k, (length [0; 0; 0] / (3 - 1) * (3 - 1) <= k)%nat -> nth k v 0 = 0.
Proof.
  apply (sample_data_indip_valid [0; 0; 0] 1 3 zero_rng). lia.
Defined.
